(** * SingleLinkedList: a heap model of single-linked-list.h

    The C++ class owns a chain of heap nodes hanging off a sentinel [head_]
    that is a member of the list object, together with a cached [size_].
    Iterators are bare node pointers, and they may point at the sentinel
    (before_begin), at a heap node, or be null (end).

    The embedding keeps that shape.  Memory is a finite map from addresses
    to [Node] objects; a list object lives at the address of its [head_]
    member (its first member, so [this] and [&head_] coincide), and its
    [size_] field is kept in a second map under the same address.  Every
    member function is a computation in a small state-and-failure monad:
    it can return a value and a new memory, stop on a failed [assert],
    hit undefined behaviour (a null or dangling dereference), or run out
    of fuel in one of the loops.

    Conventions.  Integers are those of an LP64 platform: [size_t] has 64
    bits and wraps, [int] has 32.  [new] returns an address that is not in
    use and never fails.  Loops carry fuel, one unit per round, and the
    member functions supply as much as memory has nodes plus one, which is
    shown to be enough on every well-formed memory.  The element type, its
    default value and its [==] and [<] are parameters, and so is [NDEBUG],
    which says whether [assert] is compiled out. *)

From stdpp Require Import gmap list.
From Stdlib Require Import ZArith Lia.

Local Open Scope Z_scope.

(** ** Machine integers (LP64: 64-bit [size_t], 32-bit [int]) *)

Definition size_t_bits : Z := 64.
Definition int_bits : Z := 32.
Definition INT_MAX : Z := 2 ^ (int_bits - 1) - 1.

(** Arithmetic on [size_t] is modulo [2 ^ 64]. *)
Definition to_size_t (z : Z) : Z := z mod 2 ^ size_t_bits.

(** The conversion [size_t -> int] of [return size_;]: two's complement
    narrowing to 32 bits. *)
Definition to_int (z : Z) : Z :=
  (z + 2 ^ (int_bits - 1)) mod 2 ^ int_bits - 2 ^ (int_bits - 1).

(** ** Memory *)

Definition loc := positive.

(** A [Node*]: [None] is [nullptr]. *)
Definition ptr := option loc.

Section Model.

Set Default Proof Using "Type".

Context {T : Type}.

(** [Type value{}] of a default-constructed node. *)
Variable dflt : T.
(** [operator==] and [operator<] of the element type. *)
Variable eqT : T → T → bool.
Variable ltT : T → T → bool.
(** Whether [assert] is compiled out. *)
Variable NDEBUG : bool.

Record Node := mkNode { value : T; next_node : ptr }.

Record mem := Mem {
  nodes : gmap loc Node;  (* every live Node: heap nodes and the head_ of every list *)
  size_ : gmap loc Z      (* the size_ field of every live list object *)
}.

Definition empty_mem : mem := Mem ∅ ∅.

(** ** The monad *)

Inductive outcome (A : Type) :=
| Ok (a : A) (m : mem)
| AssertFail
| Undefined
| OutOfFuel.
Arguments Ok {A} a m.
Arguments AssertFail {A}.
Arguments Undefined {A}.
Arguments OutOfFuel {A}.

Definition M (A : Type) : Type := mem → outcome A.

Definition ret {A} (a : A) : M A := λ m, Ok a m.

Definition bind {A B} (c : M A) (k : A → M B) : M B :=
  λ m, match c m with
       | Ok a m' => k a m'
       | AssertFail => AssertFail
       | Undefined => Undefined
       | OutOfFuel => OutOfFuel
       end.

Definition undefined {A} : M A := λ _, Undefined.
Definition assert_fail {A} : M A := λ _, AssertFail.
Definition out_of_fuel {A} : M A := λ _, OutOfFuel.

Notation "x <- c ;; k" := (bind c (λ x, k))
  (at level 100, c at next level, right associativity,
   format "'[v' x  <-  c  ;;  '/' k ']'").
Notation "c ;;; k" := (bind c (λ _, k))
  (at level 100, right associativity).

(** [assert(e)]: nothing at all under NDEBUG (the expression is not even
    evaluated), otherwise evaluate and abort when false. *)
Definition assert_ (e : M bool) : M unit :=
  if NDEBUG then ret tt
  else b <- e ;; if b then ret tt else assert_fail.

(** ** Primitive accesses *)

(** [p->...]: dereferencing null is undefined. *)
Definition deref (p : ptr) : M loc :=
  match p with Some a => ret a | None => undefined end.

Definition load (a : loc) : M Node :=
  λ m, match nodes m !! a with Some n => Ok n m | None => Undefined end.

Definition get_next (a : loc) : M ptr := n <- load a ;; ret (next_node n).
Definition get_value (a : loc) : M T := n <- load a ;; ret (value n).

Definition set_next (a : loc) (q : ptr) : M unit :=
  λ m, match nodes m !! a with
       | Some n => Ok tt (Mem (<[a := mkNode (value n) q]> (nodes m)) (size_ m))
       | None => Undefined
       end.

Definition set_value (a : loc) (v : T) : M unit :=
  λ m, match nodes m !! a with
       | Some n => Ok tt (Mem (<[a := mkNode v (next_node n)]> (nodes m)) (size_ m))
       | None => Undefined
       end.

(** [new Node(v, next)]: some address that is not in use.  Allocation
    always succeeds here; [std::bad_alloc] is not modelled. *)
Definition new_Node (v : T) (next : ptr) : M loc :=
  λ m, let a := fresh (dom (nodes m)) in
       Ok a (Mem (<[a := mkNode v next]> (nodes m)) (size_ m)).

(** [delete p]. *)
Definition delete_Node (a : loc) : M unit :=
  λ m, match nodes m !! a with
       | Some _ => Ok tt (Mem (delete a (nodes m)) (size_ m))
       | None => Undefined
       end.

Definition get_size (this : loc) : M Z :=
  λ m, match size_ m !! this with Some z => Ok z m | None => Undefined end.

Definition set_size (this : loc) (z : Z) : M unit :=
  λ m, match size_ m !! this with
       | Some _ => Ok tt (Mem (nodes m) (<[this := z]> (size_ m)))
       | None => Undefined
       end.

(** ** BasicIterator *)

Record BasicIterator := mkIter { node_ : ptr }.
Definition Iterator := BasicIterator.
Definition ConstIterator := BasicIterator.

(** [operator==] / [operator!=] of iterators. *)
Definition iter_eq (a b : BasicIterator) : bool := bool_decide (node_ a = node_ b).
Definition iter_ne (a b : BasicIterator) : bool := negb (iter_eq a b).

(** [operator bool]. *)
Definition iter_bool (it : BasicIterator) : bool := bool_decide (node_ it ≠ None).

(** [operator++]. *)
Definition iter_incr (it : BasicIterator) : M BasicIterator :=
  assert_ (ret (iter_bool it)) ;;;
  a <- deref (node_ it) ;;
  q <- get_next a ;;
  ret (mkIter q).

(** [operator*], read. *)
Definition iter_deref (it : BasicIterator) : M T :=
  assert_ (ret (iter_bool it)) ;;;
  a <- deref (node_ it) ;;
  get_value a.

(** [*it = v] through a mutable iterator. *)
Definition iter_assign (it : Iterator) (v : T) : M unit :=
  assert_ (ret (iter_bool it)) ;;;
  a <- deref (node_ it) ;;
  set_value a v.

(** ** SingleLinkedList: iterator factories *)

Definition begin (this : loc) : M Iterator := q <- get_next this ;; ret (mkIter q).
Definition end_ : Iterator := mkIter None.
Definition cbegin (this : loc) : M ConstIterator := begin this.
Definition cend : ConstIterator := end_.
Definition before_begin (this : loc) : Iterator := mkIter (Some this).
Definition cbefore_begin (this : loc) : ConstIterator := before_begin this.

(** ** Queries *)

Definition GetSize (this : loc) : M Z := z <- get_size this ;; ret (to_int z).

Definition IsEmpty (this : loc) : M bool :=
  q <- get_next this ;; ret (bool_decide (q = None)).

(** ** Mutators *)

(** [++size_] and [--size_] on a [size_t]. *)
Definition incr_size (this : loc) : M unit :=
  z <- get_size this ;; set_size this (to_size_t (z + 1)).
Definition decr_size (this : loc) : M unit :=
  z <- get_size this ;; set_size this (to_size_t (z - 1)).

Definition PushFront (this : loc) (v : T) : M unit :=
  first <- get_next this ;;
  new_node <- new_Node v first ;;
  set_next this (Some new_node) ;;;
  incr_size this.

Definition InsertAfter (this : loc) (pos : ConstIterator) (v : T) : M Iterator :=
  assert_ (ret (iter_bool pos)) ;;;
  p <- deref (node_ pos) ;;
  after <- get_next p ;;
  insert_node <- new_Node v after ;;
  set_next p (Some insert_node) ;;;
  incr_size this ;;;
  ret (mkIter (Some insert_node)).

Definition PopFront (this : loc) : M unit :=
  assert_ (e <- IsEmpty this ;; ret (negb e)) ;;;
  e <- IsEmpty this ;;
  if e then ret tt
  else
    first <- get_next this ;;
    pop_node <- deref first ;;
    after <- get_next pop_node ;;
    set_next this after ;;;
    delete_Node pop_node ;;;
    decr_size this.

(** [pos && pos.node_->next_node], with the short circuit. *)
Definition has_next (pos : ConstIterator) : M bool :=
  if iter_bool pos then
    p <- deref (node_ pos) ;;
    q <- get_next p ;;
    ret (bool_decide (q ≠ None))
  else ret false.

Definition EraseAfter (this : loc) (pos : ConstIterator) : M Iterator :=
  assert_ (has_next pos) ;;;
  ok <- has_next pos ;;
  if negb ok then ret (mkIter None)
  else
    p <- deref (node_ pos) ;;
    q <- get_next p ;;
    erase_node <- deref q ;;
    after <- get_next erase_node ;;
    set_next p after ;;;
    delete_Node erase_node ;;;
    decr_size this ;;;
    after' <- get_next p ;;
    ret (mkIter after').

(** The [while] loop of [Clear]; every round deletes one node. *)
Fixpoint Clear_loop (fuel : nat) (this : loc) : M unit :=
  match fuel with
  | O => out_of_fuel
  | S fuel' =>
      first <- get_next this ;;
      match first with
      | None => ret tt
      | Some f =>
          after <- get_next f ;;
          set_next this after ;;;
          delete_Node f ;;;
          Clear_loop fuel' this
      end
  end.

(** A round deletes a live node, so the loop cannot take more rounds than
    there are nodes. *)
Definition Clear (this : loc) : M unit :=
  λ m, (Clear_loop (S (size (nodes m))) this ;;; set_size this 0) m.

Definition swap (this other : loc) : M unit :=
  a <- get_next this ;;
  b <- get_next other ;;
  set_next this b ;;;
  set_next other a ;;;
  sa <- get_size this ;;
  sb <- get_size other ;;
  set_size this sb ;;;
  set_size other sa.

(** ** Construction and destruction *)

(** Storage for a list object with its default member initialisers applied:
    [head_] is a default [Node], [size_ = 0].  This is the whole of
    [SingleLinkedList() = default]. *)
Definition ctor_default : M loc :=
  λ m, let l := fresh (dom (nodes m)) in
       Ok l (Mem (<[l := mkNode dflt None]> (nodes m)) (<[l := 0]> (size_ m))).

(** [~SingleLinkedList()] followed by the release of the object's storage. *)
Definition dtor (this : loc) : M unit :=
  Clear this ;;;
  λ m, match nodes m !! this with
       | Some _ => Ok tt (Mem (delete this (nodes m)) (delete this (size_ m)))
       | None => Undefined
       end.

(** The body of the range-for in [Initialize], over an initializer list. *)
Fixpoint Initialize_loop_il (temp : loc) (node : loc) (elems : list T) : M unit :=
  match elems with
  | [] => ret tt
  | element :: rest =>
      n <- new_Node element None ;;
      set_next node (Some n) ;;;
      incr_size temp ;;;
      Initialize_loop_il temp n rest
  end.

(** [Initialize<std::initializer_list<Type>>]. *)
Definition Initialize_il (this : loc) (elems : list T) : M unit :=
  temp <- ctor_default ;;
  Initialize_loop_il temp temp elems ;;;
  swap this temp ;;;
  dtor temp.

(** The same loop over another list, driven by its const iterators. *)
Fixpoint Initialize_loop_copy (fuel : nat) (temp : loc) (node : loc)
    (it : ConstIterator) : M unit :=
  match fuel with
  | O => out_of_fuel
  | S fuel' =>
      if iter_ne it cend then
        element <- iter_deref it ;;
        n <- new_Node element None ;;
        set_next node (Some n) ;;;
        incr_size temp ;;;
        it' <- iter_incr it ;;
        Initialize_loop_copy fuel' temp n it'
      else ret tt
  end.

(** [Initialize<SingleLinkedList<Type>>]. *)
Definition Initialize_copy (this other : loc) : M unit :=
  temp <- ctor_default ;;
  it <- cbegin other ;;
  (λ m, Initialize_loop_copy (S (size (nodes m))) temp temp it m) ;;;
  swap this temp ;;;
  dtor temp.

Definition ctor_il (elems : list T) : M loc :=
  this <- ctor_default ;; Initialize_il this elems ;;; ret this.

Definition ctor_copy (other : loc) : M loc :=
  this <- ctor_default ;; Initialize_copy this other ;;; ret this.

Definition copy_assign (this other : loc) : M loc :=
  (if bool_decide (this ≠ other) then Initialize_copy this other else ret tt) ;;;
  ret this.

Definition ctor_move (other : loc) : M loc :=
  this <- ctor_default ;; swap this other ;;; ret this.

(** [operator=(SingleLinkedList&&)].  The body is
    [if (this != &other) { this = &other; } return *this;]: it assigns to
    the pointer [this] and to no member of either list, so memory is not
    touched; the reference that comes back designates [other]. *)
Definition move_assign (this other : loc) : M loc :=
  let this' := if bool_decide (this ≠ other) then other else this in
  ret this'.

(** ** Observations built from the public interface *)

(** The client loop [for (it = begin(); it != end(); ++it)], recording the
    node each step stands on and the value read through [*it]. *)
Fixpoint traverse_loop (fuel : nat) (it : ConstIterator) : M (list (loc * T)) :=
  match fuel with
  | O => out_of_fuel
  | S fuel' =>
      if iter_ne it cend then
        v <- iter_deref it ;;
        a <- deref (node_ it) ;;
        it' <- iter_incr it ;;
        rest <- traverse_loop fuel' it' ;;
        ret ((a, v) :: rest)
      else ret []
  end.

Definition traverse (this : loc) : M (list (loc * T)) :=
  it <- cbegin this ;;
  λ m, traverse_loop (S (size (nodes m))) it m.

(** ** Comparison operators *)

(** [std::equal] with four forward iterators. *)
Fixpoint std_equal (fuel : nat) (first1 last1 first2 last2 : ConstIterator) : M bool :=
  match fuel with
  | O => out_of_fuel
  | S fuel' =>
      if iter_ne first1 last1 && iter_ne first2 last2 then
        x <- iter_deref first1 ;;
        y <- iter_deref first2 ;;
        if negb (eqT x y) then ret false
        else
          first1' <- iter_incr first1 ;;
          first2' <- iter_incr first2 ;;
          std_equal fuel' first1' last1 first2' last2
      else ret (iter_eq first1 last1 && iter_eq first2 last2)
  end.

(** [std::lexicographical_compare]. *)
Fixpoint std_lexicographical_compare (fuel : nat)
    (first1 last1 first2 last2 : ConstIterator) : M bool :=
  match fuel with
  | O => out_of_fuel
  | S fuel' =>
      if iter_ne first1 last1 && iter_ne first2 last2 then
        x <- iter_deref first1 ;;
        y <- iter_deref first2 ;;
        if ltT x y then ret true
        else if ltT y x then ret false
        else
          first1' <- iter_incr first1 ;;
          first2' <- iter_incr first2 ;;
          std_lexicographical_compare fuel' first1' last1 first2' last2
      else ret (iter_eq first1 last1 && iter_ne first2 last2)
  end.

Definition op_eq (left right : loc) : M bool :=
  if bool_decide (left = right) then ret true
  else
    sl <- GetSize left ;;
    sr <- GetSize right ;;
    if bool_decide (sl ≠ sr) then ret false
    else
      b1 <- cbegin left ;;
      b2 <- cbegin right ;;
      λ m, std_equal (S (size (nodes m))) b1 cend b2 cend m.

Definition op_ne (left right : loc) : M bool :=
  b <- op_eq left right ;; ret (negb b).

Definition op_lt (left right : loc) : M bool :=
  b1 <- cbegin left ;;
  b2 <- cbegin right ;;
  λ m, std_lexicographical_compare (S (size (nodes m))) b1 cend b2 cend m.

Definition op_le (left right : loc) : M bool :=
  b <- op_lt right left ;; ret (negb b).

Definition op_gt (left right : loc) : M bool := op_lt right left.

Definition op_ge (left right : loc) : M bool :=
  b <- op_lt left right ;; ret (negb b).

(** ** Representation *)

(** [lseg h p cells q]: following [next_node] from [p] visits exactly the
    nodes of [cells] (address and stored value), and the last of them
    points to [q]. *)
Fixpoint lseg (h : gmap loc Node) (p : ptr) (cells : list (loc * T)) (q : ptr) : Prop :=
  match cells with
  | [] => p = q
  | (a, v) :: rest =>
      p = Some a ∧ ∃ nx, h !! a = Some (mkNode v nx) ∧ lseg h nx rest q
  end.

(** The list object at [l] owns the null-terminated chain [cells], and its
    counter is the chain's length as a [size_t]. *)
Definition is_list (m : mem) (l : loc) (cells : list (loc * T)) : Prop :=
  (∃ hd, nodes m !! l = Some hd ∧ lseg (nodes m) (next_node hd) cells None)
  ∧ size_ m !! l = Some (to_size_t (Z.of_nat (length cells))).

(** [models m σ]: [σ] lists the live list objects of [m] with the chain each
    one owns; no node belongs to two chains and no list object is a node
    of a chain. *)
Definition models (m : mem) (σ : gmap loc (list (loc * T))) : Prop :=
  dom σ = dom (size_ m)
  ∧ (∀ l c, σ !! l = Some c → is_list m l c)
  ∧ (∀ l1 l2 c1 c2 a, σ !! l1 = Some c1 → σ !! l2 = Some c2 →
       a ∈ c1.*1 → a ∈ c2.*1 → l1 = l2)
  ∧ (∀ l c a, σ !! l = Some c → a ∈ c.*1 → σ !! a = None).

Definition wf (m : mem) : Prop := ∃ σ, models m σ.

(** ** The public operations as data *)

(** Operations that change one list in place. *)
Inductive mutation :=
| MPushFront (v : T)
| MInsertAfter (pos : ConstIterator) (v : T)
| MPopFront
| MEraseAfter (pos : ConstIterator)
| MClear
| MAssign (pos : Iterator) (v : T).

Definition mutate (this : loc) (mu : mutation) : M unit :=
  match mu with
  | MPushFront v => PushFront this v
  | MInsertAfter pos v => InsertAfter this pos v ;;; ret tt
  | MPopFront => PopFront this
  | MEraseAfter pos => EraseAfter this pos ;;; ret tt
  | MClear => Clear this
  | MAssign pos v => iter_assign pos v
  end.

(** [pos] is a position of the list at [this]: its sentinel or one of its
    nodes. *)
Definition position_of (m : mem) (this : loc) (pos : BasicIterator) : Prop :=
  ∃ c p, is_list m this c ∧ node_ pos = Some p ∧ p ∈ this :: c.*1.

(** [pos] stands on an element of the list at [this]. *)
Definition element_of (m : mem) (this : loc) (pos : BasicIterator) : Prop :=
  ∃ c p, is_list m this c ∧ node_ pos = Some p ∧ p ∈ c.*1.

(** The iterator arguments belong to the list they are used with. *)
Definition valid_mutation (m : mem) (this : loc) (mu : mutation) : Prop :=
  match mu with
  | MInsertAfter pos _ => position_of m this pos
  | MEraseAfter pos => node_ pos = None ∨ position_of m this pos
  | MAssign pos _ => element_of m this pos
  | MPushFront _ | MPopFront | MClear => True
  end.

Inductive operation :=
| OpDefault
| OpInitList (elems : list T)
| OpCopy (other : loc)
| OpMove (other : loc)
| OpCopyAssign (this other : loc)
| OpMoveAssign (this other : loc)
| OpDestroy (this : loc)
| OpSwap (this other : loc)
| OpMutate (this : loc) (mu : mutation).

Definition run (o : operation) : M unit :=
  match o with
  | OpDefault => ctor_default ;;; ret tt
  | OpInitList elems => ctor_il elems ;;; ret tt
  | OpCopy other => ctor_copy other ;;; ret tt
  | OpMove other => ctor_move other ;;; ret tt
  | OpCopyAssign this other => copy_assign this other ;;; ret tt
  | OpMoveAssign this other => move_assign this other ;;; ret tt
  | OpDestroy this => dtor this
  | OpSwap this other => swap this other
  | OpMutate this mu => mutate this mu
  end.

Definition live (m : mem) (l : loc) : Prop := is_Some (size_ m !! l).

(** An operation is used within its contract: the lists it names are live
    and iterators are used with their own list. *)
Definition enabled (m : mem) (o : operation) : Prop :=
  match o with
  | OpDefault | OpInitList _ => True
  | OpCopy other | OpMove other => live m other
  | OpCopyAssign this other | OpMoveAssign this other | OpSwap this other =>
      live m this ∧ live m other
  | OpDestroy this => live m this
  | OpMutate this mu => live m this ∧ valid_mutation m this mu
  end.

(** Memories a program can get to from nothing through the public
    interface. *)
Inductive reachable : mem → Prop :=
| reachable_empty : reachable empty_mem
| reachable_step m o m' :
    reachable m → enabled m o → run o m = Ok tt m' → reachable m'.

(** [n] times [PushFront(v)]. *)
Fixpoint PushFront_times (n : nat) (this : loc) (v : T) : M unit :=
  match n with
  | O => ret tt
  | S n' => PushFront this v ;;; PushFront_times n' this v
  end.

(** ** Comparison of sequences, as the specification words it *)

(** Same length and equal elements, position by position. *)
Definition seq_equal (xs ys : list T) : Prop :=
  length xs = length ys ∧ Forall2 (λ x y, eqT x y = true) xs ys.

(** Lexicographic order: a proper prefix is smaller; otherwise the first
    position at which one element is less than the other decides. *)
Inductive seq_less : list T → list T → Prop :=
| seq_less_nil y ys : seq_less [] (y :: ys)
| seq_less_here x y xs ys : ltT x y = true → seq_less (x :: xs) (y :: ys)
| seq_less_later x y xs ys :
    ltT x y = false → ltT y x = false → seq_less xs ys →
    seq_less (x :: xs) (y :: ys).

(** Boolean versions, used to say what the operators compute. *)
Fixpoint seq_equalb (xs ys : list T) : bool :=
  match xs, ys with
  | [], [] => true
  | x :: xs', y :: ys' => eqT x y && seq_equalb xs' ys'
  | _, _ => false
  end.

Fixpoint seq_lessb (xs ys : list T) : bool :=
  match xs, ys with
  | _, [] => false
  | [], _ :: _ => true
  | x :: xs', y :: ys' =>
      if ltT x y then true else if ltT y x then false else seq_lessb xs' ys'
  end.

(** Any number of in-place mutations of the list at [l], each used within
    its contract. *)
Inductive mutated (l : loc) : mem → mem → Prop :=
| mutated_refl m : mutated l m m
| mutated_step m m1 mu m2 :
    mutated l m m1 → valid_mutation m1 l mu → mutate l mu m1 = Ok tt m2 →
    mutated l m m2.

(** [B] holds a copy of the list [A] (whose chain is [ca]): the same
    values in the same order, in nodes of its own, and no sequence of
    mutations of one of the two lists changes the other. *)
Definition deep_copy (m : mem) (A B : loc) (ca : list (loc * T)) : Prop :=
  ∃ cb,
    is_list m A ca ∧ is_list m B cb
    ∧ cb.*2 = ca.*2
    ∧ (∀ a, a ∈ B :: cb.*1 → a ∉ A :: ca.*1)
    ∧ (∀ m', mutated B m m' → is_list m' A ca)
    ∧ (∀ m', mutated A m m' → is_list m' B cb).

(** [c] run in [m] returns [a]. *)
Definition returns {A} (c : M A) (m : mem) (a : A) : Prop :=
  ∃ m', c m = Ok a m'.

(** The memory a computation leaves behind (the starting memory when it
    does not return). *)
Definition mem_after {A} (c : M A) (m : mem) : mem :=
  match c m with Ok _ m' => m' | _ => m end.

(** ** More of the interface *)

(** [operator++(int)]: hands back the iterator as it was and moves the
    iterator on.  The result is the pair (copy returned, iterator
    afterwards). *)
Definition iter_post_incr (it : BasicIterator) : M (BasicIterator * BasicIterator) :=
  assert_ (ret (iter_bool it)) ;;;
  let old_iter := it in
  a <- deref (node_ it) ;;
  q <- get_next a ;;
  ret (old_iter, mkIter q).

(** [n] times [++it]. *)
Fixpoint iter_advance (n : nat) (it : BasicIterator) : M BasicIterator :=
  match n with
  | O => ret it
  | S n' => it' <- iter_incr it ;; iter_advance n' it'
  end.

(** One [PushFront] per element, in the order of the sequence. *)
Fixpoint PushFront_all (this : loc) (elems : list T) : M unit :=
  match elems with
  | [] => ret tt
  | v :: rest => PushFront this v ;;; PushFront_all this rest
  end.

(** The free function [swap(left, right)]. *)
Definition free_swap (left right : loc) : M unit := swap left right.

(** Every node in memory is either a live list object or a node of the
    chain of a live list: nothing allocated is lost. *)
Definition no_leak (m : mem) : Prop :=
  ∀ a, is_Some (nodes m !! a) →
       live m a ∨ ∃ l c, is_list m l c ∧ a ∈ c.*1.

(** The same, stated against a model of memory. *)
Definition accounted (m : mem) (σ : gmap loc (list (loc * T))) : Prop :=
  ∀ a, is_Some (nodes m !! a) →
       is_Some (σ !! a) ∨ ∃ l c, σ !! l = Some c ∧ a ∈ c.*1.

(** Unfolds a straight-line member function down to the lookups it makes
    in memory. *)
Ltac exec_unfold :=
  unfold InsertAfter, PushFront, PopFront, EraseAfter, has_next, IsEmpty, swap,
    incr_size, decr_size, iter_incr, iter_deref, iter_assign, cbegin, begin,
    GetSize, assert_, get_next, get_value, load, set_next, set_value, new_Node,
    delete_Node, get_size, set_size, deref, iter_bool, bind, ret,
    undefined, assert_fail; simpl.

(** ** Facts about segments *)

Lemma lseg_app h p c1 c2 q :
  lseg h p (c1 ++ c2) q ↔ ∃ r, lseg h p c1 r ∧ lseg h r c2 q.
Proof.
  revert p. induction c1 as [|[a v] c1 IH]; intros p; simpl.
  - split; [intros H; exists p; auto | intros (r & -> & H); exact H].
  - split.
    + intros (-> & nx & Ha & Hl). apply IH in Hl as (r & H1 & H2).
      exists r. split; [|exact H2]. split; [done|]. exists nx. auto.
    + intros (r & (-> & nx & Ha & H1) & H2). split; [done|].
      exists nx. split; [done|]. apply IH. exists r. auto.
Qed.

Lemma lseg_det h p c1 c2 :
  lseg h p c1 None → lseg h p c2 None → c1 = c2.
Proof.
  revert p c2. induction c1 as [|[a v] c1 IH]; intros p [|[b w] c2]; simpl.
  - done.
  - intros -> (? & _); done.
  - intros (-> & _) ?; done.
  - intros (-> & nx & Ha & H1) (Hb & nx' & Hb' & H2).
    injection Hb as <-. rewrite Ha in Hb'. injection Hb' as <- <-.
    f_equal. eapply IH; eauto.
Qed.

Lemma lseg_lookup h p c q a :
  lseg h p c q → a ∈ c.*1 → is_Some (h !! a).
Proof.
  revert p. induction c as [|[b w] c IH]; intros p; simpl.
  - intros _ Hin. inversion Hin.
  - intros (-> & nx & Hb & Hl) Hin. apply elem_of_cons in Hin as [->|Hin]; eauto.
Qed.

(** A null-terminated chain never visits a node twice. *)
Lemma lseg_NoDup h p c : lseg h p c None → NoDup c.*1.
Proof.
  revert p. induction c as [|[a v] c IH]; intros p; simpl.
  - intros _. constructor.
  - intros (-> & nx & Ha & Hl). constructor; [|eauto].
    intros Hin. apply list_elem_of_fmap in Hin as ([a' v'] & Heq & Hin).
    simpl in Heq. subst a'.
    apply list_elem_of_split in Hin as (c1 & c2 & ->).
    pose proof Hl as Hl'. apply lseg_app in Hl' as (r & _ & H2).
    simpl in H2. destruct H2 as (-> & nx' & Ha' & H2).
    rewrite Ha in Ha'. injection Ha' as <- <-.
    pose proof (lseg_det _ _ _ _ Hl H2) as Heq.
    apply (f_equal length) in Heq. rewrite length_app in Heq. simpl in Heq. lia.
Qed.

(** Only the nodes of the segment are read. *)
Lemma lseg_frame h h' p c q :
  (∀ a, a ∈ c.*1 → h' !! a = h !! a) → lseg h p c q → lseg h' p c q.
Proof.
  revert p. induction c as [|[a v] c IH]; intros p Hsame; simpl; [done|].
  intros (-> & nx & Ha & Hl). split; [done|]. exists nx. split.
  - rewrite Hsame; [done|]. simpl. left.
  - apply IH; [|done]. intros b Hb. apply Hsame. simpl. by right.
Qed.

Lemma lseg_length h p c : lseg h p c None → (length c ≤ size h)%nat.
Proof.
  intros Hl. pose proof (lseg_NoDup _ _ _ Hl) as Hnd.
  rewrite <- (length_fmap fst c).
  rewrite <- (size_dom (D := gset loc)).
  rewrite <- (size_list_to_set (C := gset loc) c.*1) by done.
  apply subseteq_size. intros a Ha. apply elem_of_list_to_set in Ha.
  apply elem_of_dom. eapply lseg_lookup; eauto.
Qed.

(** The chain of a list seen from the sentinel: the sentinel is the first
    cell of a segment that starts at [Some l]. *)
Lemma is_list_full m l c :
  is_list m l c ↔
  (∃ v0, lseg (nodes m) (Some l) ((l, v0) :: c) None)
  ∧ size_ m !! l = Some (to_size_t (Z.of_nat (length c))).
Proof.
  unfold is_list. split; intros [Hc Hs]; (split; [|exact Hs]).
  - destruct Hc as ([v0 nx] & Hl & Hseg). exists v0. simpl in *. eauto.
  - destruct Hc as (v0 & _ & nx & Hl & Hseg). exists (mkNode v0 nx). eauto.
Qed.

Lemma is_list_det m l c1 c2 : is_list m l c1 → is_list m l c2 → c1 = c2.
Proof.
  intros [(hd & Hl & H1) _] [(hd' & Hl' & H2) _].
  rewrite Hl in Hl'. injection Hl' as <-. eapply lseg_det; eauto.
Qed.

Lemma is_list_NoDup m l c : is_list m l c → NoDup (l :: c.*1).
Proof.
  intros [(v0 & H) _]%is_list_full. apply lseg_NoDup in H. exact H.
Qed.

Lemma is_list_lookup m l c a : is_list m l c → a ∈ l :: c.*1 → is_Some (nodes m !! a).
Proof.
  intros [(v0 & H) _]%is_list_full Ha. eapply lseg_lookup; eauto.
Qed.

Lemma is_list_frame m m' l c :
  is_list m l c →
  (∀ a, a ∈ l :: c.*1 → nodes m' !! a = nodes m !! a) →
  size_ m' !! l = size_ m !! l →
  is_list m' l c.
Proof.
  intros [(v0 & H) Hs]%is_list_full Hsame Hsz. apply is_list_full.
  split; [|by rewrite Hsz]. exists v0. eapply lseg_frame; [|exact H].
  intros a Ha. apply Hsame. exact Ha.
Qed.

(** Splitting a chain at one of its cells. *)
Lemma lseg_split h p pre a v suf :
  lseg h p (pre ++ (a, v) :: suf) None →
  ∃ nx, h !! a = Some (mkNode v nx)
        ∧ lseg h p pre (Some a) ∧ lseg h nx suf None
        ∧ (a ∉ pre.*1) ∧ (a ∉ suf.*1).
Proof.
  intros H. pose proof (lseg_NoDup _ _ _ H) as Hnd.
  apply lseg_app in H as (r & Hpre & Hrest). simpl in Hrest.
  destruct Hrest as (-> & nx & Ha & Hsuf). exists nx.
  rewrite fmap_app, fmap_cons in Hnd. simpl in Hnd.
  apply NoDup_app in Hnd as (_ & Hdisj & Hnd').
  apply NoDup_cons in Hnd' as [Hnot _].
  repeat split; try done.
  intros Hin. eapply Hdisj; [exact Hin|]. left.
Qed.

Lemma models_lookup m σ l c : models m σ → is_list m l c → σ !! l = Some c.
Proof.
  intros (Hdom & Hl & _) Hc.
  assert (is_Some (σ !! l)) as [c' Hc'].
  { apply elem_of_dom. rewrite Hdom. apply elem_of_dom.
    destruct Hc as [_ Hs]. eauto. }
  rewrite Hc'. f_equal. eapply is_list_det; eauto.
Qed.

Lemma models_nodes_dom m σ l c : models m σ → σ !! l = Some c → is_Some (nodes m !! l).
Proof.
  intros (_ & Hl & _) Hc. apply Hl in Hc as [(hd & ? & _) _]. eauto.
Qed.

(** A fresh address is neither a list object nor a node of a chain. *)
Lemma models_fresh m σ a :
  models m σ → nodes m !! a = None →
  σ !! a = None ∧ ∀ l c, σ !! l = Some c → a ∉ l :: c.*1.
Proof.
  intros Hm Ha. split.
  - destruct (σ !! a) as [c|] eqn:E; [|done].
    destruct (models_nodes_dom _ _ _ _ Hm E) as [? ?]. congruence.
  - intros l c Hc Hin. destruct Hm as (_ & Hl & _).
    destruct (is_list_lookup _ _ _ _ (Hl _ _ Hc) Hin). congruence.
Qed.

(** A list that owns none of the touched addresses is left as it was. *)
Lemma models_untouched m m' σ l c (touched : list loc) :
  models m σ → σ !! l = Some c →
  (∀ a, a ∉ touched → nodes m' !! a = nodes m !! a) →
  (∀ a, a ∈ touched → a ∉ l :: c.*1) →
  size_ m' !! l = size_ m !! l →
  is_list m' l c.
Proof.
  intros (_ & Hl & _) Hc Hsame Hdisj Hsz.
  eapply is_list_frame; [by apply Hl | | done].
  intros a Ha. apply Hsame. intros Hin. by apply (Hdisj a).
Qed.

(** In a model, an address of one list (sentinel or node) is no address of
    another list. *)
Lemma models_disjoint m σ l1 l2 c1 c2 a :
  models m σ → σ !! l1 = Some c1 → σ !! l2 = Some c2 → l1 ≠ l2 →
  a ∈ l1 :: c1.*1 → a ∉ l2 :: c2.*1.
Proof.
  intros (_ & _ & Hd & Hno) H1 H2 Hne Ha1 Ha2.
  apply elem_of_cons in Ha1 as [->|Ha1]; apply elem_of_cons in Ha2 as [->|Ha2].
  - done.
  - specialize (Hno _ _ _ H2 Ha2). congruence.
  - specialize (Hno _ _ _ H1 Ha1). congruence.
  - apply Hne. eapply Hd; eauto.
Qed.

(** ** Running the straight-line member functions *)

Lemma fresh_nodes m : nodes m !! fresh (dom (nodes m)) = None.
Proof. apply not_elem_of_dom. apply is_fresh. Qed.

Lemma InsertAfter_exec m l p n v sz :
  nodes m !! p = Some n → size_ m !! l = Some sz →
  let a := fresh (dom (nodes m)) in
  InsertAfter l (mkIter (Some p)) v m =
  Ok (mkIter (Some a))
     (Mem (<[p := mkNode (value n) (Some a)]> (<[a := mkNode v (next_node n)]> (nodes m)))
          (<[l := to_size_t (sz + 1)]> (size_ m))).
Proof.
  intros Hp Hs a. pose proof (fresh_nodes m) as Hfr. fold a in Hfr.
  assert (a ≠ p) as Hne by congruence.
  exec_unfold. destruct NDEBUG; simpl; rewrite Hp; simpl; fold a; clearbody a;
    simplify_map_eq; done.
Qed.

(** ** Keeping the model across an update of one list *)

Lemma models_update m m' σ l c c' (touched : list loc) :
  models m σ → σ !! l = Some c →
  is_list m' l c' →
  (∀ a, a ∈ c'.*1 → a ∈ c.*1 ∨ nodes m !! a = None) →
  (∀ a, a ∉ touched → nodes m' !! a = nodes m !! a) →
  (∀ a, a ∈ touched → a ∈ l :: c.*1 ∨ nodes m !! a = None) →
  (∀ l', l' ≠ l → size_ m' !! l' = size_ m !! l') →
  dom (size_ m') = dom (size_ m) →
  models m' (<[l := c']> σ).
Proof.
  intros Hm Hc Hnew Hsub Hsame Htouched Hsz Hdom.
  pose proof Hm as (Hd & Hl & Hdisj & Hobj).
  assert (Hfresh : ∀ a l2 c2, nodes m !! a = None → σ !! l2 = Some c2 →
            a ∉ l2 :: c2.*1).
  { intros a l2 c2 Ha H2. by apply (models_fresh _ _ _ Hm Ha). }
  assert (Hown : ∀ a l2 c2, a ∈ c'.*1 → σ !! l2 = Some c2 → l2 ≠ l → a ∉ c2.*1).
  { intros a l2 c2 Ha H2 Hne Hin. destruct (Hsub _ Ha) as [Hold|Hfr].
    - apply Hne. symmetry. eapply Hdisj; eauto.
    - eapply Hfresh; eauto. by right. }
  split; [|split; [|split]].
  - rewrite dom_insert_L, Hdom, <- Hd.
    assert (l ∈ dom σ) as Hin by (apply elem_of_dom; eauto).
    apply subseteq_union_1_L, singleton_subseteq_l, Hin.
  - intros l2 c2 H2. destruct (decide (l2 = l)) as [->|Hne].
    + rewrite lookup_insert_eq in H2. by injection H2 as <-.
    + rewrite lookup_insert_ne in H2 by done.
      eapply (models_untouched _ _ _ _ _ touched); eauto.
      intros a Ha. destruct (Htouched _ Ha) as [Hin|Hfr].
      * eapply (models_disjoint _ _ l l2); eauto.
      * eapply Hfresh; eauto.
  - intros l1 l2 c1 c2 a H1 H2 Ha1 Ha2.
    destruct (decide (l1 = l)) as [->|Hne1]; destruct (decide (l2 = l)) as [->|Hne2];
      try done.
    + rewrite lookup_insert_eq in H1. injection H1 as <-.
      rewrite lookup_insert_ne in H2 by done. by destruct (Hown a l2 c2).
    + rewrite lookup_insert_eq in H2. injection H2 as <-.
      rewrite lookup_insert_ne in H1 by done. by destruct (Hown a l1 c1).
    + rewrite lookup_insert_ne in H1, H2 by done. eauto.
  - intros l1 c1 a H1 Ha.
    assert (σ !! a = None) as Hnone.
    { destruct (decide (l1 = l)) as [->|Hne].
      - rewrite lookup_insert_eq in H1. injection H1 as <-.
        destruct (Hsub _ Ha) as [Hold|Hfr]; [eauto|].
        by apply (models_fresh _ _ _ Hm Hfr).
      - rewrite lookup_insert_ne in H1 by done. eauto. }
    rewrite lookup_insert_ne; [done|]. intros ->. congruence.
Qed.


(** The cell at index [i] of the sentinel-led chain of a list. *)
Lemma is_list_position m l c i p :
  is_list m l c → (l :: c.*1) !! i = Some p →
  ∃ v0 vp nx,
    let full := (l, v0) :: c in
    full !! i = Some (p, vp)
    ∧ nodes m !! p = Some (mkNode vp nx)
    ∧ lseg (nodes m) (Some l) (take i full) (Some p)
    ∧ lseg (nodes m) nx (drop i c) None
    ∧ (p ∉ (take i full).*1) ∧ (p ∉ (drop i c).*1).
Proof.
  intros [(v0 & Hfull) _]%is_list_full Hi.
  assert (∃ vp, ((l, v0) :: c) !! i = Some (p, vp)) as [vp Hvp].
  { change (l :: c.*1) with (((l, v0) :: c).*1) in Hi.
    rewrite list_lookup_fmap in Hi.
    destruct (((l, v0) :: c) !! i) as [[p' vp]|] eqn:E; [|done].
    simpl in Hi. injection Hi as ->. eauto. }
  exists v0, vp.
  rewrite <- (take_drop_middle _ _ _ Hvp) in Hfull.
  apply lseg_split in Hfull as (nx & Hp & Hpre & Hsuf & Hn1 & Hn2).
  exists nx. simpl. simpl in Hsuf. repeat split; done.
Qed.

Lemma to_size_t_succ z : to_size_t (to_size_t z + 1) = to_size_t (z + 1).
Proof. unfold to_size_t. by rewrite Zplus_mod_idemp_l. Qed.

Lemma to_size_t_pred z : to_size_t (to_size_t z - 1) = to_size_t (z - 1).
Proof. unfold to_size_t. by rewrite Zminus_mod_idemp_l. Qed.

Lemma length_insert_middle {A} (c : list A) i x :
  length (take i c ++ x :: drop i c) = S (length c).
Proof.
  rewrite length_app. simpl. rewrite Nat.add_succ_r, <- length_app.
  by rewrite take_drop.
Qed.

Lemma fst_insert_middle (c : list (loc * T)) i a v b :
  b ∈ (take i c ++ (a, v) :: drop i c).*1 → b = a ∨ b ∈ c.*1.
Proof.
  rewrite fmap_app, fmap_cons, elem_of_app, elem_of_cons. simpl.
  intros [H|[H|H]]; [right|by left|right];
    rewrite <- (take_drop i c), fmap_app, elem_of_app; auto.
Qed.

Lemma InsertAfter_spec m σ l c i p v :
  models m σ → σ !! l = Some c → (l :: c.*1) !! i = Some p →
  let a := fresh (dom (nodes m)) in
  ∃ m', InsertAfter l (mkIter (Some p)) v m = Ok (mkIter (Some a)) m'
        ∧ models m' (<[l := take i c ++ (a, v) :: drop i c]> σ).
Proof.
  intros Hm Hc Hi a.
  pose proof Hm as (_ & Hl & _). pose proof (Hl _ _ Hc) as Hlist.
  destruct (is_list_position _ _ _ _ _ Hlist Hi)
    as (v0 & vp & nx & Hfi & Hp & Hpre & Hsuf & Hn1 & Hn2).
  destruct Hlist as [_ Hsz].
  pose proof (fresh_nodes m) as Hfr. fold a in Hfr.
  eexists. split; [by apply (InsertAfter_exec _ _ _ _ _ _ Hp Hsz)|].
  simpl. fold a. clearbody a.
  assert (a ≠ p) by congruence.
  assert (Hnotin : ∀ cs q r, lseg (nodes m) q cs r → a ∉ cs.*1).
  { intros cs q r Hseg Hin. destruct (lseg_lookup _ _ _ _ _ Hseg Hin). congruence. }
  eapply (models_update _ _ _ _ _ _ [p; a]); eauto; simpl.
  - apply is_list_full. split; cbn [nodes size_].
    + exists v0.
      change ((l, v0) :: take i c ++ (a, v) :: drop i c)
        with (take (S i) ((l, v0) :: c) ++ (a, v) :: drop i c).
      rewrite (take_S_r _ _ _ Hfi), <- app_assoc. simpl.
      apply lseg_app. exists (Some p). split.
      * eapply lseg_frame; [|exact Hpre]. intros b Hb.
        rewrite !lookup_insert_ne; [done|..]; intros <-;
          first [exact (Hn1 Hb) | exact (Hnotin _ _ _ Hpre Hb)].
      * simpl. split; [done|]. eexists. split; [by rewrite lookup_insert_eq|].
        split; [done|]. exists nx. split.
        { rewrite lookup_insert_ne by done. by rewrite lookup_insert_eq. }
        eapply lseg_frame; [|exact Hsuf]. intros b Hb.
        rewrite !lookup_insert_ne; [done|..]; intros <-;
          first [exact (Hn2 Hb) | exact (Hnotin _ _ _ Hsuf Hb)].
    + rewrite lookup_insert_eq, to_size_t_succ, length_insert_middle. do 2 f_equal. lia.
  - intros b Hb. apply fst_insert_middle in Hb as [->|Hb]; auto.
  - intros b Hb. rewrite !lookup_insert_ne; [done| |]; intros ->; apply Hb;
      first [by left | by right; left].
  - intros b [->|[->|[]%elem_of_nil]%elem_of_cons]%elem_of_cons; [left|by right].
    apply list_elem_of_lookup. eauto.
  - intros l' Hne. by rewrite lookup_insert_ne.
  - rewrite dom_insert_L. apply subseteq_union_1_L, singleton_subseteq_l.
    apply elem_of_dom. eauto.
Qed.


Lemma lseg_head h q cs : lseg h q cs None → q = cs.*1 !! 0%nat.
Proof. destruct cs as [|[a v] cs]; simpl; [done|]. by intros [-> _]. Qed.

Lemma EraseAfter_exec m l p n e ne sz :
  nodes m !! p = Some n → next_node n = Some e → nodes m !! e = Some ne →
  p ≠ e → size_ m !! l = Some sz →
  EraseAfter l (mkIter (Some p)) m =
  Ok (mkIter (next_node ne))
     (Mem (delete e (<[p := mkNode (value n) (next_node ne)]> (nodes m)))
          (<[l := to_size_t (sz - 1)]> (size_ m))).
Proof.
  intros Hp Hn He Hne Hs.
  exec_unfold. destruct NDEBUG; simpl;
    repeat progress (rewrite ?Hp, ?Hn; simpl); simplify_map_eq; done.
Qed.

(** Without assertions, erasing after the end position or after a node
    that has no successor returns the end iterator and changes nothing. *)
Lemma EraseAfter_guard_null m l :
  NDEBUG = true → EraseAfter l (mkIter None) m = Ok (mkIter None) m.
Proof. intros E. exec_unfold. rewrite E. done. Qed.

Lemma EraseAfter_guard_last m l p n :
  NDEBUG = true → nodes m !! p = Some n → next_node n = None →
  EraseAfter l (mkIter (Some p)) m = Ok (mkIter None) m.
Proof. intros E Hp Hn. exec_unfold. rewrite E. simpl. rewrite Hp. simpl. rewrite Hn. done. Qed.

Lemma EraseAfter_assert_null m l :
  NDEBUG = false → EraseAfter l (mkIter None) m = AssertFail.
Proof. intros E. exec_unfold. rewrite E. done. Qed.

Lemma EraseAfter_assert_last m l p n :
  NDEBUG = false → nodes m !! p = Some n → next_node n = None →
  EraseAfter l (mkIter (Some p)) m = AssertFail.
Proof. intros E Hp Hn. exec_unfold. rewrite E. simpl. rewrite Hp. simpl. rewrite Hn. done. Qed.

Lemma fst_delete (c : list (loc * T)) i b : b ∈ (delete i c).*1 → b ∈ c.*1.
Proof.
  rewrite !list_elem_of_fmap. intros (x & -> & Hx). exists x. split; [done|].
  eapply elem_of_sublist; [exact Hx|apply sublist_delete].
Qed.

Lemma EraseAfter_spec m σ l c i p :
  models m σ → σ !! l = Some c → (l :: c.*1) !! i = Some p →
  (i < length c)%nat →
  ∃ m', EraseAfter l (mkIter (Some p)) m = Ok (mkIter (c.*1 !! S i)) m'
        ∧ models m' (<[l := delete i c]> σ).
Proof.
  intros Hm Hc Hi Hlt.
  pose proof Hm as (_ & Hl & _). pose proof (Hl _ _ Hc) as Hlist.
  destruct (is_list_position _ _ _ _ _ Hlist Hi)
    as (v0 & vp & nx & Hfi & Hp & Hpre & Hsuf & Hn1 & Hn2).
  destruct Hlist as [_ Hsz].
  destruct (lookup_lt_is_Some_2 c i Hlt) as [[e ve] He].
  rewrite (drop_S _ _ _ He) in Hsuf, Hn2.
  pose proof (lseg_NoDup _ _ _ Hsuf) as Hnd. simpl in Hnd.
  apply NoDup_cons in Hnd as [He2 _].
  simpl in Hsuf. destruct Hsuf as (-> & nx2 & Hea & Hsuf2).
  assert (p ≠ e) as Hpe.
  { intros ->. apply Hn2. simpl. left. }
  assert (Hepre : e ∉ (take i ((l, v0) :: c)).*1).
  { intros Hin. pose proof (is_list_NoDup _ _ _ (Hl _ _ Hc)) as Hnd.
    change (l :: c.*1) with (((l, v0) :: c).*1) in Hnd.
    rewrite <- (take_drop_middle _ _ _ Hfi), fmap_app in Hnd.
    apply NoDup_app in Hnd as (_ & Hdisj & _). apply (Hdisj _ Hin).
    simpl. right. rewrite (drop_S _ _ _ He). simpl. left. }
  pose proof (lseg_head _ _ _ Hsuf2) as Hnx2.
  rewrite fmap_drop, lookup_drop, Nat.add_0_r in Hnx2.
  eexists. split.
  { rewrite (EraseAfter_exec _ _ _ _ _ _ _ Hp eq_refl Hea Hpe Hsz). simpl.
    rewrite Hnx2. reflexivity. }
  rewrite <- Hnx2.
  eapply (models_update _ _ _ _ _ _ [p; e]); eauto; cbn [nodes size_].
  - apply is_list_full. split; cbn [nodes size_].
    + exists v0. rewrite delete_take_drop.
      change ((l, v0) :: take i c ++ drop (S i) c)
        with (take (S i) ((l, v0) :: c) ++ drop (S i) c).
      rewrite (take_S_r _ _ _ Hfi), <- app_assoc.
      apply lseg_app. exists (Some p). split.
      * eapply lseg_frame; [|exact Hpre]. intros b Hb.
        rewrite lookup_delete_ne, lookup_insert_ne; [done|..]; intros <-;
          first [exact (Hn1 Hb) | exact (Hepre Hb)].
      * simpl. split; [done|]. exists nx2. split.
        { rewrite lookup_delete_ne by done. by rewrite lookup_insert_eq. }
        eapply lseg_frame; [|exact Hsuf2]. intros b Hb.
        rewrite lookup_delete_ne, lookup_insert_ne; [done|..]; intros <-.
        -- apply Hn2. simpl. by right.
        -- exact (He2 Hb).
    + rewrite lookup_insert_eq, to_size_t_pred.
      rewrite (length_delete c i) by (rewrite He; eauto).
      do 2 f_equal. lia.
  - intros b Hb. left. by eapply fst_delete.
  - intros b Hb. rewrite lookup_delete_ne, lookup_insert_ne; [done|..];
      intros <-; apply Hb;
      first [by left | by right; left].
  - intros b [->|[->|[]%elem_of_nil]%elem_of_cons]%elem_of_cons; left.
    + apply list_elem_of_lookup. eauto.
    + right. apply list_elem_of_lookup. exists i. by rewrite list_lookup_fmap, He.
  - intros l' Hne. by rewrite lookup_insert_ne.
  - rewrite dom_insert_L. apply subseteq_union_1_L, singleton_subseteq_l.
    apply elem_of_dom. eauto.
Qed.


(** [PushFront] runs the very steps of [InsertAfter] at the sentinel. *)
Lemma PushFront_as_InsertAfter this v m :
  PushFront this v m = (InsertAfter this (before_begin this) v ;;; ret tt) m.
Proof.
  pose proof (fresh_nodes m) as Hfr.
  exec_unfold. destruct NDEBUG; simpl;
    destruct (nodes m !! this) as [n|] eqn:Hn; simpl; try done;
    (rewrite lookup_insert_ne by congruence); rewrite Hn; simpl;
    destruct (size_ m !! this) eqn:Hs; simpl; rewrite ?Hs; done.
Qed.

Lemma PushFront_spec m σ l c v :
  models m σ → σ !! l = Some c →
  let a := fresh (dom (nodes m)) in
  ∃ m', PushFront l v m = Ok tt m' ∧ models m' (<[l := (a, v) :: c]> σ).
Proof using NDEBUG.
  intros Hm Hc a.
  destruct (InsertAfter_spec m σ l c 0 l v Hm Hc eq_refl) as (m' & Hrun & Hm').
  exists m'. split; [|exact Hm'].
  rewrite PushFront_as_InsertAfter. unfold bind, before_begin. by rewrite Hrun.
Qed.

Lemma PopFront_exec m l n e ne sz :
  nodes m !! l = Some n → next_node n = Some e → nodes m !! e = Some ne →
  l ≠ e → size_ m !! l = Some sz →
  PopFront l m =
  Ok tt (Mem (delete e (<[l := mkNode (value n) (next_node ne)]> (nodes m)))
             (<[l := to_size_t (sz - 1)]> (size_ m))).
Proof.
  intros Hp Hn He Hne Hs.
  exec_unfold. destruct NDEBUG; simpl;
    repeat progress (rewrite ?Hp, ?Hn; simpl); simplify_map_eq; done.
Qed.

(** Without assertions, popping from an empty list changes nothing. *)
Lemma PopFront_guard m l n :
  NDEBUG = true → nodes m !! l = Some n → next_node n = None →
  PopFront l m = Ok tt m.
Proof. intros E Hp Hn. exec_unfold. rewrite E. simpl. rewrite Hp. simpl. by rewrite Hn. Qed.

Lemma PopFront_assert m l n :
  NDEBUG = false → nodes m !! l = Some n → next_node n = None →
  PopFront l m = AssertFail.
Proof. intros E Hp Hn. exec_unfold. rewrite E. simpl. rewrite Hp. simpl. by rewrite Hn. Qed.

(** On a list that has a first element, [PopFront] is [EraseAfter] at the
    sentinel without the returned iterator. *)
Lemma PopFront_spec m σ l x c :
  models m σ → σ !! l = Some (x :: c) →
  ∃ m', PopFront l m = Ok tt m' ∧ models m' (<[l := c]> σ).
Proof.
  intros Hm Hc.
  destruct (EraseAfter_spec m σ l (x :: c) 0 l Hm Hc eq_refl) as (m' & Hrun & Hm').
  { simpl. lia. }
  exists m'. split; [|exact Hm'].
  destruct Hm as (_ & Hl & _). pose proof (Hl _ _ Hc) as Hlist.
  pose proof (is_list_NoDup _ _ _ Hlist) as Hnd.
  destruct Hlist as [(hd & Hhd & Hseg) Hsz]. destruct x as [e ve].
  simpl in Hseg. destruct Hseg as (Hnx & nx & He & _).
  assert (l ≠ e) as Hne.
  { intros ->. apply NoDup_cons in Hnd as [Hnd _]. apply Hnd. simpl. left. }
  rewrite (EraseAfter_exec _ _ _ _ _ _ _ Hhd Hnx He Hne Hsz) in Hrun.
  rewrite (PopFront_exec _ _ _ _ _ _ Hhd Hnx He Hne Hsz).
  by injection Hrun as _ <-.
Qed.


Lemma ctor_default_spec m σ :
  models m σ →
  let l := fresh (dom (nodes m)) in
  ∃ m', ctor_default m = Ok l m' ∧ models m' (<[l := []]> σ) ∧ σ !! l = None
        ∧ nodes m !! l = None.
Proof.
  intros Hm l. pose proof (fresh_nodes m) as Hfr. fold l in Hfr.
  destruct (models_fresh _ _ _ Hm Hfr) as [Hnone Hnot].
  eexists. split; [reflexivity|]. fold l. clearbody l.
  split; [|done].
  pose proof Hm as (Hd & Hl & Hdisj & Hobj).
  split; [|split; [|split]]; cbn [nodes size_].
  - by rewrite !dom_insert_L, Hd.
  - intros l2 c2 H2. destruct (decide (l2 = l)) as [->|Hne].
    + rewrite lookup_insert_eq in H2. injection H2 as <-.
      split; cbn [nodes size_]; [|by rewrite lookup_insert_eq].
      eexists. split; [by rewrite lookup_insert_eq|done].
    + rewrite lookup_insert_ne in H2 by done.
      eapply is_list_frame; [by apply Hl| |]; cbn [nodes size_].
      * intros a Ha. rewrite lookup_insert_ne; [done|]. intros <-.
        by eapply Hnot.
      * by rewrite lookup_insert_ne.
  - intros l1 l2 c1 c2 a H1 H2 Ha1 Ha2.
    destruct (decide (l1 = l)) as [->|Hne1].
    { rewrite lookup_insert_eq in H1. injection H1 as <-. inversion Ha1. }
    destruct (decide (l2 = l)) as [->|Hne2].
    { rewrite lookup_insert_eq in H2. injection H2 as <-. inversion Ha2. }
    rewrite lookup_insert_ne in H1, H2 by done. eauto.
  - intros l1 c1 a H1 Ha.
    destruct (decide (l1 = l)) as [->|Hne1].
    { rewrite lookup_insert_eq in H1. injection H1 as <-. inversion Ha. }
    rewrite lookup_insert_ne in H1 by done.
    rewrite lookup_insert_ne; [eauto|]. intros <-.
    eapply Hnot; [exact H1|]. by right.
Qed.

Lemma iter_assign_exec m p n v :
  nodes m !! p = Some n →
  iter_assign (mkIter (Some p)) v m =
  Ok tt (Mem (<[p := mkNode v (next_node n)]> (nodes m)) (size_ m)).
Proof. intros Hp. exec_unfold. destruct NDEBUG; simpl; by rewrite Hp. Qed.

Lemma iter_assign_spec m σ l c i p vp v :
  models m σ → σ !! l = Some c → c !! i = Some (p, vp) →
  ∃ m', iter_assign (mkIter (Some p)) v m = Ok tt m'
        ∧ models m' (<[l := <[i := (p, v)]> c]> σ).
Proof.
  intros Hm Hc Hi.
  pose proof Hm as (_ & Hl & _). pose proof (Hl _ _ Hc) as Hlist.
  pose proof (is_list_NoDup _ _ _ Hlist) as Hnd.
  destruct Hlist as [(hd & Hhd & Hseg) Hsz].
  assert (p ∈ c.*1) as Hpin.
  { apply list_elem_of_lookup. exists i. by rewrite list_lookup_fmap, Hi. }
  assert (l ≠ p) as Hlp.
  { intros ->. by apply NoDup_cons in Hnd as [Hnd _]. }
  rewrite <- (take_drop_middle _ _ _ Hi) in Hseg.
  apply lseg_split in Hseg as (nx & Hp & Hpre & Hsuf & Hn1 & Hn2).
  eexists. split; [by apply (iter_assign_exec _ _ _ _ Hp)|].
  eapply (models_update _ _ _ _ _ _ [p]); eauto; cbn [nodes size_].
  - split; cbn [nodes size_].
    + exists hd. split; [by rewrite lookup_insert_ne|].
      rewrite insert_take_drop by (by eapply lookup_lt_Some).
      apply lseg_app. exists (Some p). split.
      * eapply lseg_frame; [|exact Hpre]. intros b Hb.
        rewrite lookup_insert_ne; [done|]. by intros <-.
      * simpl. split; [done|]. exists nx. split; [by rewrite lookup_insert_eq|].
        eapply lseg_frame; [|exact Hsuf]. intros b Hb.
        rewrite lookup_insert_ne; [done|]. by intros <-.
    + by rewrite length_insert.
  - intros b Hb. left. rewrite list_fmap_insert in Hb. simpl in Hb.
    rewrite list_insert_id in Hb; [done|]. by rewrite list_lookup_fmap, Hi.
  - intros b Hb. rewrite lookup_insert_ne; [done|]. intros <-. apply Hb. left.
  - intros b [->|[]%elem_of_nil]%elem_of_cons. left. by right.
Qed.


Lemma swap_exec m l1 l2 n1 n2 s1 s2 :
  l1 ≠ l2 →
  nodes m !! l1 = Some n1 → nodes m !! l2 = Some n2 →
  size_ m !! l1 = Some s1 → size_ m !! l2 = Some s2 →
  swap l1 l2 m =
  Ok tt (Mem (<[l2 := mkNode (value n2) (next_node n1)]>
                (<[l1 := mkNode (value n1) (next_node n2)]> (nodes m)))
             (<[l2 := s1]> (<[l1 := s2]> (size_ m)))).
Proof.
  intros Hne H1 H2 Hs1 Hs2. exec_unfold.
  repeat progress (rewrite ?H1, ?H2; simpl); simplify_map_eq; done.
Qed.

Lemma swap_self m l n s :
  nodes m !! l = Some n → size_ m !! l = Some s → swap l l m = Ok tt m.
Proof.
  intros H1 Hs. exec_unfold.
  repeat progress (rewrite ?H1; simpl); simplify_map_eq.
  f_equal. destruct m as [h sz]. simpl in *. f_equal.
  - rewrite insert_insert_eq. apply insert_id. by destruct n.
  - rewrite insert_insert_eq. by apply insert_id.
Qed.

Lemma swap_spec m σ l1 l2 c1 c2 :
  models m σ → σ !! l1 = Some c1 → σ !! l2 = Some c2 →
  ∃ m', swap l1 l2 m = Ok tt m'
        ∧ models m' (<[l1 := c2]> (<[l2 := c1]> σ)).
Proof.
  intros Hm H1 H2.
  pose proof Hm as (Hd & Hl & Hdisj & Hobj).
  destruct (Hl _ _ H1) as [(n1 & Hn1 & Hseg1) Hs1].
  destruct (Hl _ _ H2) as [(n2 & Hn2 & Hseg2) Hs2].
  destruct (decide (l1 = l2)) as [->|Hne].
  { exists m. split; [by eapply swap_self|].
    rewrite H1 in H2. injection H2 as <-.
    rewrite insert_insert_eq, insert_id; done. }
  eexists. split; [by apply swap_exec|].
  assert (Hsent : ∀ l c a, σ !! l = Some c → a ∈ c.*1 → a ≠ l1 ∧ a ≠ l2).
  { intros l c a Hc Ha. specialize (Hobj _ _ _ Hc Ha). split; congruence. }
  split; [|split; [|split]]; cbn [nodes size_].
  - rewrite !dom_insert_L, <- Hd.
    apply set_eq. intros x. rewrite !elem_of_union, !elem_of_singleton.
    split; intros [?|[?|?]]; auto.
  - intros l c Hc.
    assert (Hframe : ∀ c', (∃ l', σ !! l' = Some c') → ∀ b, b ∈ c'.*1 →
       <[l2 := mkNode (value n2) (next_node n1)]>
         (<[l1 := mkNode (value n1) (next_node n2)]> (nodes m)) !! b
       = nodes m !! b).
    { intros c' [l' Hc'] b Hb. destruct (Hsent _ _ _ Hc' Hb).
      by rewrite !lookup_insert_ne. }
    destruct (decide (l = l1)) as [->|Hne1].
    { rewrite lookup_insert_eq in Hc. injection Hc as <-.
      split; cbn [nodes size_].
      - eexists. split.
        + rewrite lookup_insert_ne by done. by rewrite lookup_insert_eq.
        + simpl. eapply lseg_frame; [|exact Hseg2]. eauto.
      - rewrite lookup_insert_ne by done. by rewrite lookup_insert_eq. }
    rewrite lookup_insert_ne in Hc by done.
    destruct (decide (l = l2)) as [->|Hne2].
    { rewrite lookup_insert_eq in Hc. injection Hc as <-.
      split; cbn [nodes size_].
      - eexists. split; [by rewrite lookup_insert_eq|].
        simpl. eapply lseg_frame; [|exact Hseg1]. eauto.
      - by rewrite lookup_insert_eq. }
    rewrite lookup_insert_ne in Hc by done.
    eapply is_list_frame; [by apply Hl| |]; cbn [nodes size_].
    + intros b [->|Hb]%elem_of_cons; [by rewrite !lookup_insert_ne|eauto].
    + by rewrite !lookup_insert_ne.
  - intros la lb ca cb a Ha Hb Hina Hinb.
    assert (Hown : ∀ l c, <[l1 := c2]> (<[l2 := c1]> σ) !! l = Some c →
              ∃ l', σ !! l' = Some c
                    ∧ l = (if decide (l' = l1) then l2
                           else if decide (l' = l2) then l1 else l')).
    { intros l c Hc. destruct (decide (l = l1)) as [->|E1].
      - rewrite lookup_insert_eq in Hc. injection Hc as <-. exists l2.
        split; [done|]. repeat case_decide; congruence.
      - rewrite lookup_insert_ne in Hc by done.
        destruct (decide (l = l2)) as [->|E2].
        + rewrite lookup_insert_eq in Hc. injection Hc as <-. exists l1.
          split; [done|]. repeat case_decide; congruence.
        + rewrite lookup_insert_ne in Hc by done. exists l.
          split; [done|]. repeat case_decide; congruence. }
    destruct (Hown _ _ Ha) as (la' & Ha' & ->).
    destruct (Hown _ _ Hb) as (lb' & Hb' & ->).
    by rewrite (Hdisj _ _ _ _ _ Ha' Hb' Hina Hinb).
  - intros l c a Hc Ha.
    assert (∃ l', σ !! l' = Some c) as [l' Hc'].
    { destruct (decide (l = l1)) as [->|E1].
      - rewrite lookup_insert_eq in Hc. injection Hc as <-. eauto.
      - rewrite lookup_insert_ne in Hc by done.
        destruct (decide (l = l2)) as [->|E2].
        + rewrite lookup_insert_eq in Hc. injection Hc as <-. eauto.
        + rewrite lookup_insert_ne in Hc by done. eauto. }
    destruct (Hsent _ _ _ Hc' Ha).
    rewrite !lookup_insert_ne by done. eauto.
Qed.


(** The loop of [Clear] frees the whole chain and leaves the sentinel
    pointing nowhere; it needs one round per node and one more to see the
    null pointer. *)
Lemma Clear_loop_spec l c : ∀ fuel m hd,
  nodes m !! l = Some hd → lseg (nodes m) (next_node hd) c None →
  l ∉ c.*1 → (length c < fuel)%nat →
  ∃ m', Clear_loop fuel l m = Ok tt m'
        ∧ size_ m' = size_ m
        ∧ nodes m' !! l = Some (mkNode (value hd) None)
        ∧ (∀ b, b ≠ l → b ∉ c.*1 → nodes m' !! b = nodes m !! b)
        ∧ (∀ b, b ∈ c.*1 → nodes m' !! b = None).
Proof.
  induction c as [|[e ve] c IH]; intros fuel m hd Hhd Hseg Hl Hfuel;
    (destruct fuel as [|fuel]; [simpl in Hfuel; lia|]).
  - simpl in Hseg. exists m. split.
    { simpl. exec_unfold. rewrite Hhd. simpl. by rewrite Hseg. }
    repeat split; try done.
    + rewrite Hhd. destruct hd; simpl in *; by subst.
    + intros b Hb. inversion Hb.
  - pose proof (lseg_NoDup _ _ _ Hseg) as Hnd. simpl in Hnd.
    apply NoDup_cons in Hnd as [Hec _].
    simpl in Hseg. destruct Hseg as (Hnx & nx & He & Hseg).
    assert (l ≠ e) as Hle by (intros ->; apply Hl; simpl; left).
    assert (l ∉ c.*1) as Hl' by (intros ?; apply Hl; simpl; by right).
    set (m1 := Mem (delete e (<[l := mkNode (value hd) nx]> (nodes m))) (size_ m)).
    destruct (IH fuel m1 (mkNode (value hd) nx)) as (m' & Hrun & Hsz & Hl2 & Hkeep & Hgone).
    { simpl. rewrite lookup_delete_ne by done. by rewrite lookup_insert_eq. }
    { simpl. eapply lseg_frame; [|exact Hseg]. intros b Hb.
      rewrite lookup_delete_ne, lookup_insert_ne; [done|..]; by intros <-. }
    { done. }
    { simpl in Hfuel. lia. }
    exists m'. split.
    { simpl. exec_unfold. rewrite Hhd. simpl. rewrite Hnx, He. simpl.
      rewrite Hhd. simpl. rewrite lookup_insert_ne, He by done. exact Hrun. }
    split; [done|]. split; [done|]. split.
    + intros b Hb1 Hb2. rewrite Hkeep; [|done|].
      * simpl. rewrite lookup_delete_ne, lookup_insert_ne; [done|done|].
        intros <-. apply Hb2. simpl. left.
      * intros ?. apply Hb2. simpl. by right.
    + intros b [->|Hb]%elem_of_cons; [|by apply Hgone].
      rewrite Hkeep by done. simpl. by rewrite lookup_delete_eq.
Qed.

Lemma Clear_spec m σ l c :
  models m σ → σ !! l = Some c →
  ∃ m', Clear l m = Ok tt m' ∧ models m' (<[l := []]> σ)
        ∧ (∀ b, b ∈ c.*1 → nodes m' !! b = None).
Proof.
  intros Hm Hc. pose proof Hm as (_ & Hl & _). pose proof (Hl _ _ Hc) as Hlist.
  pose proof (is_list_NoDup _ _ _ Hlist) as Hnd.
  apply NoDup_cons in Hnd as [Hlc _].
  destruct Hlist as [(hd & Hhd & Hseg) Hsz].
  destruct (Clear_loop_spec l c (S (size (nodes m))) m hd Hhd Hseg Hlc)
    as (m1 & Hrun & Hsz1 & Hl1 & Hkeep & Hgone).
  { pose proof (lseg_length _ _ _ Hseg). lia. }
  exists (Mem (nodes m1) (<[l := 0]> (size_ m1))). split.
  { unfold Clear, bind. rewrite Hrun. unfold set_size. by rewrite Hsz1, Hsz. }
  split; [|exact Hgone].
  eapply (models_update _ _ _ _ _ _ (l :: c.*1)); eauto; cbn [nodes size_].
  - split; cbn [nodes size_]; [|by rewrite lookup_insert_eq].
    eexists. split; [exact Hl1|done].
  - intros b Hb. inversion Hb.
  - intros b Hb. apply Hkeep; intros ?; apply Hb; [subst; left|by right].
  - intros l' Hne. rewrite lookup_insert_ne by done. by rewrite Hsz1.
  - rewrite dom_insert_L, Hsz1. apply subseteq_union_1_L, singleton_subseteq_l.
    apply elem_of_dom. eauto.
Qed.

(** Releasing the storage of an empty list. *)
Lemma models_dealloc m σ l :
  models m σ → σ !! l = Some [] →
  models (Mem (delete l (nodes m)) (delete l (size_ m))) (delete l σ).
Proof.
  intros Hm Hc. pose proof Hm as (Hd & Hl & Hdisj & Hobj).
  split; [|split; [|split]]; cbn [nodes size_].
  - by rewrite !dom_delete_L, Hd.
  - intros l2 c2 H2. apply lookup_delete_Some in H2 as [Hne H2].
    eapply is_list_frame; [by apply Hl| |]; cbn [nodes size_].
    + intros a Ha. rewrite lookup_delete_ne; [done|]. intros <-.
      eapply (models_disjoint _ _ l l2); eauto. left.
    + by rewrite lookup_delete_ne.
  - intros l1 l2 c1 c2 a [_ H1]%lookup_delete_Some [_ H2]%lookup_delete_Some.
    eauto.
  - intros l1 c1 a [_ H1]%lookup_delete_Some Ha.
    apply lookup_delete_None. right. eauto.
Qed.

Lemma dtor_spec m σ l c :
  models m σ → σ !! l = Some c →
  ∃ m', dtor l m = Ok tt m' ∧ models m' (delete l σ)
        ∧ (∀ b, b ∈ l :: c.*1 → nodes m' !! b = None).
Proof.
  intros Hm Hc.
  destruct (Clear_spec _ _ _ _ Hm Hc) as (m1 & Hrun & Hm1 & Hgone).
  assert (<[l := []]> σ !! l = Some []) as Hc1 by apply lookup_insert_eq.
  destruct (models_nodes_dom _ _ _ _ Hm1 Hc1) as [hd Hhd].
  eexists. split.
  { unfold dtor, bind. rewrite Hrun, Hhd. reflexivity. }
  split.
  - rewrite <- (delete_insert_eq σ l []). by apply models_dealloc.
  - cbn [nodes]. intros b [->|Hb]%elem_of_cons.
    + apply lookup_delete_eq.
    + apply lookup_delete_None. right. by apply Hgone.
Qed.


(** ** What a list looks like to a reader of memory *)

Lemma is_list_head m l c :
  is_list m l c → ∃ v0, nodes m !! l = Some (mkNode v0 (c.*1 !! 0%nat)).
Proof.
  intros [(hd & Hhd & Hseg) _]. destruct hd as [v0 nx]. exists v0.
  simpl in Hseg. by rewrite <- (lseg_head _ _ _ Hseg).
Qed.

Lemma is_list_cell m l c j e ve :
  is_list m l c → c !! j = Some (e, ve) →
  nodes m !! e = Some (mkNode ve (c.*1 !! S j)).
Proof.
  intros Hlist Hj.
  destruct (is_list_position m l c (S j) e Hlist)
    as (v0 & vp & nx & Hfi & Hp & _ & Hsuf & _).
  { simpl. by rewrite list_lookup_fmap, Hj. }
  simpl in Hfi. rewrite Hj in Hfi. injection Hfi as <-.
  apply lseg_head in Hsuf. rewrite fmap_drop, lookup_drop, Nat.add_0_r in Hsuf.
  by rewrite Hp, Hsuf.
Qed.

Lemma is_list_last m l c node :
  is_list m l c → (l :: c.*1) !! length c = Some node →
  ∃ v, nodes m !! node = Some (mkNode v None).
Proof.
  intros Hlist Hi.
  destruct (is_list_position m l c (length c) node Hlist Hi)
    as (v0 & vp & nx & _ & Hp & _ & Hsuf & _).
  rewrite drop_all in Hsuf. simpl in Hsuf. subst nx. eauto.
Qed.

(** ** The loops of [Initialize] *)

(** One round of the loop appends a node behind [node], the last cell of
    the chain under construction: the same memory as [InsertAfter] there. *)
Lemma append_exec {A} m temp node vn v sz (k : loc → M A) :
  nodes m !! node = Some (mkNode vn None) → size_ m !! temp = Some sz →
  ∃ m1, InsertAfter temp (mkIter (Some node)) v m
          = Ok (mkIter (Some (fresh (dom (nodes m))))) m1
        ∧ (n <- new_Node v None ;; set_next node (Some n) ;;; incr_size temp ;;; k n) m
          = k (fresh (dom (nodes m))) m1.
Proof.
  intros Hn Hs. eexists. split; [by apply (InsertAfter_exec _ _ _ _ _ _ Hn Hs)|].
  pose proof (fresh_nodes m) as Hfr.
  exec_unfold. rewrite lookup_insert_ne by congruence. rewrite Hn. simpl.
  rewrite Hs. simpl. by rewrite Hs.
Qed.

Lemma Initialize_loop_il_spec temp elems : ∀ m σ built node,
  models m σ → σ !! temp = Some built →
  (temp :: built.*1) !! length built = Some node →
  ∃ m' new, Initialize_loop_il temp node elems m = Ok tt m'
            ∧ models m' (<[temp := built ++ new]> σ)
            ∧ new.*2 = elems.
Proof using NDEBUG.
  induction elems as [|v rest IH]; intros m σ built node Hm Hb Hnode.
  - exists m, []. split; [done|]. split; [|done].
    by rewrite app_nil_r, insert_id.
  - pose proof Hm as (_ & Hl & _). pose proof (Hl _ _ Hb) as Hlist.
    destruct (is_list_last _ _ _ _ Hlist Hnode) as [vn Hn].
    destruct Hlist as [_ Hsz].
    destruct (append_exec m temp node vn v _ (λ n, Initialize_loop_il temp n rest) Hn Hsz)
      as (m1 & Hins & Hrun).
    destruct (InsertAfter_spec m σ temp built (length built) node v Hm Hb Hnode)
      as (m1' & Hins' & Hm1).
    rewrite Hins in Hins'. injection Hins' as <-.
    rewrite take_ge, drop_all in Hm1 by lia.
    set (a := fresh (dom (nodes m))) in *.
    destruct (IH m1 _ (built ++ [(a, v)]) a Hm1) as (m' & new & Hrun' & Hm' & Hnew).
    { apply lookup_insert_eq. }
    { rewrite fmap_app, length_app. simpl.
      rewrite lookup_cons_ne_0 by lia.
      replace (Nat.pred (length built + 1)) with (length built.*1 + 0)%nat
        by (rewrite length_fmap; lia).
      by rewrite lookup_app_r, Nat.add_comm, Nat.add_sub by lia. }
    exists m', ((a, v) :: new). split; [|split].
    + simpl. rewrite <- Hrun'. exact Hrun.
    + rewrite insert_insert_eq, <- app_assoc in Hm'. exact Hm'.
    + by rewrite fmap_cons, Hnew.
Qed.


(** The end of [Initialize]: swap the finished temporary in and destroy
    what the list held before. *)
Lemma commit_temp m σ l temp c new :
  models m σ → σ !! l = Some c → σ !! temp = Some new → l ≠ temp →
  ∃ m', (swap l temp ;;; dtor temp) m = Ok tt m'
        ∧ models m' (<[l := new]> (delete temp σ))
        ∧ (∀ b, b ∈ temp :: c.*1 → nodes m' !! b = None).
Proof.
  intros Hm Hl Ht Hne.
  destruct (swap_spec _ _ _ _ _ _ Hm Hl Ht) as (m1 & Hswap & Hm1).
  destruct (dtor_spec m1 _ temp c Hm1) as (m2 & Hdtor & Hm2 & Hgone).
  { rewrite lookup_insert_ne by done. apply lookup_insert_eq. }
  exists m2. split; [unfold bind; by rewrite Hswap|]. split; [|done].
  rewrite delete_insert_ne, delete_insert_eq in Hm2 by done. exact Hm2.
Qed.

Lemma Initialize_il_spec m σ l c elems :
  models m σ → σ !! l = Some c →
  ∃ m' c', Initialize_il l elems m = Ok tt m'
           ∧ models m' (<[l := c']> σ) ∧ c'.*2 = elems.
Proof using NDEBUG.
  intros Hm Hc.
  destruct (ctor_default_spec _ _ Hm) as (m1 & Hctor & Hm1 & Hfresh & _).
  set (temp := fresh (dom (nodes m))) in *.
  assert (l ≠ temp) as Hne by congruence.
  destruct (Initialize_loop_il_spec temp elems m1 _ [] temp Hm1)
    as (m2 & new & Hloop & Hm2 & Hnew).
  { apply lookup_insert_eq. }
  { done. }
  simpl in Hm2. rewrite insert_insert_eq in Hm2.
  destruct (commit_temp m2 _ l temp c new Hm2) as (m3 & Hcommit & Hm3 & _).
  { by rewrite lookup_insert_ne. }
  { apply lookup_insert_eq. }
  { done. }
  rewrite delete_insert_eq, delete_id in Hm3 by done.
  exists m3, new. split; [|done].
  unfold Initialize_il, bind. rewrite Hctor, Hloop.
  unfold bind in Hcommit. exact Hcommit.
Qed.

(** Reading through an iterator that stands on a cell of a list. *)
Lemma iter_deref_cell m l c j e ve :
  is_list m l c → c !! j = Some (e, ve) →
  iter_deref (mkIter (Some e)) m = Ok ve m.
Proof.
  intros Hlist Hj. pose proof (is_list_cell _ _ _ _ _ _ Hlist Hj) as He.
  exec_unfold. destruct NDEBUG; simpl; by rewrite He.
Qed.

Lemma iter_incr_cell m l c j e ve :
  is_list m l c → c !! j = Some (e, ve) →
  iter_incr (mkIter (Some e)) m = Ok (mkIter (c.*1 !! S j)) m.
Proof.
  intros Hlist Hj. pose proof (is_list_cell _ _ _ _ _ _ Hlist Hj) as He.
  exec_unfold. destruct NDEBUG; simpl; by rewrite He.
Qed.

Lemma cbegin_list m l c :
  is_list m l c → cbegin l m = Ok (mkIter (c.*1 !! 0%nat)) m.
Proof.
  intros [v0 Hhd]%is_list_head. exec_unfold. by rewrite Hhd.
Qed.

Lemma lookup_fst_Some (c : list (loc * T)) j e :
  c.*1 !! j = Some e → ∃ ve, c !! j = Some (e, ve).
Proof.
  rewrite list_lookup_fmap. destruct (c !! j) as [[e' ve]|]; [|done].
  simpl. intros [= ->]. eauto.
Qed.

Lemma Initialize_loop_copy_spec temp other co : ∀ fuel m σ built node j,
  models m σ → σ !! temp = Some built → σ !! other = Some co →
  temp ≠ other →
  (temp :: built.*1) !! length built = Some node →
  (length co - j < fuel)%nat →
  ∃ m' new,
    Initialize_loop_copy fuel temp node (mkIter (co.*1 !! j)) m = Ok tt m'
    ∧ models m' (<[temp := built ++ new]> σ)
    ∧ new.*2 = (drop j co).*2.
Proof.
  induction fuel as [|fuel IH]; intros m σ built node j Hm Hb Ho Hne Hnode Hfuel;
    [lia|].
  simpl. unfold iter_ne, iter_eq, cend, end_. simpl.
  destruct (co.*1 !! j) as [e|] eqn:Hj.
  - rewrite bool_decide_eq_false_2 by done. simpl.
    destruct (lookup_fst_Some _ _ _ Hj) as [ve Hcj].
    pose proof (lookup_lt_Some _ _ _ Hcj) as Hlt.
    pose proof Hm as (_ & Hl & _).
    unfold bind at 1. rewrite (iter_deref_cell _ _ _ _ _ _ (Hl _ _ Ho) Hcj).
    pose proof (Hl _ _ Hb) as Hlist.
    destruct (is_list_last _ _ _ _ Hlist Hnode) as [vn Hn].
    destruct Hlist as [_ Hsz].
    destruct (append_exec m temp node vn ve _
                (λ n, it' <- iter_incr (mkIter (Some e)) ;;
                      Initialize_loop_copy fuel temp n it') Hn Hsz)
      as (m1 & Hins & Hrun).
    destruct (InsertAfter_spec m σ temp built (length built) node ve Hm Hb Hnode)
      as (m1' & Hins' & Hm1).
    rewrite Hins in Hins'. injection Hins' as <-.
    rewrite take_ge, drop_all in Hm1 by lia.
    set (a := fresh (dom (nodes m))) in *.
    assert (<[temp := built ++ [(a, ve)]]> σ !! other = Some co) as Ho1
      by (by rewrite lookup_insert_ne).
    destruct (IH m1 _ (built ++ [(a, ve)]) a (S j) Hm1) as (m' & new & Hrun' & Hm' & Hnew);
      try done.
    { apply lookup_insert_eq. }
    { rewrite fmap_app, length_app. simpl.
      rewrite lookup_cons_ne_0 by lia.
      replace (Nat.pred (length built + 1)) with (length built.*1 + 0)%nat
        by (rewrite length_fmap; lia).
      by rewrite lookup_app_r, Nat.add_comm, Nat.add_sub by lia. }
    { lia. }
    exists m', ((a, ve) :: new). split; [|split].
    + rewrite Hrun. unfold bind at 1.
      pose proof Hm1 as (_ & Hl1 & _).
      rewrite (iter_incr_cell _ _ _ _ _ _ (Hl1 _ _ Ho1) Hcj). exact Hrun'.
    + rewrite insert_insert_eq, <- app_assoc in Hm'. exact Hm'.
    + rewrite fmap_cons, Hnew, (drop_S _ _ _ Hcj). done.
  - rewrite bool_decide_eq_true_2 by done. simpl.
    exists m, []. split; [done|]. split.
    + by rewrite app_nil_r, insert_id.
    + rewrite drop_ge; [done|]. apply lookup_ge_None in Hj.
      by rewrite length_fmap in Hj.
Qed.


Lemma is_list_length m l c : is_list m l c → (length c ≤ size (nodes m))%nat.
Proof. intros [(hd & _ & Hseg) _]. by eapply lseg_length. Qed.

Lemma Initialize_copy_spec m σ l other c co :
  models m σ → σ !! l = Some c → σ !! other = Some co →
  ∃ m' c', Initialize_copy l other m = Ok tt m'
           ∧ models m' (<[l := c']> σ) ∧ c'.*2 = co.*2.
Proof.
  intros Hm Hc Ho.
  destruct (ctor_default_spec _ _ Hm) as (m1 & Hctor & Hm1 & Hfresh & _).
  set (temp := fresh (dom (nodes m))) in *.
  assert (l ≠ temp) as Hne by congruence.
  assert (temp ≠ other) as Hne' by congruence.
  assert (<[temp := []]> σ !! other = Some co) as Ho1 by (by rewrite lookup_insert_ne).
  pose proof Hm1 as (_ & Hl1 & _).
  destruct (Initialize_loop_copy_spec temp other co (S (size (nodes m1))) m1 _ [] temp 0
              Hm1) as (m2 & new & Hloop & Hm2 & Hnew); try done.
  { apply lookup_insert_eq. }
  { pose proof (is_list_length _ _ _ (Hl1 _ _ Ho1)). lia. }
  simpl in Hm2. rewrite insert_insert_eq in Hm2. rewrite drop_0 in Hnew.
  destruct (commit_temp m2 _ l temp c new Hm2) as (m3 & Hcommit & Hm3 & _).
  { by rewrite lookup_insert_ne. }
  { apply lookup_insert_eq. }
  { done. }
  rewrite delete_insert_eq, delete_id in Hm3 by done.
  exists m3, new. split; [|done].
  unfold Initialize_copy, bind. rewrite Hctor.
  rewrite (cbegin_list _ _ _ (Hl1 _ _ Ho1)), Hloop.
  unfold bind in Hcommit. exact Hcommit.
Qed.

Lemma ctor_il_spec m σ elems :
  models m σ →
  let l := fresh (dom (nodes m)) in
  ∃ m' c, ctor_il elems m = Ok l m' ∧ models m' (<[l := c]> σ)
          ∧ c.*2 = elems ∧ σ !! l = None.
Proof using NDEBUG.
  intros Hm l.
  destruct (ctor_default_spec _ _ Hm) as (m1 & Hctor & Hm1 & Hfresh & _).
  fold l in Hctor, Hm1, Hfresh.
  destruct (Initialize_il_spec m1 _ l [] elems Hm1) as (m2 & c & Hinit & Hm2 & Hc).
  { apply lookup_insert_eq. }
  rewrite insert_insert_eq in Hm2.
  exists m2, c. split; [|done].
  unfold ctor_il, bind. by rewrite Hctor, Hinit.
Qed.

Lemma ctor_copy_spec m σ other co :
  models m σ → σ !! other = Some co →
  let l := fresh (dom (nodes m)) in
  ∃ m' c, ctor_copy other m = Ok l m' ∧ models m' (<[l := c]> σ)
          ∧ c.*2 = co.*2 ∧ σ !! l = None.
Proof.
  intros Hm Ho l.
  destruct (ctor_default_spec _ _ Hm) as (m1 & Hctor & Hm1 & Hfresh & _).
  fold l in Hctor, Hm1, Hfresh.
  destruct (Initialize_copy_spec m1 _ l other [] co Hm1) as (m2 & c & Hinit & Hm2 & Hc).
  { apply lookup_insert_eq. }
  { rewrite lookup_insert_ne; [done|]. congruence. }
  rewrite insert_insert_eq in Hm2.
  exists m2, c. split; [|done].
  unfold ctor_copy, bind. by rewrite Hctor, Hinit.
Qed.

Lemma copy_assign_spec m σ l other c co :
  models m σ → σ !! l = Some c → σ !! other = Some co → l ≠ other →
  ∃ m' c', copy_assign l other m = Ok l m'
           ∧ models m' (<[l := c']> σ) ∧ c'.*2 = co.*2.
Proof.
  intros Hm Hc Ho Hne.
  destruct (Initialize_copy_spec m σ l other c co Hm Hc Ho) as (m' & c' & Hinit & Hm' & Hc').
  exists m', c'. split; [|done].
  unfold copy_assign, bind. rewrite bool_decide_eq_true_2 by done. by rewrite Hinit.
Qed.

Lemma copy_assign_self m l : copy_assign l l m = Ok l m.
Proof. unfold copy_assign, bind. by rewrite bool_decide_eq_false_2 by auto. Qed.

Lemma ctor_move_spec m σ other co :
  models m σ → σ !! other = Some co →
  let l := fresh (dom (nodes m)) in
  ∃ m', ctor_move other m = Ok l m'
        ∧ models m' (<[l := co]> (<[other := []]> σ)) ∧ σ !! l = None.
Proof.
  intros Hm Ho l.
  destruct (ctor_default_spec _ _ Hm) as (m1 & Hctor & Hm1 & Hfresh & _).
  fold l in Hctor, Hm1, Hfresh.
  assert (l ≠ other) as Hne by congruence.
  destruct (swap_spec m1 _ l other [] co Hm1) as (m2 & Hswap & Hm2).
  { apply lookup_insert_eq. }
  { by rewrite lookup_insert_ne. }
  exists m2. split; [|split; [|done]].
  - unfold ctor_move, bind. by rewrite Hctor, Hswap.
  - rewrite (insert_insert_ne _ other l) in Hm2 by done.
    rewrite insert_insert_eq in Hm2. exact Hm2.
Qed.

Lemma move_assign_exec m this other : move_assign this other m = Ok other m.
Proof.
  unfold move_assign, ret. case_bool_decide as E; [done|].
  f_equal. by destruct (decide (this = other)).
Qed.


(** ** Reading a list: traversal, size, comparisons *)

Lemma traverse_loop_spec m l c : ∀ fuel j,
  is_list m l c → (length c - j < fuel)%nat →
  traverse_loop fuel (mkIter (c.*1 !! j)) m = Ok (drop j c) m.
Proof.
  induction fuel as [|fuel IH]; intros j Hlist Hfuel; [lia|].
  simpl. unfold iter_ne, iter_eq, cend, end_. simpl.
  destruct (c.*1 !! j) as [e|] eqn:Hj.
  - rewrite bool_decide_eq_false_2 by done. simpl.
    destruct (lookup_fst_Some _ _ _ Hj) as [ve Hcj].
    pose proof (lookup_lt_Some _ _ _ Hcj) as Hlt.
    unfold bind at 1. rewrite (iter_deref_cell _ _ _ _ _ _ Hlist Hcj).
    unfold bind at 1. simpl.
    unfold bind at 1. rewrite (iter_incr_cell _ _ _ _ _ _ Hlist Hcj).
    unfold bind. rewrite IH by (done || lia).
    by rewrite (drop_S _ _ _ Hcj).
  - rewrite bool_decide_eq_true_2 by done. simpl.
    rewrite drop_ge; [done|]. apply lookup_ge_None in Hj.
    by rewrite length_fmap in Hj.
Qed.

Lemma traverse_spec m l c : is_list m l c → traverse l m = Ok c m.
Proof.
  intros Hlist. unfold traverse, bind. rewrite (cbegin_list _ _ _ Hlist).
  rewrite (traverse_loop_spec m l c) by
    (done || (pose proof (is_list_length _ _ _ Hlist); lia)).
  by rewrite drop_0.
Qed.

Lemma GetSize_spec m l c :
  is_list m l c → GetSize l m = Ok (to_int (to_size_t (Z.of_nat (length c)))) m.
Proof. intros [_ Hsz]. exec_unfold. by rewrite Hsz. Qed.

Lemma IsEmpty_spec m l c :
  is_list m l c → IsEmpty l m = Ok (bool_decide (c = [])) m.
Proof.
  intros [v0 Hhd]%is_list_head. exec_unfold. rewrite Hhd. simpl.
  destruct c as [|[a v] c]; done.
Qed.

Lemma std_equal_spec m l1 l2 c1 c2 : ∀ fuel j,
  is_list m l1 c1 → is_list m l2 c2 → (length c1 - j < fuel)%nat →
  std_equal fuel (mkIter (c1.*1 !! j)) cend (mkIter (c2.*1 !! j)) cend m
  = Ok (seq_equalb (drop j c1).*2 (drop j c2).*2) m.
Proof.
  induction fuel as [|fuel IH]; intros j H1 H2 Hfuel; [lia|].
  simpl. unfold iter_ne, iter_eq, cend, end_. simpl.
  destruct (c1.*1 !! j) as [e1|] eqn:Hj1; destruct (c2.*1 !! j) as [e2|] eqn:Hj2;
    rewrite ?(bool_decide_eq_false_2 (Some _ = None)) by done;
    rewrite ?(bool_decide_eq_true_2 (None = None)) by done; simpl.
  - destruct (lookup_fst_Some _ _ _ Hj1) as [v1 Hc1].
    destruct (lookup_fst_Some _ _ _ Hj2) as [v2 Hc2].
    pose proof (lookup_lt_Some _ _ _ Hc1) as Hlt.
    unfold bind at 1. rewrite (iter_deref_cell _ _ _ _ _ _ H1 Hc1).
    unfold bind at 1. rewrite (iter_deref_cell _ _ _ _ _ _ H2 Hc2).
    rewrite (drop_S _ _ _ Hc1), (drop_S _ _ _ Hc2), !fmap_cons. simpl.
    destruct (eqT v1 v2); simpl; [|done].
    unfold bind at 1. rewrite (iter_incr_cell _ _ _ _ _ _ H1 Hc1).
    unfold bind at 1. rewrite (iter_incr_cell _ _ _ _ _ _ H2 Hc2).
    apply IH; (done || lia).
  - destruct (lookup_fst_Some _ _ _ Hj1) as [v1 Hc1].
    rewrite (drop_S _ _ _ Hc1), (drop_ge c2), fmap_cons; [done|].
    apply lookup_ge_None in Hj2. by rewrite length_fmap in Hj2.
  - destruct (lookup_fst_Some _ _ _ Hj2) as [v2 Hc2].
    rewrite (drop_S _ _ _ Hc2), (drop_ge c1), fmap_cons; [done|].
    apply lookup_ge_None in Hj1. by rewrite length_fmap in Hj1.
  - rewrite (drop_ge c1), (drop_ge c2); [done|..].
    + apply lookup_ge_None in Hj2. by rewrite length_fmap in Hj2.
    + apply lookup_ge_None in Hj1. by rewrite length_fmap in Hj1.
Qed.

Lemma std_lexicographical_compare_spec m l1 l2 c1 c2 : ∀ fuel j,
  is_list m l1 c1 → is_list m l2 c2 → (length c1 - j < fuel)%nat →
  std_lexicographical_compare fuel (mkIter (c1.*1 !! j)) cend
    (mkIter (c2.*1 !! j)) cend m
  = Ok (seq_lessb (drop j c1).*2 (drop j c2).*2) m.
Proof.
  induction fuel as [|fuel IH]; intros j H1 H2 Hfuel; [lia|].
  simpl. unfold iter_ne, iter_eq, cend, end_. simpl.
  destruct (c1.*1 !! j) as [e1|] eqn:Hj1; destruct (c2.*1 !! j) as [e2|] eqn:Hj2;
    rewrite ?(bool_decide_eq_false_2 (Some _ = None)) by done;
    rewrite ?(bool_decide_eq_true_2 (None = None)) by done; simpl.
  - destruct (lookup_fst_Some _ _ _ Hj1) as [v1 Hc1].
    destruct (lookup_fst_Some _ _ _ Hj2) as [v2 Hc2].
    pose proof (lookup_lt_Some _ _ _ Hc1) as Hlt.
    unfold bind at 1. rewrite (iter_deref_cell _ _ _ _ _ _ H1 Hc1).
    unfold bind at 1. rewrite (iter_deref_cell _ _ _ _ _ _ H2 Hc2).
    rewrite (drop_S _ _ _ Hc1), (drop_S _ _ _ Hc2), !fmap_cons. simpl.
    destruct (ltT v1 v2); simpl; [done|].
    destruct (ltT v2 v1); simpl; [done|].
    unfold bind at 1. rewrite (iter_incr_cell _ _ _ _ _ _ H1 Hc1).
    unfold bind at 1. rewrite (iter_incr_cell _ _ _ _ _ _ H2 Hc2).
    apply IH; (done || lia).
  - destruct (lookup_fst_Some _ _ _ Hj1) as [v1 Hc1].
    rewrite (drop_S _ _ _ Hc1), (drop_ge c2), fmap_cons; [done|].
    apply lookup_ge_None in Hj2. by rewrite length_fmap in Hj2.
  - destruct (lookup_fst_Some _ _ _ Hj2) as [v2 Hc2].
    rewrite (drop_S _ _ _ Hc2), (drop_ge c1), fmap_cons; [done|].
    apply lookup_ge_None in Hj1. by rewrite length_fmap in Hj1.
  - rewrite (drop_ge c1), (drop_ge c2); [done|..].
    + apply lookup_ge_None in Hj2. by rewrite length_fmap in Hj2.
    + apply lookup_ge_None in Hj1. by rewrite length_fmap in Hj1.
Qed.


Lemma seq_equalb_spec xs ys : seq_equalb xs ys = true ↔ seq_equal xs ys.
Proof.
  unfold seq_equal. revert ys. induction xs as [|x xs IH]; intros [|y ys]; simpl.
  - split; [intros _; split; [done|constructor]|done].
  - split; [done|intros [? _]; done].
  - split; [done|intros [? _]; done].
  - rewrite andb_true_iff, IH. split.
    + intros (Hxy & Hlen & Hall). split; [by f_equal|by constructor].
    + intros [Hlen Hall]. apply Forall2_cons in Hall as [Hxy Hall].
      split; [done|]. split; [by injection Hlen|done].
Qed.

Lemma seq_lessb_spec xs ys : seq_lessb xs ys = true ↔ seq_less xs ys.
Proof.
  revert ys. induction xs as [|x xs IH]; intros [|y ys]; simpl.
  - split; [done|intros H; inversion H].
  - split; [intros _; constructor|done].
  - split; [done|intros H; inversion H].
  - destruct (ltT x y) eqn:Hxy.
    { split; [intros _; by apply seq_less_here|done]. }
    destruct (ltT y x) eqn:Hyx.
    { split; [done|]. intros H. inversion H; subst; congruence. }
    rewrite IH. split.
    + intros H. by apply seq_less_later.
    + intros H. inversion H; subst; [congruence|done].
Qed.

Lemma seq_equalb_length xs ys : seq_equalb xs ys = true → length xs = length ys.
Proof. intros H. by apply seq_equalb_spec in H as [? _]. Qed.

Lemma op_eq_spec m l1 l2 c1 c2 :
  is_list m l1 c1 → is_list m l2 c2 →
  op_eq l1 l2 m
  = Ok (if decide (l1 = l2) then true else seq_equalb c1.*2 c2.*2) m.
Proof.
  intros H1 H2. unfold op_eq. case_bool_decide as Heq.
  { by rewrite decide_True. }
  rewrite decide_False by done.
  unfold bind at 1. rewrite (GetSize_spec _ _ _ H1).
  unfold bind at 1. rewrite (GetSize_spec _ _ _ H2).
  case_bool_decide as Hsz.
  - destruct (seq_equalb c1.*2 c2.*2) eqn:E; [|done].
    apply seq_equalb_length in E. rewrite !length_fmap in E.
    by rewrite E in Hsz.
  - unfold bind at 1. rewrite (cbegin_list _ _ _ H1).
    unfold bind at 1. rewrite (cbegin_list _ _ _ H2).
    rewrite (std_equal_spec m l1 l2 c1 c2) by
      (done || (pose proof (is_list_length _ _ _ H1); lia)).
    by rewrite !drop_0.
Qed.

Lemma op_lt_spec m l1 l2 c1 c2 :
  is_list m l1 c1 → is_list m l2 c2 →
  op_lt l1 l2 m = Ok (seq_lessb c1.*2 c2.*2) m.
Proof.
  intros H1 H2. unfold op_lt.
  unfold bind at 1. rewrite (cbegin_list _ _ _ H1).
  unfold bind at 1. rewrite (cbegin_list _ _ _ H2).
  rewrite (std_lexicographical_compare_spec m l1 l2 c1 c2) by
    (done || (pose proof (is_list_length _ _ _ H1); lia)).
  by rewrite !drop_0.
Qed.

(** ** Every public operation keeps the model *)

Lemma live_lookup m σ l : models m σ → live m l → ∃ c, σ !! l = Some c.
Proof.
  intros (Hd & _) Hlive. apply elem_of_dom. rewrite Hd. by apply elem_of_dom.
Qed.

Lemma position_index m σ l c pos :
  models m σ → σ !! l = Some c → position_of m l pos →
  ∃ i p, pos = mkIter (Some p) ∧ (l :: c.*1) !! i = Some p.
Proof.
  intros Hm Hc (c' & p & Hlist & Hpos & Hin).
  rewrite (models_lookup _ _ _ _ Hm Hlist) in Hc. injection Hc as ->.
  apply list_elem_of_lookup in Hin as [i Hi]. exists i, p.
  split; [|done]. destruct pos. simpl in Hpos. by subst.
Qed.

Lemma mutate_spec m σ l c mu m' :
  models m σ → σ !! l = Some c → valid_mutation m l mu →
  mutate l mu m = Ok tt m' →
  ∃ c', models m' (<[l := c']> σ).
Proof.
  intros Hm Hc Hvalid Hrun. pose proof Hm as (_ & Hl & _).
  destruct mu as [v|pos v| |pos| |pos v]; simpl in Hvalid, Hrun.
  - destruct (PushFront_spec m σ l c v Hm Hc) as (m1 & Hrun1 & Hm1).
    rewrite Hrun1 in Hrun. injection Hrun as <-. eauto.
  - destruct (position_index _ _ _ _ _ Hm Hc Hvalid) as (i & p & -> & Hi).
    destruct (InsertAfter_spec m σ l c i p v Hm Hc Hi) as (m1 & Hrun1 & Hm1).
    unfold bind in Hrun. rewrite Hrun1 in Hrun. injection Hrun as <-. eauto.
  - destruct c as [|x c].
    + exists []. rewrite insert_id by done.
      destruct (Hl _ _ Hc) as [(hd & Hhd & Hseg) _]. simpl in Hseg.
      destruct NDEBUG eqn:E.
      * rewrite (PopFront_guard _ _ _ E Hhd Hseg) in Hrun. by injection Hrun as <-.
      * by rewrite (PopFront_assert _ _ _ E Hhd Hseg) in Hrun.
    + destruct (PopFront_spec m σ l x c Hm Hc) as (m1 & Hrun1 & Hm1).
      rewrite Hrun1 in Hrun. injection Hrun as <-. eauto.
  - assert (∀ it, (EraseAfter l pos ;;; ret tt) m = Ok tt m' →
                  EraseAfter l pos m = Ok it m → m' = m) as Hnoop.
    { intros it H1 H2. unfold bind in H1. rewrite H2 in H1. by injection H1. }
    destruct Hvalid as [Hnull|Hvalid].
    + exists c. rewrite insert_id by done. destruct pos as [q]. simpl in Hnull.
      subst q. destruct NDEBUG eqn:E.
      * by rewrite (Hnoop _ Hrun (EraseAfter_guard_null m l E)).
      * unfold bind in Hrun. by rewrite (EraseAfter_assert_null m l E) in Hrun.
    + destruct (position_index _ _ _ _ _ Hm Hc Hvalid) as (i & p & -> & Hi).
      destruct (decide (i < length c)%nat) as [Hlt|Hge].
      * destruct (EraseAfter_spec m σ l c i p Hm Hc Hi Hlt) as (m1 & Hrun1 & Hm1).
        unfold bind in Hrun. rewrite Hrun1 in Hrun. injection Hrun as <-. eauto.
      * exists c. rewrite insert_id by done.
        assert (i = length c) as ->.
        { apply lookup_lt_Some in Hi. simpl in Hi. rewrite length_fmap in Hi. lia. }
        destruct (is_list_last _ _ _ _ (Hl _ _ Hc) Hi) as [vp Hp].
        destruct NDEBUG eqn:E.
        -- by rewrite (Hnoop _ Hrun (EraseAfter_guard_last m l p _ E Hp eq_refl)).
        -- unfold bind in Hrun.
           by rewrite (EraseAfter_assert_last m l p _ E Hp eq_refl) in Hrun.
  - destruct (Clear_spec m σ l c Hm Hc) as (m1 & Hrun1 & Hm1 & _).
    rewrite Hrun1 in Hrun. injection Hrun as <-. eauto.
  - destruct Hvalid as (c' & p & Hlist & Hpos & Hin).
    rewrite (models_lookup _ _ _ _ Hm Hlist) in Hc. injection Hc as ->.
    destruct pos as [q]. simpl in Hpos. subst q.
    apply list_elem_of_lookup in Hin as [i Hi].
    destruct (lookup_fst_Some _ _ _ Hi) as [vp Hci].
    destruct (iter_assign_spec m σ l c i p vp v Hm
                (models_lookup _ _ _ _ Hm Hlist) Hci) as (m1 & Hrun1 & Hm1).
    rewrite Hrun1 in Hrun. injection Hrun as <-. eauto.
Qed.

Lemma run_models m σ o m' :
  models m σ → enabled m o → run o m = Ok tt m' → ∃ σ', models m' σ'.
Proof.
  intros Hm Hen Hrun.
  destruct o as [|elems|other|other|this other|this other|this|this other|this mu];
    simpl in Hen, Hrun; unfold bind in Hrun.
  - destruct (ctor_default_spec _ _ Hm) as (m1 & Hrun1 & Hm1 & _).
    rewrite Hrun1 in Hrun. injection Hrun as <-. eauto.
  - destruct (ctor_il_spec _ _ elems Hm) as (m1 & c & Hrun1 & Hm1 & _).
    rewrite Hrun1 in Hrun. injection Hrun as <-. eauto.
  - destruct (live_lookup _ _ _ Hm Hen) as [co Ho].
    destruct (ctor_copy_spec _ _ _ _ Hm Ho) as (m1 & c & Hrun1 & Hm1 & _).
    rewrite Hrun1 in Hrun. injection Hrun as <-. eauto.
  - destruct (live_lookup _ _ _ Hm Hen) as [co Ho].
    destruct (ctor_move_spec _ _ _ _ Hm Ho) as (m1 & Hrun1 & Hm1 & _).
    rewrite Hrun1 in Hrun. injection Hrun as <-. eauto.
  - destruct Hen as [Hthis Hother].
    destruct (live_lookup _ _ _ Hm Hthis) as [c Hc].
    destruct (live_lookup _ _ _ Hm Hother) as [co Ho].
    destruct (decide (this = other)) as [->|Hne].
    + rewrite copy_assign_self in Hrun. injection Hrun as <-. eauto.
    + destruct (copy_assign_spec _ _ _ _ _ _ Hm Hc Ho Hne) as (m1 & c' & Hrun1 & Hm1 & _).
      rewrite Hrun1 in Hrun. injection Hrun as <-. eauto.
  - rewrite move_assign_exec in Hrun. injection Hrun as <-. eauto.
  - destruct (live_lookup _ _ _ Hm Hen) as [c Hc].
    destruct (dtor_spec _ _ _ _ Hm Hc) as (m1 & Hrun1 & Hm1 & _).
    rewrite Hrun1 in Hrun. injection Hrun as <-. eauto.
  - destruct Hen as [Hthis Hother].
    destruct (live_lookup _ _ _ Hm Hthis) as [c Hc].
    destruct (live_lookup _ _ _ Hm Hother) as [co Ho].
    destruct (swap_spec _ _ _ _ _ _ Hm Hc Ho) as (m1 & Hrun1 & Hm1).
    rewrite Hrun1 in Hrun. injection Hrun as <-. eauto.
  - destruct Hen as [Hthis Hvalid].
    destruct (live_lookup _ _ _ Hm Hthis) as [c Hc].
    destruct (mutate_spec _ _ _ _ _ _ Hm Hc Hvalid Hrun) as [c' Hm1]. eauto.
Qed.

Lemma models_empty : models empty_mem ∅.
Proof.
  split; [|split; [|split]]; simpl.
  - by rewrite !dom_empty_L.
  - intros l c H. by rewrite lookup_empty in H.
  - intros l1 l2 c1 c2 a H. by rewrite lookup_empty in H.
  - intros l c a H. by rewrite lookup_empty in H.
Qed.

Lemma reachable_wf m : reachable m → wf m.
Proof.
  induction 1 as [|m o m' _ [σ Hm] Hen Hrun].
  - exists ∅. apply models_empty.
  - by apply (run_models m σ o m').
Qed.


Lemma mutated_models m σ l c m' :
  models m σ → σ !! l = Some c → mutated l m m' →
  ∃ c', models m' (<[l := c']> σ).
Proof.
  intros Hm Hc Hmut. induction Hmut as [m|m m1 mu m2 _ IH Hvalid Hrun].
  - exists c. by rewrite insert_id.
  - destruct (IH Hm) as [c1 Hm1].
    destruct (mutate_spec m1 _ l c1 mu m2 Hm1 (lookup_insert_eq _ _ _) Hvalid Hrun)
      as [c2 Hm2].
    exists c2. by rewrite insert_insert_eq in Hm2.
Qed.

Lemma models_is_list m σ l c : models m σ → σ !! l = Some c → is_list m l c.
Proof. intros (_ & Hl & _). apply Hl. Qed.

Lemma wf_live_list m l : wf m → live m l → ∃ c, is_list m l c.
Proof.
  intros [σ Hm] Hlive. destruct (live_lookup _ _ _ Hm Hlive) as [c Hc].
  exists c. by eapply models_is_list.
Qed.

(** ** Integer conversions *)

Lemma to_size_t_small z : 0 ≤ z < 2 ^ size_t_bits → to_size_t z = z.
Proof. intros H. unfold to_size_t. by apply Z.mod_small. Qed.

Lemma to_int_small z : 0 ≤ z ≤ INT_MAX → to_int (to_size_t z) = z.
Proof.
  unfold INT_MAX, int_bits. intros H.
  rewrite to_size_t_small by (unfold size_t_bits; lia).
  unfold to_int, int_bits. rewrite Z.mod_small; lia.
Qed.

(** ** A list longer than [INT_MAX] *)

Lemma PushFront_times_spec v : ∀ n m σ l c,
  models m σ → σ !! l = Some c → reachable m →
  ∃ m' c', PushFront_times n l v m = Ok tt m'
           ∧ models m' (<[l := c']> σ) ∧ reachable m'
           ∧ length c' = (n + length c)%nat.
Proof.
  induction n as [|n IH]; intros m σ l c Hm Hc Hreach.
  - exists m, c. split; [done|]. by rewrite insert_id.
  - destruct (PushFront_spec m σ l c v Hm Hc) as (m1 & Hrun1 & Hm1).
    assert (reachable m1) as Hreach1.
    { apply (reachable_step m (OpMutate l (MPushFront v)) m1); [done| |done].
      split; [|done]. destruct Hm as (Hd & _).
      apply elem_of_dom. rewrite <- Hd. apply elem_of_dom. eauto. }
    destruct (IH m1 _ l _ Hm1 (lookup_insert_eq _ _ _) Hreach1)
      as (m' & c' & Hrun & Hm' & Hreach' & Hlen).
    exists m', c'. split; [|split; [|split]].
    + simpl. unfold bind. by rewrite Hrun1.
    + by rewrite insert_insert_eq in Hm'.
    + done.
    + rewrite Hlen. simpl. lia.
Qed.

(** Default-construct a list and push [n] elements: a reachable memory
    whose only list has [n] nodes. *)
Lemma long_list v n :
  ∃ l m c, (l <- ctor_default ;; PushFront_times n l v ;;; ret l) empty_mem = Ok l m
           ∧ reachable m ∧ is_list m l c ∧ length c = n.
Proof.
  destruct (ctor_default_spec _ _ models_empty) as (m1 & Hctor & Hm1 & _).
  set (l := fresh (dom (nodes empty_mem))) in *.
  assert (reachable m1) as Hreach1.
  { apply (reachable_step empty_mem OpDefault m1); [constructor|done|].
    simpl. unfold bind. by rewrite Hctor. }
  destruct (PushFront_times_spec v n m1 _ l [] Hm1 (lookup_insert_eq _ _ _) Hreach1)
    as (m' & c' & Hrun & Hm' & Hreach' & Hlen).
  exists l, m', c'. split; [|split; [|split]].
  - unfold bind. by rewrite Hctor, Hrun.
  - done.
  - eapply models_is_list; [exact Hm'|]. apply lookup_insert_eq.
  - rewrite Hlen. simpl. lia.
Qed.


(** * Properties of the specification *)

(** C2 (as amended).  In every memory reachable through the public
    interface, walking a live list from [begin()] to [end()] terminates,
    visits exactly the nodes of its chain and never the sentinel; the
    [size_] counter is the number of nodes visited (as a [size_t]), and
    [GetSize()] is that number narrowed to [int], hence the number itself
    whenever it does not exceed [INT_MAX]. *)
Theorem C2_size_matches_traversal m l :
  reachable m → live m l →
  ∃ cells,
    traverse l m = Ok cells m
    ∧ (l ∉ cells.*1)
    ∧ size_ m !! l = Some (to_size_t (Z.of_nat (length cells)))
    ∧ GetSize l m = Ok (to_int (to_size_t (Z.of_nat (length cells)))) m
    ∧ (Z.of_nat (length cells) ≤ INT_MAX →
       GetSize l m = Ok (Z.of_nat (length cells)) m).
Proof.
  intros Hreach Hlive.
  destruct (wf_live_list m l (reachable_wf m Hreach) Hlive) as [cells Hlist].
  exists cells. split; [by apply traverse_spec|]. split.
  { pose proof (is_list_NoDup _ _ _ Hlist) as Hnd.
    by apply NoDup_cons in Hnd as [? _]. }
  split; [by destruct Hlist|]. split; [by apply GetSize_spec|].
  intros Hsmall. rewrite (GetSize_spec _ _ _ Hlist), to_int_small; [done|lia].
Qed.

(** C10.  [GetSize()] is the [size_] counter converted to [int]: for a list
    of at most [INT_MAX] nodes it is the node count; beyond that it is the
    narrowed counter, and there is a reachable list for which it is
    negative and so differs from the count. *)
Theorem C10_GetSize_narrows :
  (∀ m l cells, is_list m l cells →
     GetSize l m = Ok (to_int (to_size_t (Z.of_nat (length cells)))) m
     ∧ (Z.of_nat (length cells) ≤ INT_MAX →
        GetSize l m = Ok (Z.of_nat (length cells)) m))
  ∧ (∃ m l cells z,
       reachable m ∧ is_list m l cells
       ∧ INT_MAX < Z.of_nat (length cells)
       ∧ GetSize l m = Ok z m
       ∧ z < 0 ∧ z ≠ Z.of_nat (length cells)).
Proof.
  split.
  - intros m l cells Hlist. split; [by apply GetSize_spec|].
    intros Hsmall. rewrite (GetSize_spec _ _ _ Hlist), to_int_small; [done|lia].
  - destruct (long_list dflt (Z.to_nat (INT_MAX + 1)))
      as (l & m & cells & _ & Hreach & Hlist & Hlen).
    assert (Z.of_nat (length cells) = INT_MAX + 1) as Hz.
    { rewrite Hlen. apply Z2Nat.id. by vm_compute. }
    exists m, l, cells, (to_int (to_size_t (INT_MAX + 1))).
    split; [done|]. split; [done|]. rewrite Hz.
    split; [lia|]. split; [by rewrite (GetSize_spec _ _ _ Hlist), Hz|].
    by vm_compute.
Qed.


(** C3.  With assertions compiled out, [PopFront()] on an empty list
    returns and leaves memory as it was, and [EraseAfter(pos)], called on
    any list (empty or not) with the end position or with a position whose
    node has no successor (the last node of a list, or the sentinel of an
    empty one), returns the end iterator and leaves memory as it was: the
    list it is called on, and every other list, keeps its chain and its
    size.  With assertions compiled in, each of the three calls stops on
    the failed [assert]. *)
Theorem C3_guards m :
  (NDEBUG = true →
     (∀ l hd, nodes m !! l = Some hd → next_node hd = None →
        PopFront l m = Ok tt m)
     ∧ (∀ this, is_list m this [] → PopFront this m = Ok tt m)
     ∧ (∀ this, EraseAfter this end_ m = Ok end_ m)
     ∧ (∀ this p n, nodes m !! p = Some n → next_node n = None →
          EraseAfter this (mkIter (Some p)) m = Ok end_ m)
     ∧ (∀ this c p, is_list m this c → (this :: c.*1) !! length c = Some p →
          EraseAfter this (mkIter (Some p)) m = Ok end_ m))
  ∧ (NDEBUG = false →
     (∀ l hd, nodes m !! l = Some hd → next_node hd = None →
        PopFront l m = AssertFail)
     ∧ (∀ this, is_list m this [] → PopFront this m = AssertFail)
     ∧ (∀ this, EraseAfter this end_ m = AssertFail)
     ∧ (∀ this p n, nodes m !! p = Some n → next_node n = None →
          EraseAfter this (mkIter (Some p)) m = AssertFail)
     ∧ (∀ this c p, is_list m this c → (this :: c.*1) !! length c = Some p →
          EraseAfter this (mkIter (Some p)) m = AssertFail)).
Proof.
  assert (Hlast : ∀ this c p,
            is_list m this c → (this :: c.*1) !! length c = Some p →
            ∃ n, nodes m !! p = Some n ∧ next_node n = None).
  { intros this c p Hlist Hp. destruct (is_list_last _ _ _ _ Hlist Hp) as (v & H).
    by exists (mkNode v None). }
  split; intros E.
  - split; [intros l hd Hl Hhd; by eapply PopFront_guard|].
    split.
    { intros this Hlist. destruct (Hlast this [] this Hlist eq_refl) as (hd & Hl & Hhd).
      by eapply PopFront_guard. }
    split; [intros this; by apply EraseAfter_guard_null|].
    split; [intros this p n Hp Hn; by eapply EraseAfter_guard_last|].
    intros this c p Hlist Hp. destruct (Hlast _ _ _ Hlist Hp) as (n & Hn & Hnx).
    by eapply EraseAfter_guard_last.
  - split; [intros l hd Hl Hhd; by eapply PopFront_assert|].
    split.
    { intros this Hlist. destruct (Hlast this [] this Hlist eq_refl) as (hd & Hl & Hhd).
      by eapply PopFront_assert. }
    split; [intros this; by apply EraseAfter_assert_null|].
    split; [intros this p n Hp Hn; by eapply EraseAfter_assert_last|].
    intros this c p Hlist Hp. destruct (Hlast _ _ _ Hlist Hp) as (n & Hn & Hnx).
    by eapply EraseAfter_assert_last.
Qed.

(** C4.  Constructing a list from the sequence [elems] returns a new list
    whose traversal from [begin()] to [end()] reads exactly [elems], in
    order, and whose size is the length of [elems]. *)
Theorem C4_initializer_list m elems :
  wf m →
  ∃ l m' cells,
    ctor_il elems m = Ok l m'
    ∧ wf m'
    ∧ traverse l m' = Ok cells m'
    ∧ cells.*2 = elems
    ∧ length cells = length elems
    ∧ size_ m' !! l = Some (to_size_t (Z.of_nat (length elems)))
    ∧ (Z.of_nat (length elems) < 2 ^ size_t_bits →
       size_ m' !! l = Some (Z.of_nat (length elems)))
    ∧ (Z.of_nat (length elems) ≤ INT_MAX →
       GetSize l m' = Ok (Z.of_nat (length elems)) m').
Proof.
  intros [σ Hm].
  destruct (ctor_il_spec m σ elems Hm) as (m' & cells & Hrun & Hm' & Hcells & _).
  pose proof (models_is_list _ _ _ _ Hm' (lookup_insert_eq _ _ _)) as Hlist.
  assert (length cells = length elems) as Hlen by (by rewrite <- Hcells, length_fmap).
  exists (fresh (dom (nodes m))), m', cells.
  split; [done|]. split; [by exists (<[fresh (dom (nodes m)) := cells]> σ)|].
  split; [by apply traverse_spec|]. split; [done|]. split; [done|].
  pose proof (GetSize_spec _ _ _ Hlist) as Hget.
  destruct Hlist as [_ Hsz]. rewrite Hlen in Hsz, Hget.
  split; [done|]. split.
  - intros Hsmall. rewrite Hsz, to_size_t_small; [done|lia].
  - intros Hsmall. rewrite Hget, to_int_small; [done|lia].
Qed.

(** C6.  For a position [pos] of a list (the sentinel or its [i]-th node)
    that has a successor, [EraseAfter(pos)] removes exactly the element
    right after it: the chain keeps all other nodes, with their values and
    in their order; the counter goes down by one; the iterator returned
    stands on the node that now follows [pos], and is the end iterator
    when the last node was removed. *)
Theorem C6_EraseAfter m l c i p :
  wf m → is_list m l c → (l :: c.*1) !! i = Some p → (i < length c)%nat →
  ∃ m' it,
    EraseAfter l (mkIter (Some p)) m = Ok it m'
    ∧ wf m'
    ∧ is_list m' l (delete i c)
    ∧ size_ m' !! l = Some (to_size_t (Z.of_nat (length c) - 1))
    ∧ (Z.of_nat (length c) < 2 ^ size_t_bits →
       size_ m !! l = Some (Z.of_nat (length c))
       ∧ size_ m' !! l = Some (Z.of_nat (length c) - 1))
    ∧ node_ it = (l :: (delete i c).*1) !! S i
    ∧ node_ it = c.*1 !! S i
    ∧ get_next p m' = Ok (node_ it) m'
    ∧ (S i = length c → it = end_).
Proof.
  intros [σ Hm] Hlist Hi Hlt.
  pose proof (models_lookup _ _ _ _ Hm Hlist) as Hc.
  destruct (EraseAfter_spec m σ l c i p Hm Hc Hi Hlt) as (m' & Hrun & Hm').
  pose proof (models_is_list _ _ _ _ Hm' (lookup_insert_eq _ _ _)) as Hlist'.
  exists m', (mkIter (c.*1 !! S i)).
  assert ((l :: (delete i c).*1) !! S i = c.*1 !! S i) as Hafter.
  { simpl. rewrite !list_lookup_fmap, list_lookup_delete_ge by lia. done. }
  split; [done|]. split; [by eexists|]. split; [done|]. split.
  { destruct Hlist' as [_ Hsz]. rewrite Hsz, length_delete. 
    - do 2 f_equal. lia.
    - by apply lookup_lt_is_Some_2. }
  split.
  { intros Hsmall. destruct Hlist as [_ Hsz]. destruct Hlist' as [_ Hsz'].
    rewrite Hsz, Hsz', length_delete by (by apply lookup_lt_is_Some_2).
    rewrite !to_size_t_small by lia. split; [done|]. do 2 f_equal. lia. }
  split; [done|]. split; [done|]. split.
  - simpl. destruct (is_list_position m' l (delete i c) i p Hlist')
      as (v0 & vp & nx & _ & Hp & _ & Hsuf & _).
    { destruct i as [|i]; [done|]. simpl in *.
      rewrite list_lookup_fmap, list_lookup_delete_lt by lia.
      by rewrite <- list_lookup_fmap. }
    apply lseg_head in Hsuf.
    rewrite fmap_drop, lookup_drop, Nat.add_0_r in Hsuf.
    simpl in Hafter. rewrite Hafter in Hsuf. subst nx.
    exec_unfold. by rewrite Hp.
  - intros Hlast. unfold end_. f_equal. apply lookup_ge_None.
    rewrite length_fmap. lia.
Qed.


Lemma seq_equalb_refl xs : (∀ x, eqT x x = true) → seq_equalb xs xs = true.
Proof. intros Hrefl. induction xs as [|x xs IH]; simpl; [done|]. by rewrite Hrefl, IH. Qed.

Lemma deep_copy_intro m σ A B ca cb :
  models m σ → σ !! A = Some ca → σ !! B = Some cb → A ≠ B →
  cb.*2 = ca.*2 → deep_copy m A B ca.
Proof.
  intros Hm HA HB Hne Hvals. exists cb.
  split; [by eapply models_is_list|]. split; [by eapply models_is_list|].
  split; [done|]. split; [|split].
  - intros a Ha. eapply (models_disjoint _ _ B A); eauto.
  - intros m' Hmut. destruct (mutated_models _ _ _ _ _ Hm HB Hmut) as [c' Hm'].
    eapply models_is_list; [exact Hm'|]. by rewrite lookup_insert_ne.
  - intros m' Hmut. destruct (mutated_models _ _ _ _ _ Hm HA Hmut) as [c' Hm'].
    eapply models_is_list; [exact Hm'|]. by rewrite lookup_insert_ne.
Qed.

Lemma copies_compare_equal m A B ca cb :
  is_list m A ca → is_list m B cb → cb.*2 = ca.*2 → (∀ x, eqT x x = true) →
  op_eq A B m = Ok true m ∧ op_eq B A m = Ok true m.
Proof.
  intros HA HB Hvals Hrefl.
  rewrite (op_eq_spec _ _ _ _ _ HA HB), (op_eq_spec _ _ _ _ _ HB HA), Hvals.
  rewrite seq_equalb_refl by done. split; by case_decide.
Qed.

(** C5.  Copy-constructing [B] from [A], or copy-assigning [B = A] to
    another list, leaves [A] as it was and makes [B] a deep copy: [B]
    reads the same values in the same order from nodes of its own, and
    nothing done afterwards to one of the two lists changes the other;
    [A == B] holds (for an element type whose [==] is reflexive).
    Copy-assigning a list to itself changes nothing. *)
Theorem C5_copy_is_deep m A ca :
  wf m → is_list m A ca →
  (∃ B m',
     ctor_copy A m = Ok B m' ∧ B ≠ A ∧ wf m' ∧ deep_copy m' A B ca
     ∧ ((∀ x, eqT x x = true) →
        op_eq A B m' = Ok true m' ∧ op_eq B A m' = Ok true m'))
  ∧ (∀ B cb0, is_list m B cb0 → B ≠ A →
     ∃ m',
       copy_assign B A m = Ok B m' ∧ wf m' ∧ deep_copy m' A B ca
       ∧ ((∀ x, eqT x x = true) →
          op_eq A B m' = Ok true m' ∧ op_eq B A m' = Ok true m'))
  ∧ copy_assign A A m = Ok A m.
Proof.
  intros [σ Hm] HA. pose proof (models_lookup _ _ _ _ Hm HA) as HσA.
  split; [|split].
  - destruct (ctor_copy_spec m σ A ca Hm HσA) as (m' & cb & Hrun & Hm' & Hvals & Hfresh).
    set (B := fresh (dom (nodes m))) in *.
    assert (B ≠ A) as Hne by congruence.
    assert (<[B := cb]> σ !! A = Some ca) as HA' by (by rewrite lookup_insert_ne).
    exists B, m'. split; [done|]. split; [done|]. split; [by eexists|].
    split.
    + eapply deep_copy_intro; eauto. apply lookup_insert_eq.
    + apply (copies_compare_equal m' A B ca cb); [by eapply models_is_list| |done].
      eapply models_is_list; [exact Hm'|]. apply lookup_insert_eq.
  - intros B cb0 HB Hne. pose proof (models_lookup _ _ _ _ Hm HB) as HσB.
    destruct (copy_assign_spec m σ B A cb0 ca Hm HσB HσA Hne)
      as (m' & cb & Hrun & Hm' & Hvals).
    assert (<[B := cb]> σ !! A = Some ca) as HA' by (by rewrite lookup_insert_ne).
    exists m'. split; [done|]. split; [by eexists|]. split.
    + eapply deep_copy_intro; eauto. apply lookup_insert_eq.
    + apply (copies_compare_equal m' A B ca cb); [by eapply models_is_list| |done].
      eapply models_is_list; [exact Hm'|]. apply lookup_insert_eq.
  - apply copy_assign_self.
Qed.

(** C8.  [InsertAfter(before_begin(), v)] and [PushFront(v)] leave the very
    same memory, so the list has the same elements and the same size
    either way; the iterator [InsertAfter] returns is [begin()] of the
    new list and reads [v]. *)
Theorem C8_InsertAfter_before_begin m this c v :
  wf m → is_list m this c →
  ∃ a m',
    PushFront this v m = Ok tt m'
    ∧ InsertAfter this (before_begin this) v m = Ok (mkIter (Some a)) m'
    ∧ wf m'
    ∧ is_list m' this ((a, v) :: c)
    ∧ begin this m' = Ok (mkIter (Some a)) m'
    ∧ iter_deref (mkIter (Some a)) m' = Ok v m'.
Proof.
  intros [σ Hm] Hlist. pose proof (models_lookup _ _ _ _ Hm Hlist) as Hc.
  destruct (InsertAfter_spec m σ this c 0 this v Hm Hc eq_refl) as (m' & Hrun & Hm').
  simpl in Hm'. rewrite drop_0 in Hm'.
  pose proof (models_is_list _ _ _ _ Hm' (lookup_insert_eq _ _ _)) as Hlist'.
  exists (fresh (dom (nodes m))), m'.
  split; [|split; [done|split; [by eexists|split; [done|split]]]].
  - rewrite PushFront_as_InsertAfter. unfold bind, before_begin. by rewrite Hrun.
  - exact (cbegin_list _ _ _ Hlist').
  - by apply (iter_deref_cell m' this _ 0 _ _ Hlist').
Qed.

(** C9.  Move construction is a swap with a default-constructed list: the
    new list [B] owns the very chain [A] owned, with [A]'s former size,
    and [A] is left empty, with size 0 and [begin() == end()]. *)
Theorem C9_move_construction m A ca :
  wf m → is_list m A ca →
  ∃ B m',
    ctor_move A m = Ok B m'
    ∧ ctor_move A m = (this <- ctor_default ;; swap this A ;;; ret this) m
    ∧ B ≠ A ∧ wf m'
    ∧ is_list m' B ca
    ∧ traverse B m' = Ok ca m'
    ∧ size_ m' !! B = size_ m !! A
    ∧ is_list m' A []
    ∧ GetSize A m' = Ok 0 m'
    ∧ begin A m' = Ok end_ m'
    ∧ IsEmpty A m' = Ok true m'.
Proof.
  intros [σ Hm] HA. pose proof (models_lookup _ _ _ _ Hm HA) as HσA.
  destruct (ctor_move_spec m σ A ca Hm HσA) as (m' & Hrun & Hm' & Hfresh).
  set (B := fresh (dom (nodes m))) in *.
  assert (B ≠ A) as Hne by congruence.
  pose proof (models_is_list _ _ _ _ Hm' (lookup_insert_eq _ _ _)) as HB'.
  assert (is_list m' A []) as HA'.
  { eapply models_is_list; [exact Hm'|].
    rewrite lookup_insert_ne by done. apply lookup_insert_eq. }
  exists B, m'. split; [done|]. split; [done|]. split; [done|].
  split; [by eexists|]. split; [done|]. split; [by apply traverse_spec|].
  split; [by destruct HB' as [_ ->], HA as [_ ->]|]. split; [done|].
  split; [by rewrite (GetSize_spec _ _ _ HA')|].
  split; [exact (cbegin_list _ _ _ HA')|].
  by rewrite (IsEmpty_spec _ _ _ HA').
Qed.


(** What the six comparison operators return on two lists. *)
Lemma comparisons_spec m l r xs ys :
  is_list m l xs → is_list m r ys →
  ∃ beq blt bgt : bool,
    op_eq l r m = Ok beq m ∧ op_ne l r m = Ok (negb beq) m
    ∧ op_lt l r m = Ok blt m ∧ op_ge l r m = Ok (negb blt) m
    ∧ op_gt l r m = Ok bgt m ∧ op_le l r m = Ok (negb bgt) m
    ∧ ((l ≠ r ∨ ∀ x, eqT x x = true) →
       (beq = true ↔ seq_equal xs.*2 ys.*2))
    ∧ (l = r → beq = true)
    ∧ (blt = true ↔ seq_less xs.*2 ys.*2)
    ∧ (bgt = true ↔ seq_less ys.*2 xs.*2).
Proof.
  intros Hl Hr.
  exists (if decide (l = r) then true else seq_equalb xs.*2 ys.*2),
    (seq_lessb xs.*2 ys.*2), (seq_lessb ys.*2 xs.*2).
  pose proof (op_eq_spec _ _ _ _ _ Hl Hr) as Heq.
  pose proof (op_lt_spec _ _ _ _ _ Hl Hr) as Hlt.
  pose proof (op_lt_spec _ _ _ _ _ Hr Hl) as Hgt.
  split; [done|]. split; [unfold op_ne, bind; by rewrite Heq|].
  split; [done|]. split; [unfold op_ge, bind; by rewrite Hlt|].
  split; [done|]. split; [unfold op_le, bind; by rewrite Hgt|].
  split; [|split; [|split]].
  - intros Hcase. case_decide as E; [|apply seq_equalb_spec].
    subst r. rewrite (is_list_det _ _ _ _ Hl Hr).
    destruct Hcase as [?|Hrefl]; [done|].
    split; [intros _|done]. apply seq_equalb_spec. by apply seq_equalb_refl.
  - intros E. by rewrite decide_True.
  - apply seq_lessb_spec.
  - apply seq_lessb_spec.
Qed.

(** * Further properties of the code *)

Lemma models_other m σ m' l c' l2 c2 :
  models m σ → models m' (<[l := c']> σ) → l2 ≠ l →
  is_list m l2 c2 → is_list m' l2 c2.
Proof.
  intros Hm Hm' Hne H2. eapply models_is_list; [exact Hm'|].
  rewrite lookup_insert_ne by done. by eapply models_lookup.
Qed.

Lemma Clear_empty m l : is_list m l [] → Clear l m = Ok tt m.
Proof.
  intros [(hd & Hhd & Hseg) Hsz]. simpl in Hseg, Hsz.
  unfold Clear, bind. simpl. exec_unfold. rewrite Hhd. simpl. rewrite Hseg.
  rewrite Hsz. destruct m as [h s]. simpl in *. f_equal. f_equal.
  by apply insert_id.
Qed.

(** A freed node cannot be read through an iterator that still points to
    it, with or without assertions. *)
Lemma iter_deref_freed m a :
  nodes m !! a = None → iter_deref (mkIter (Some a)) m = Undefined.
Proof. intros Ha. exec_unfold. destruct NDEBUG; simpl; by rewrite Ha. Qed.

Lemma iter_deref_in m l c e ve :
  is_list m l c → (e, ve) ∈ c → iter_deref (mkIter (Some e)) m = Ok ve m.
Proof.
  intros Hlist [j Hj]%list_elem_of_lookup. by eapply iter_deref_cell.
Qed.

(** X1.  [Clear()] empties the list: every node of its chain is freed, the
    list is left with size 0 and [IsEmpty()], the other lists are as they
    were, and a second [Clear()] changes nothing at all. *)
Theorem X1_Clear_empties m l c :
  wf m → is_list m l c →
  ∃ m',
    Clear l m = Ok tt m'
    ∧ wf m'
    ∧ is_list m' l []
    ∧ GetSize l m' = Ok 0 m'
    ∧ IsEmpty l m' = Ok true m'
    ∧ (∀ a, a ∈ c.*1 → nodes m' !! a = None)
    ∧ (∀ l2 c2, l2 ≠ l → is_list m l2 c2 → is_list m' l2 c2)
    ∧ Clear l m' = Ok tt m'.
Proof.
  intros [σ Hm] Hlist. pose proof (models_lookup _ _ _ _ Hm Hlist) as Hc.
  destruct (Clear_spec m σ l c Hm Hc) as (m' & Hrun & Hm' & Hgone).
  pose proof (models_is_list _ _ _ _ Hm' (lookup_insert_eq _ _ _)) as Hlist'.
  exists m'. split; [done|]. split; [by eexists|]. split; [done|].
  split; [by rewrite (GetSize_spec _ _ _ Hlist')|].
  split; [by rewrite (IsEmpty_spec _ _ _ Hlist')|]. split; [done|].
  split; [|by apply Clear_empty].
  intros l2 c2 Hne H2. exact (models_other _ _ _ _ _ _ _ Hm Hm' Hne H2).
Qed.

(** X2.  [IsEmpty()] says whether [begin() == end()], which is the case
    exactly when the list has no node; for a list of at most [INT_MAX]
    nodes that is also when [GetSize()] is 0. *)
Theorem X2_IsEmpty_iff_begin_is_end m l c :
  is_list m l c →
  ∃ it,
    begin l m = Ok it m
    ∧ IsEmpty l m = Ok (iter_eq it end_) m
    ∧ (iter_eq it end_ = true ↔ c = [])
    ∧ (Z.of_nat (length c) ≤ INT_MAX → (c = [] ↔ GetSize l m = Ok 0 m)).
Proof.
  intros Hlist. exists (mkIter (c.*1 !! 0%nat)).
  split; [exact (cbegin_list _ _ _ Hlist)|].
  assert (iter_eq (mkIter (c.*1 !! 0%nat)) end_ = bool_decide (c = [])) as Heq.
  { unfold iter_eq, end_. simpl. destruct c as [|[a v] c]; done. }
  split; [by rewrite (IsEmpty_spec _ _ _ Hlist), Heq|].
  split; [rewrite Heq; apply bool_decide_eq_true|].
  intros Hsmall. rewrite (GetSize_spec _ _ _ Hlist), to_int_small by lia.
  split.
  - by intros ->.
  - intros [= Hz]. destruct c; [done|]. simpl in Hz. lia.
Qed.

(** X3.  [InsertAfter(pos, v)] at any position of a list (the sentinel or
    one of its nodes) puts one new node right behind [pos]: the elements
    before and after keep their place, the counter goes up by one, the
    iterator returned stands on the new node and reads [v], and every
    iterator that pointed into the list still reads what it read before. *)
Theorem X3_InsertAfter m l c i p v :
  wf m → is_list m l c → (l :: c.*1) !! i = Some p →
  ∃ a m',
    InsertAfter l (mkIter (Some p)) v m = Ok (mkIter (Some a)) m'
    ∧ nodes m !! a = None
    ∧ wf m'
    ∧ is_list m' l (take i c ++ (a, v) :: drop i c)
    ∧ size_ m' !! l = Some (to_size_t (Z.of_nat (length c) + 1))
    ∧ get_next p m' = Ok (Some a) m'
    ∧ iter_deref (mkIter (Some a)) m' = Ok v m'
    ∧ (∀ e ve, (e, ve) ∈ c → iter_deref (mkIter (Some e)) m' = Ok ve m')
    ∧ (∀ l2 c2, l2 ≠ l → is_list m l2 c2 → is_list m' l2 c2).
Proof.
  intros [σ Hm] Hlist Hi. pose proof (models_lookup _ _ _ _ Hm Hlist) as Hc.
  destruct (InsertAfter_spec m σ l c i p v Hm Hc Hi) as (m' & Hrun & Hm').
  pose proof (models_is_list _ _ _ _ Hm' (lookup_insert_eq _ _ _)) as Hlist'.
  set (a := fresh (dom (nodes m))) in *.
  assert (i ≤ length c)%nat as Hle.
  { apply lookup_lt_Some in Hi. simpl in Hi. rewrite length_fmap in Hi. lia. }
  exists a, m'. split; [done|]. split; [apply fresh_nodes|].
  split; [by eexists|]. split; [done|]. split.
  { destruct Hlist' as [_ ->]. rewrite length_insert_middle. do 2 f_equal. lia. }
  split.
  { destruct (is_list_position m' l _ i p Hlist')
      as (v0 & vp & nx & _ & Hp & _ & Hsuf & _).
    { destruct i as [|i]; [done|]. simpl in *.
      rewrite fmap_app, lookup_app_l; [by rewrite fmap_take, lookup_take_lt by lia|].
      rewrite length_fmap, length_take. apply lookup_lt_Some in Hi.
      rewrite length_fmap in Hi. lia. }
    rewrite drop_app_length' in Hsuf by (rewrite length_take; lia).
    simpl in Hsuf. destruct Hsuf as [-> _]. exec_unfold. by rewrite Hp. }
  split.
  { eapply (iter_deref_in m' l); [exact Hlist'|].
    apply elem_of_app. right. left. }
  split.
  - intros e ve Hin. eapply (iter_deref_in m' l); [exact Hlist'|].
    rewrite <- (take_drop i c) in Hin. apply elem_of_app in Hin as [Hin|Hin];
      apply elem_of_app; [by left|right; by right].
  - intros l2 c2 Hne H2. exact (models_other _ _ _ _ _ _ _ Hm Hm' Hne H2).
Qed.

(** X4.  The end iterator can be neither advanced, nor read, nor inserted
    after: with assertions each of these stops on the [assert]; without
    them each dereferences the null pointer.  [InsertAfter] has no
    fallback of the kind [EraseAfter] has. *)
Theorem X4_end_iterator m l v :
  (NDEBUG = false →
     iter_incr end_ m = AssertFail
     ∧ iter_post_incr end_ m = AssertFail
     ∧ iter_deref end_ m = AssertFail
     ∧ iter_assign end_ v m = AssertFail
     ∧ InsertAfter l end_ v m = AssertFail)
  ∧ (NDEBUG = true →
     iter_incr end_ m = Undefined
     ∧ iter_post_incr end_ m = Undefined
     ∧ iter_deref end_ m = Undefined
     ∧ iter_assign end_ v m = Undefined
     ∧ InsertAfter l end_ v m = Undefined).
Proof.
  split; intros E; unfold iter_post_incr; exec_unfold; rewrite E; done.
Qed.

(** X5.  [PopFront()] on a list that has a first element removes exactly
    that element: the rest of the chain stays, the counter goes down by
    one, the node is freed, so that an iterator left on it reads freed
    memory, and iterators to the other elements read what they read
    before. *)
Theorem X5_PopFront m l a v c :
  wf m → is_list m l ((a, v) :: c) →
  ∃ m',
    PopFront l m = Ok tt m'
    ∧ wf m'
    ∧ is_list m' l c
    ∧ size_ m' !! l = Some (to_size_t (Z.of_nat (length c)))
    ∧ nodes m' !! a = None
    ∧ iter_deref (mkIter (Some a)) m' = Undefined
    ∧ (∀ e ve, (e, ve) ∈ c → iter_deref (mkIter (Some e)) m' = Ok ve m')
    ∧ (∀ l2 c2, l2 ≠ l → is_list m l2 c2 → is_list m' l2 c2).
Proof.
  intros [σ Hm] Hlist. pose proof (models_lookup _ _ _ _ Hm Hlist) as Hc.
  destruct (PopFront_spec m σ l (a, v) c Hm Hc) as (m' & Hrun & Hm').
  pose proof (models_is_list _ _ _ _ Hm' (lookup_insert_eq _ _ _)) as Hlist'.
  assert (nodes m' !! a = None) as Hfreed.
  { pose proof (is_list_NoDup _ _ _ Hlist) as Hnd.
    destruct Hlist as [(hd & Hhd & Hseg) Hsz].
    simpl in Hseg. destruct Hseg as (Hnx & nx & Ha & _).
    assert (l ≠ a) as Hne.
    { intros ->. apply NoDup_cons in Hnd as [Hnd _]. apply Hnd. simpl. left. }
    rewrite (PopFront_exec _ _ _ _ _ _ Hhd Hnx Ha Hne Hsz) in Hrun.
    injection Hrun as <-. simpl. apply lookup_delete_eq. }
  exists m'. split; [done|]. split; [by eexists|]. split; [done|].
  split; [by destruct Hlist'|]. split; [done|].
  split; [by apply iter_deref_freed|]. split.
  - intros e ve Hin. by eapply (iter_deref_in m' l).
  - intros l2 c2 Hne H2. exact (models_other _ _ _ _ _ _ _ Hm Hm' Hne H2).
Qed.

(** X6.  [EraseAfter(pos)] frees the node it unlinks and nothing else: an
    iterator left on the erased node reads freed memory, while iterators
    to the other elements of the list, the position [pos] included, and
    the other lists are as they were. *)
Theorem X6_EraseAfter_invalidates_one m l c i p e ve :
  wf m → is_list m l c → (l :: c.*1) !! i = Some p → c !! i = Some (e, ve) →
  ∃ m' it,
    EraseAfter l (mkIter (Some p)) m = Ok it m'
    ∧ nodes m' !! e = None
    ∧ iter_deref (mkIter (Some e)) m' = Undefined
    ∧ (∀ b vb, (b, vb) ∈ c → b ≠ e → iter_deref (mkIter (Some b)) m' = Ok vb m')
    ∧ is_Some (nodes m' !! p)
    ∧ (∀ l2 c2, l2 ≠ l → is_list m l2 c2 → is_list m' l2 c2).
Proof.
  intros [σ Hm] Hlist Hi He. pose proof (models_lookup _ _ _ _ Hm Hlist) as Hc.
  pose proof (lookup_lt_Some _ _ _ He) as Hlt.
  destruct (EraseAfter_spec m σ l c i p Hm Hc Hi Hlt) as (m' & Hrun & Hm').
  pose proof (models_is_list _ _ _ _ Hm' (lookup_insert_eq _ _ _)) as Hlist'.
  assert (nodes m' !! e = None) as Hfreed.
  { destruct (is_list_position _ _ _ _ _ Hlist Hi)
      as (v0 & vp & nx & Hfi & Hp & _ & Hsuf & _ & Hn2).
    rewrite (drop_S _ _ _ He) in Hsuf, Hn2. simpl in Hsuf.
    destruct Hsuf as (-> & nx2 & Hea & _).
    assert (p ≠ e) as Hpe by (intros ->; apply Hn2; simpl; left).
    destruct Hlist as [_ Hsz].
    rewrite (EraseAfter_exec _ _ _ _ _ _ _ Hp eq_refl Hea Hpe Hsz) in Hrun.
    injection Hrun as _ <-. simpl. apply lookup_delete_eq. }
  exists m', (mkIter (c.*1 !! S i)). split; [done|]. split; [done|].
  split; [by apply iter_deref_freed|]. split; [|split].
  - intros b vb Hin Hbe. eapply (iter_deref_in m' l); [exact Hlist'|].
    apply list_elem_of_lookup in Hin as [j Hj].
    apply list_elem_of_lookup.
    destruct (decide (j < i)%nat) as [Hji|Hji].
    + exists j. by rewrite list_lookup_delete_lt.
    + destruct (decide (j = i)) as [->|Hneq].
      * rewrite He in Hj. by injection Hj as -> ->.
      * exists (Nat.pred j). rewrite list_lookup_delete_ge by lia.
        by replace (S (Nat.pred j)) with j by lia.
  - eapply is_list_lookup; [exact Hlist'|].
    apply list_elem_of_lookup. exists i.
    destruct i as [|i]; [done|]. simpl in *.
    rewrite list_lookup_fmap, list_lookup_delete_lt by lia.
    by rewrite <- list_lookup_fmap.
  - intros l2 c2 Hne H2. exact (models_other _ _ _ _ _ _ _ Hm Hm' Hne H2).
Qed.

Lemma is_list_size_range m l c sz :
  is_list m l c → size_ m !! l = Some sz → 0 ≤ sz < 2 ^ size_t_bits.
Proof.
  intros [_ Hsz] Hs. rewrite Hsz in Hs. injection Hs as <-.
  unfold to_size_t. apply Z.mod_pos_bound. by vm_compute.
Qed.

Lemma size_round_trip sz :
  0 ≤ sz < 2 ^ size_t_bits → to_size_t (to_size_t (sz + 1) - 1) = sz.
Proof.
  intros H. rewrite to_size_t_pred. replace (sz + 1 - 1) with sz by lia.
  by apply to_size_t_small.
Qed.

Lemma insert_erase_memory m l p n a v sz :
  nodes m !! p = Some n → nodes m !! a = None → size_ m !! l = Some sz →
  0 ≤ sz < 2 ^ size_t_bits →
  Mem (delete a (<[p := mkNode (value n) (next_node n)]>
         (<[p := mkNode (value n) (Some a)]>
            (<[a := mkNode v (next_node n)]> (nodes m)))))
      (<[l := to_size_t (to_size_t (sz + 1) - 1)]>
         (<[l := to_size_t (sz + 1)]> (size_ m)))
  = m.
Proof.
  intros Hp Ha Hs Hrange. assert (a ≠ p) as Hne by congruence.
  destruct m as [h s]. simpl in *. f_equal.
  - rewrite insert_insert_eq, delete_insert_ne, delete_insert_eq, delete_id by done.
    apply insert_id. by destruct n.
  - rewrite insert_insert_eq, size_round_trip by done. by apply insert_id.
Qed.

(** X7.  [InsertAfter(pos, v)] followed by [EraseAfter(pos)] gives back the
    memory it started from, bit for bit, and the second call returns the
    iterator to what followed [pos] in the first place. *)
Theorem X7_InsertAfter_EraseAfter m l c i p v :
  is_list m l c → (l :: c.*1) !! i = Some p →
  (InsertAfter l (mkIter (Some p)) v ;;; EraseAfter l (mkIter (Some p))) m
  = Ok (mkIter (c.*1 !! i)) m.
Proof.
  intros Hlist Hi.
  destruct (is_list_position _ _ _ _ _ Hlist Hi)
    as (v0 & vp & nx & _ & Hp & _ & Hsuf & _).
  apply lseg_head in Hsuf. rewrite fmap_drop, lookup_drop, Nat.add_0_r in Hsuf.
  subst nx. pose proof (fresh_nodes m) as Hfr.
  destruct (Hlist) as [_ Hsz].
  pose proof (is_list_size_range _ _ _ _ Hlist Hsz) as Hrange.
  unfold bind. rewrite (InsertAfter_exec _ _ _ _ _ _ Hp Hsz).
  set (a := fresh (dom (nodes m))) in *.
  assert (p ≠ a) as Hne by congruence.
  erewrite EraseAfter_exec; cycle 1.
  - simpl. apply lookup_insert_eq.
  - reflexivity.
  - simpl. rewrite lookup_insert_ne by done. apply lookup_insert_eq.
  - done.
  - simpl. apply lookup_insert_eq.
  - simpl. f_equal.
    exact (insert_erase_memory m l p _ a v _ Hp Hfr Hsz Hrange).
Qed.

(** X8.  [PushFront(v)] followed by [PopFront()] gives back the memory it
    started from, bit for bit. *)
Theorem X8_PushFront_PopFront m l c v :
  is_list m l c → (PushFront l v ;;; PopFront l) m = Ok tt m.
Proof.
  intros Hlist.
  destruct (is_list_position m l c 0 l Hlist eq_refl)
    as (v0 & vp & nx & _ & Hp & _ & _).
  pose proof (fresh_nodes m) as Hfr.
  destruct (Hlist) as [_ Hsz].
  pose proof (is_list_size_range _ _ _ _ Hlist Hsz) as Hrange.
  unfold bind. rewrite PushFront_as_InsertAfter. unfold bind, before_begin.
  rewrite (InsertAfter_exec _ _ _ _ _ _ Hp Hsz). unfold ret. cbv beta iota.
  set (a := fresh (dom (nodes m))) in *.
  assert (l ≠ a) as Hne by congruence.
  erewrite PopFront_exec; cycle 1.
  - simpl. apply lookup_insert_eq.
  - reflexivity.
  - simpl. rewrite lookup_insert_ne by done. apply lookup_insert_eq.
  - done.
  - simpl. apply lookup_insert_eq.
  - simpl. f_equal.
    exact (insert_erase_memory m l l _ a v _ Hp Hfr Hsz Hrange).
Qed.

(** X9.  [swap] (the member and the free function alike) exchanges the
    chains and the sizes of two lists and touches no node: every node
    keeps its address, value and successor, so an iterator into one list
    now walks the other.  Lists not named are as they were. *)
Theorem X9_swap_exchanges m A B ca cb :
  wf m → is_list m A ca → is_list m B cb →
  ∃ m',
    swap A B m = Ok tt m'
    ∧ free_swap A B m = Ok tt m'
    ∧ wf m'
    ∧ is_list m' A cb ∧ is_list m' B ca
    ∧ size_ m' !! A = size_ m !! B ∧ size_ m' !! B = size_ m !! A
    ∧ (∀ a, a ≠ A → a ≠ B → nodes m' !! a = nodes m !! a)
    ∧ (∀ l2 c2, l2 ≠ A → l2 ≠ B → is_list m l2 c2 → is_list m' l2 c2).
Proof.
  intros [σ Hm] HA HB.
  pose proof (models_lookup _ _ _ _ Hm HA) as HσA.
  pose proof (models_lookup _ _ _ _ Hm HB) as HσB.
  destruct (swap_spec m σ A B ca cb Hm HσA HσB) as (m' & Hrun & Hm').
  assert (is_list m' A cb) as HA'.
  { eapply models_is_list; [exact Hm'|]. apply lookup_insert_eq. }
  assert (is_list m' B ca) as HB'.
  { eapply models_is_list; [exact Hm'|].
    destruct (decide (A = B)) as [->|Hne].
    - rewrite lookup_insert_eq. f_equal. exact (is_list_det _ _ _ _ HB HA).
    - rewrite lookup_insert_ne by done. apply lookup_insert_eq. }
  exists m'. split; [done|]. split; [done|]. split; [by eexists|].
  split; [done|]. split; [done|].
  split; [by destruct HA' as [_ ->], HB as [_ ->]|].
  split; [by destruct HB' as [_ ->], HA as [_ ->]|]. split.
  - intros a HaA HaB.
    destruct HA as [(n1 & Hn1 & _) Hs1], HB as [(n2 & Hn2 & _) Hs2].
    destruct (decide (A = B)) as [->|Hne].
    + rewrite (swap_self _ _ _ _ Hn1 Hs1) in Hrun. by injection Hrun as <-.
    + rewrite (swap_exec _ _ _ _ _ _ _ Hne Hn1 Hn2 Hs1 Hs2) in Hrun.
      injection Hrun as <-. simpl. by rewrite !lookup_insert_ne.
  - intros l2 c2 HnA HnB H2. eapply models_is_list; [exact Hm'|].
    rewrite !lookup_insert_ne by done. by eapply models_lookup.
Qed.

(** X10.  Swapping two lists twice gives back the memory it started
    from, bit for bit; swapping a list with itself changes nothing. *)
Theorem X10_swap_twice m A B ca cb :
  is_list m A ca → is_list m B cb →
  (swap A B ;;; swap A B) m = Ok tt m ∧ swap A A m = Ok tt m.
Proof.
  intros [(n1 & Hn1 & _) Hs1] [(n2 & Hn2 & _) Hs2].
  split; [|by eapply swap_self].
  unfold bind. destruct (decide (A = B)) as [->|Hne].
  { rewrite (swap_self _ _ _ _ Hn1 Hs1). by eapply swap_self. }
  rewrite (swap_exec _ _ _ _ _ _ _ Hne Hn1 Hn2 Hs1 Hs2).
  erewrite (swap_exec _ A B); cycle 1.
  - done.
  - simpl. rewrite lookup_insert_ne by done. apply lookup_insert_eq.
  - simpl. apply lookup_insert_eq.
  - simpl. rewrite lookup_insert_ne by done. apply lookup_insert_eq.
  - simpl. apply lookup_insert_eq.
  - simpl. f_equal. destruct m as [h s]. simpl in *. f_equal.
    + apply map_eq. intros k.
      destruct (decide (k = B)) as [->|HkB].
      { rewrite lookup_insert_eq, Hn2. by destruct n2. }
      rewrite lookup_insert_ne by done.
      destruct (decide (k = A)) as [->|HkA].
      { rewrite lookup_insert_eq, Hn1. by destruct n1. }
      by rewrite !lookup_insert_ne.
    + apply map_eq. intros k.
      destruct (decide (k = B)) as [->|HkB].
      { by rewrite lookup_insert_eq, Hs2. }
      rewrite lookup_insert_ne by done.
      destruct (decide (k = A)) as [->|HkA].
      { by rewrite lookup_insert_eq, Hs1. }
      by rewrite !lookup_insert_ne.
Qed.

Lemma iter_advance_spec m l c : ∀ n i,
  is_list m l c → (i + n ≤ length c)%nat →
  iter_advance n (mkIter (c.*1 !! i)) m = Ok (mkIter (c.*1 !! (i + n)%nat)) m.
Proof.
  induction n as [|n IH]; intros i Hlist Hle.
  - simpl. by rewrite Nat.add_0_r.
  - destruct (lookup_lt_is_Some_2 c i) as [[e ve] He]; [lia|].
    simpl. unfold bind.
    assert (c.*1 !! i = Some e) as -> by (by rewrite list_lookup_fmap, He).
    rewrite (iter_incr_cell _ _ _ _ _ _ Hlist He).
    rewrite IH by (done || lia). do 3 f_equal. lia.
Qed.

(** X11.  Walking a list with iterators: [++before_begin()] is [begin()];
    [i] increments from [begin()] stand on the [i]-th node, where [*it]
    reads its value and [it++] hands back that same position while
    moving on; [size] increments reach [end()]. *)
Theorem X11_iterator_walk m l c :
  is_list m l c →
  iter_incr (before_begin l) m = begin l m
  ∧ (∀ i e v, c !! i = Some (e, v) →
       (b <- begin l ;; iter_advance i b) m = Ok (mkIter (Some e)) m
       ∧ iter_bool (mkIter (Some e)) = true
       ∧ iter_deref (mkIter (Some e)) m = Ok v m
       ∧ iter_incr (mkIter (Some e)) m = Ok (mkIter (c.*1 !! S i)) m
       ∧ iter_post_incr (mkIter (Some e)) m
         = Ok (mkIter (Some e), mkIter (c.*1 !! S i)) m)
  ∧ (b <- begin l ;; iter_advance (length c) b) m = Ok end_ m
  ∧ iter_bool end_ = false.
Proof.
  intros Hlist. split; [|split; [|split; [|done]]].
  - destruct (is_list_head _ _ _ Hlist) as [v0 Hhd].
    exec_unfold. destruct NDEBUG; simpl; by rewrite Hhd.
  - intros i e v He. pose proof (lookup_lt_Some _ _ _ He) as Hlt.
    pose proof (is_list_cell _ _ _ _ _ _ Hlist He) as Hcell.
    split.
    { unfold bind. rewrite (cbegin_list _ _ _ Hlist : begin l m = _).
      rewrite (iter_advance_spec m l c i 0 Hlist) by lia. simpl.
      by rewrite list_lookup_fmap, He. }
    split; [done|]. split; [by eapply iter_deref_cell|].
    split; [by eapply iter_incr_cell|].
    unfold iter_post_incr. exec_unfold. destruct NDEBUG; simpl; by rewrite Hcell.
  - unfold bind. rewrite (cbegin_list _ _ _ Hlist : begin l m = _).
    rewrite (iter_advance_spec m l c (length c) 0 Hlist) by lia. simpl.
    by rewrite lookup_ge_None_2 by (rewrite length_fmap; lia).
Qed.

Lemma PushFront_all_spec elems : ∀ m σ l c,
  models m σ → σ !! l = Some c →
  ∃ m' new, PushFront_all l elems m = Ok tt m'
            ∧ models m' (<[l := new ++ c]> σ)
            ∧ new.*2 = rev elems.
Proof using NDEBUG.
  induction elems as [|v rest IH]; intros m σ l c Hm Hc.
  - exists m, []. split; [done|]. split; [|done]. by rewrite insert_id.
  - destruct (PushFront_spec m σ l c v Hm Hc) as (m1 & Hrun1 & Hm1).
    destruct (IH m1 _ l _ Hm1 (lookup_insert_eq _ _ _)) as (m' & new & Hrun & Hm' & Hnew).
    exists m', (new ++ [(fresh (dom (nodes m)), v)]). split; [|split].
    + simpl. unfold bind. by rewrite Hrun1.
    + rewrite insert_insert_eq in Hm'. by rewrite <- app_assoc.
    + rewrite fmap_app, Hnew. simpl. done.
Qed.

(** X12.  Pushing the elements of a sequence to the front one after the
    other leaves them in front of the old contents in reverse order. *)
Theorem X12_PushFront_reverses m l c elems :
  wf m → is_list m l c →
  ∃ m' cells,
    PushFront_all l elems m = Ok tt m'
    ∧ wf m'
    ∧ traverse l m' = Ok cells m'
    ∧ cells.*2 = rev elems ++ c.*2
    ∧ drop (length elems) cells = c.
Proof using NDEBUG.
  intros [σ Hm] Hlist. pose proof (models_lookup _ _ _ _ Hm Hlist) as Hc.
  destruct (PushFront_all_spec elems m σ l c Hm Hc) as (m' & new & Hrun & Hm' & Hnew).
  pose proof (models_is_list _ _ _ _ Hm' (lookup_insert_eq _ _ _)) as Hlist'.
  exists m', (new ++ c). split; [done|]. split; [by eexists|].
  split; [by apply traverse_spec|]. split; [by rewrite fmap_app, Hnew|].
  apply drop_app_length'.
  by rewrite <- (length_fmap snd new), Hnew, length_rev.
Qed.




(** ** Nothing is lost *)

Lemma accounted_no_leak m σ : models m σ → accounted m σ ↔ no_leak m.
Proof.
  intros Hm. pose proof Hm as (Hd & _).
  assert (Hlive : ∀ a, is_Some (σ !! a) ↔ live m a).
  { intros a. unfold live. by rewrite <- !elem_of_dom, Hd. }
  split; intros H a Ha; destruct (H a Ha) as [Hl|(l & c & Hc & Hin)].
  - left. by apply Hlive.
  - right. exists l, c. split; [by eapply models_is_list|done].
  - left. by apply Hlive.
  - right. exists l, c. split; [by eapply models_lookup|done].
Qed.

(** An update of one list loses nothing when the nodes it adds are
    nodes of the new chain and the nodes it drops from the chain are
    freed. *)
Lemma no_leak_update m m' σ l c c' :
  models m σ → no_leak m → σ !! l = Some c →
  models m' (<[l := c']> σ) →
  (∀ b, is_Some (nodes m' !! b) → is_Some (nodes m !! b) ∨ b ∈ c'.*1) →
  (∀ b, b ∈ c.*1 → b ∈ c'.*1 ∨ nodes m' !! b = None) →
  no_leak m'.
Proof.
  intros Hm Hno Hc Hm' Hnew Hold.
  apply (accounted_no_leak _ _ Hm'). apply (accounted_no_leak _ _ Hm) in Hno.
  intros b Hb. destruct (Hnew b Hb) as [Hlive|Hin].
  - destruct (Hno b Hlive) as [[cb Hcb]|(l2 & c2 & H2 & Hin)].
    + left. destruct (decide (b = l)) as [->|Hne].
      * rewrite lookup_insert_eq. eauto.
      * rewrite lookup_insert_ne by done. eauto.
    + destruct (decide (l2 = l)) as [->|Hne].
      * rewrite Hc in H2. injection H2 as <-.
        destruct (Hold b Hin) as [Hin'|Hfreed].
        -- right. exists l, c'. by rewrite lookup_insert_eq.
        -- rewrite Hfreed in Hb. by destruct Hb.
      * right. exists l2, c2. by rewrite lookup_insert_ne.
  - right. exists l, c'. by rewrite lookup_insert_eq.
Qed.

Lemma InsertAfter_no_leak m σ l c i p v it m' :
  models m σ → no_leak m → σ !! l = Some c → (l :: c.*1) !! i = Some p →
  InsertAfter l (mkIter (Some p)) v m = Ok it m' → no_leak m'.
Proof.
  intros Hm Hno Hc Hi Hrun.
  destruct (InsertAfter_spec m σ l c i p v Hm Hc Hi) as (m1 & Hrun1 & Hm1).
  rewrite Hrun1 in Hrun. injection Hrun as _ <-.
  pose proof (models_is_list _ _ _ _ Hm Hc) as Hlist.
  destruct (is_list_position _ _ _ _ _ Hlist Hi) as (v0 & vp & nx & _ & Hp & _).
  destruct Hlist as [_ Hsz].
  rewrite (InsertAfter_exec _ _ _ _ _ _ Hp Hsz) in Hrun1. injection Hrun1 as <-.
  eapply (no_leak_update m _ σ l c _ Hm Hno Hc Hm1); simpl.
  - intros b Hb. destruct (decide (b = p)) as [->|Hbp]; [left; eauto|].
    rewrite lookup_insert_ne in Hb by done.
    destruct (decide (b = fresh (dom (nodes m)))) as [->|Hba].
    + right. rewrite fmap_app, elem_of_app. right. simpl. left.
    + left. by rewrite lookup_insert_ne in Hb.
  - intros b Hb. left. rewrite <- (take_drop i c) in Hb.
    rewrite fmap_app, elem_of_app in Hb. rewrite fmap_app, elem_of_app.
    destruct Hb; [by left|right]. simpl. by right.
Qed.

Lemma EraseAfter_no_leak m σ l c i p it m' :
  models m σ → no_leak m → σ !! l = Some c → (l :: c.*1) !! i = Some p →
  (i < length c)%nat →
  EraseAfter l (mkIter (Some p)) m = Ok it m' → no_leak m'.
Proof.
  intros Hm Hno Hc Hi Hlt Hrun.
  destruct (EraseAfter_spec m σ l c i p Hm Hc Hi Hlt) as (m1 & Hrun1 & Hm1).
  rewrite Hrun1 in Hrun. injection Hrun as _ <-.
  pose proof (models_is_list _ _ _ _ Hm Hc) as Hlist.
  destruct (is_list_position _ _ _ _ _ Hlist Hi)
    as (v0 & vp & nx & _ & Hp & _ & Hsuf & _ & Hn2).
  destruct (lookup_lt_is_Some_2 c i Hlt) as [[e ve] He].
  rewrite (drop_S _ _ _ He) in Hsuf, Hn2. simpl in Hsuf.
  destruct Hsuf as (-> & nx2 & Hea & _).
  assert (p ≠ e) as Hpe by (intros ->; apply Hn2; simpl; left).
  destruct Hlist as [_ Hsz].
  rewrite (EraseAfter_exec _ _ _ _ _ _ _ Hp eq_refl Hea Hpe Hsz) in Hrun1.
  injection Hrun1 as _ <-.
  eapply (no_leak_update m _ σ l c _ Hm Hno Hc Hm1); simpl.
  - intros b Hb. left. destruct (decide (b = e)) as [->|Hbe].
    { rewrite lookup_delete_eq in Hb. by destruct Hb. }
    rewrite lookup_delete_ne in Hb by done.
    destruct (decide (b = p)) as [->|Hbp]; [eauto|].
    by rewrite lookup_insert_ne in Hb.
  - intros b Hb. destruct (decide (b = e)) as [->|Hbe].
    { right. apply lookup_delete_eq. }
    left. apply list_elem_of_fmap in Hb as ([b' vb] & Heq & Hin).
    simpl in Heq. subst b'. apply list_elem_of_fmap. exists (b, vb).
    split; [done|]. apply list_elem_of_lookup in Hin as [j Hj].
    apply list_elem_of_lookup.
    destruct (decide (j < i)%nat) as [Hji|Hji].
    + exists j. by rewrite list_lookup_delete_lt.
    + destruct (decide (j = i)) as [->|Hneq].
      * rewrite He in Hj. by injection Hj as -> ->.
      * exists (Nat.pred j). rewrite list_lookup_delete_ge by lia.
        by replace (S (Nat.pred j)) with j by lia.
Qed.

Lemma iter_assign_no_leak m σ l c i p vp v m' :
  models m σ → no_leak m → σ !! l = Some c → c !! i = Some (p, vp) →
  iter_assign (mkIter (Some p)) v m = Ok tt m' → no_leak m'.
Proof.
  intros Hm Hno Hc Hi Hrun.
  destruct (iter_assign_spec m σ l c i p vp v Hm Hc Hi) as (m1 & Hrun1 & Hm1).
  rewrite Hrun1 in Hrun. injection Hrun as <-.
  pose proof (is_list_cell _ _ _ _ _ _ (models_is_list _ _ _ _ Hm Hc) Hi) as Hp.
  rewrite (iter_assign_exec _ _ _ _ Hp) in Hrun1. injection Hrun1 as <-.
  eapply (no_leak_update m _ σ l c _ Hm Hno Hc Hm1); simpl.
  - intros b Hb. left. destruct (decide (b = p)) as [->|Hbp]; [eauto|].
    by rewrite lookup_insert_ne in Hb.
  - intros b Hb. left. rewrite list_fmap_insert. simpl.
    rewrite list_insert_id; [done|]. by rewrite list_lookup_fmap, Hi.
Qed.

Lemma Clear_no_leak m σ l c m' :
  models m σ → no_leak m → σ !! l = Some c →
  Clear l m = Ok tt m' → no_leak m'.
Proof.
  intros Hm Hno Hc Hrun.
  destruct (Clear_spec m σ l c Hm Hc) as (m1 & Hrun1 & Hm1 & Hgone).
  rewrite Hrun1 in Hrun. injection Hrun as <-.
  pose proof (models_is_list _ _ _ _ Hm Hc) as Hlist.
  pose proof (is_list_NoDup _ _ _ Hlist) as Hnd.
  apply NoDup_cons in Hnd as [Hlc _].
  destruct Hlist as [(hd & Hhd & Hseg) Hsz].
  destruct (Clear_loop_spec l c (S (size (nodes m))) m hd Hhd Hseg Hlc)
    as (m2 & Hrun2 & Hsz2 & Hl2 & Hkeep & _).
  { pose proof (lseg_length _ _ _ Hseg). lia. }
  unfold Clear, bind in Hrun1. rewrite Hrun2 in Hrun1.
  unfold set_size in Hrun1. rewrite Hsz2, Hsz in Hrun1. injection Hrun1 as <-.
  eapply (no_leak_update m _ σ l c _ Hm Hno Hc Hm1); simpl.
  - intros b Hb. left. destruct (decide (b = l)) as [->|Hbl]; [eauto|].
    destruct (decide (b ∈ c.*1)) as [Hin|Hnin].
    + specialize (Hgone b Hin). simpl in Hgone. rewrite Hgone in Hb.
      by destruct Hb.
    + by rewrite Hkeep in Hb.
  - intros b Hb. right. exact (Hgone b Hb).
Qed.

Lemma swap_no_leak m σ l1 l2 c1 c2 m' :
  models m σ → no_leak m → σ !! l1 = Some c1 → σ !! l2 = Some c2 →
  swap l1 l2 m = Ok tt m' → no_leak m'.
Proof.
  intros Hm Hno H1 H2 Hrun.
  destruct (swap_spec m σ l1 l2 c1 c2 Hm H1 H2) as (m1 & Hrun1 & Hm1).
  rewrite Hrun1 in Hrun. injection Hrun as <-.
  destruct (models_is_list _ _ _ _ Hm H1) as [(n1 & Hn1 & _) Hs1].
  destruct (models_is_list _ _ _ _ Hm H2) as [(n2 & Hn2 & _) Hs2].
  destruct (decide (l1 = l2)) as [->|Hne].
  { rewrite (swap_self _ _ _ _ Hn1 Hs1) in Hrun1. by injection Hrun1 as <-. }
  rewrite (swap_exec _ _ _ _ _ _ _ Hne Hn1 Hn2 Hs1 Hs2) in Hrun1.
  injection Hrun1 as <-.
  apply (accounted_no_leak _ _ Hm1). apply (accounted_no_leak _ _ Hm) in Hno.
  intros b Hb. simpl in Hb.
  assert (is_Some (nodes m !! b)) as Hlive.
  { destruct (decide (b = l2)) as [->|Hb2]; [eauto|].
    rewrite lookup_insert_ne in Hb by done.
    destruct (decide (b = l1)) as [->|Hb1]; [eauto|].
    by rewrite lookup_insert_ne in Hb. }
  destruct (Hno b Hlive) as [[cb Hcb]|(l & c & Hl & Hin)].
  - left. destruct (decide (b = l1)) as [->|Hb1].
    { rewrite lookup_insert_eq. eauto. }
    rewrite lookup_insert_ne by done.
    destruct (decide (b = l2)) as [->|Hb2].
    { rewrite lookup_insert_eq. eauto. }
    rewrite lookup_insert_ne by done. eauto.
  - right. destruct (decide (l = l1)) as [->|Hl1].
    { exists l2, c. split; [|done]. rewrite lookup_insert_ne by done.
      rewrite lookup_insert_eq. congruence. }
    destruct (decide (l = l2)) as [->|Hl2].
    { exists l1, c. split; [|done]. rewrite lookup_insert_eq. congruence. }
    exists l, c. split; [|done]. by rewrite !lookup_insert_ne.
Qed.

Lemma ctor_default_no_leak m σ l m' :
  models m σ → no_leak m → ctor_default m = Ok l m' → no_leak m'.
Proof.
  intros Hm Hno Hrun.
  destruct (ctor_default_spec _ _ Hm) as (m1 & Hrun1 & Hm1 & Hfresh & _).
  rewrite Hrun1 in Hrun. injection Hrun as <- <-.
  unfold ctor_default in Hrun1. injection Hrun1 as <-.
  apply (accounted_no_leak _ _ Hm1). apply (accounted_no_leak _ _ Hm) in Hno.
  set (x := fresh (dom (nodes m))) in *.
  intros b Hb. simpl in Hb. destruct (decide (b = x)) as [->|Hbx].
  { left. rewrite lookup_insert_eq. eauto. }
  rewrite lookup_insert_ne in Hb by done.
  destruct (Hno b Hb) as [Hl|(l & c & Hl & Hin)].
  - left. by rewrite lookup_insert_ne.
  - right. exists l, c. split; [|done].
    rewrite lookup_insert_ne; [done|]. intros <-. congruence.
Qed.

Lemma dtor_no_leak m σ l c m' :
  models m σ → no_leak m → σ !! l = Some c →
  dtor l m = Ok tt m' → no_leak m'.
Proof.
  intros Hm Hno Hc Hrun.
  destruct (dtor_spec m σ l c Hm Hc) as (m2 & Hrun2 & Hm2 & _).
  rewrite Hrun2 in Hrun. injection Hrun as <-.
  destruct (Clear_spec m σ l c Hm Hc) as (m1 & Hrun1 & Hm1 & _).
  pose proof (Clear_no_leak _ _ _ _ _ Hm Hno Hc Hrun1) as Hno1.
  unfold dtor, bind in Hrun2. rewrite Hrun1 in Hrun2.
  destruct (nodes m1 !! l) as [hd|] eqn:Hhd; [|done]. injection Hrun2 as <-.
  apply (accounted_no_leak _ _ Hm2). apply (accounted_no_leak _ _ Hm1) in Hno1.
  intros b Hb. simpl in Hb. destruct (decide (b = l)) as [->|Hbl].
  { rewrite lookup_delete_eq in Hb. by destruct Hb. }
  rewrite lookup_delete_ne in Hb by done.
  destruct (Hno1 b Hb) as [Hl|(l2 & c2 & Hl & Hin)].
  - left. rewrite lookup_delete_ne by done.
    by rewrite lookup_insert_ne in Hl.
  - destruct (decide (l2 = l)) as [->|Hne].
    { rewrite lookup_insert_eq in Hl. injection Hl as <-. inversion Hin. }
    right. exists l2, c2. split; [|done].
    rewrite lookup_delete_ne by done. by rewrite lookup_insert_ne in Hl.
Qed.

Lemma commit_temp_no_leak m σ l temp c new m' :
  models m σ → no_leak m → σ !! l = Some c → σ !! temp = Some new → l ≠ temp →
  (swap l temp ;;; dtor temp) m = Ok tt m' → no_leak m'.
Proof.
  intros Hm Hno Hl Ht Hne Hrun.
  destruct (swap_spec _ _ _ _ _ _ Hm Hl Ht) as (m1 & Hswap & Hm1).
  pose proof (swap_no_leak _ _ _ _ _ _ _ Hm Hno Hl Ht Hswap) as Hno1.
  unfold bind in Hrun. rewrite Hswap in Hrun.
  eapply (dtor_no_leak m1 _ temp c); eauto.
  rewrite lookup_insert_ne by done. apply lookup_insert_eq.
Qed.

Lemma Initialize_loop_il_no_leak temp elems : ∀ m σ built node m',
  models m σ → no_leak m → σ !! temp = Some built →
  (temp :: built.*1) !! length built = Some node →
  Initialize_loop_il temp node elems m = Ok tt m' → no_leak m'.
Proof using NDEBUG.
  induction elems as [|v rest IH]; intros m σ built node m' Hm Hno Hb Hnode Hrun.
  - simpl in Hrun. by injection Hrun as <-.
  - pose proof (models_is_list _ _ _ _ Hm Hb) as Hlist.
    destruct (is_list_last _ _ _ _ Hlist Hnode) as [vn Hn].
    destruct Hlist as [_ Hsz].
    destruct (append_exec m temp node vn v _ (λ n, Initialize_loop_il temp n rest) Hn Hsz)
      as (m1 & Hins & Hstep).
    destruct (InsertAfter_spec m σ temp built (length built) node v Hm Hb Hnode)
      as (m1' & Hins' & Hm1).
    pose proof (InsertAfter_no_leak _ _ _ _ _ _ _ _ _ Hm Hno Hb Hnode Hins) as Hno1.
    rewrite Hins in Hins'. injection Hins' as <-.
    rewrite take_ge, drop_all in Hm1 by lia.
    simpl in Hrun. rewrite Hstep in Hrun.
    eapply (IH m1 _ (built ++ [(fresh (dom (nodes m)), v)])); eauto.
    + apply lookup_insert_eq.
    + rewrite fmap_app, length_app. simpl.
      rewrite lookup_cons_ne_0 by lia.
      replace (Nat.pred (length built + 1)) with (length built.*1 + 0)%nat
        by (rewrite length_fmap; lia).
      by rewrite lookup_app_r, Nat.add_comm, Nat.add_sub by lia.
Qed.

Lemma Initialize_loop_copy_no_leak temp other co : ∀ fuel m σ built node j m',
  models m σ → no_leak m → σ !! temp = Some built → σ !! other = Some co →
  temp ≠ other →
  (temp :: built.*1) !! length built = Some node →
  Initialize_loop_copy fuel temp node (mkIter (co.*1 !! j)) m = Ok tt m' →
  no_leak m'.
Proof.
  induction fuel as [|fuel IH];
    intros m σ built node j m' Hm Hno Hb Ho Hne Hnode Hrun; [done|].
  simpl in Hrun. unfold iter_ne, iter_eq, cend, end_ in Hrun. simpl in Hrun.
  destruct (co.*1 !! j) as [e|] eqn:Hj.
  - rewrite bool_decide_eq_false_2 in Hrun by done. simpl in Hrun.
    destruct (lookup_fst_Some _ _ _ Hj) as [ve Hcj].
    pose proof Hm as (_ & Hl & _).
    unfold bind at 1 in Hrun.
    rewrite (iter_deref_cell _ _ _ _ _ _ (Hl _ _ Ho) Hcj) in Hrun.
    pose proof (Hl _ _ Hb) as Hlist.
    destruct (is_list_last _ _ _ _ Hlist Hnode) as [vn Hn].
    destruct Hlist as [_ Hsz].
    destruct (append_exec m temp node vn ve _
                (λ n, it' <- iter_incr (mkIter (Some e)) ;;
                      Initialize_loop_copy fuel temp n it') Hn Hsz)
      as (m1 & Hins & Hstep).
    destruct (InsertAfter_spec m σ temp built (length built) node ve Hm Hb Hnode)
      as (m1' & Hins' & Hm1).
    pose proof (InsertAfter_no_leak _ _ _ _ _ _ _ _ _ Hm Hno Hb Hnode Hins) as Hno1.
    rewrite Hins in Hins'. injection Hins' as <-.
    rewrite take_ge, drop_all in Hm1 by lia.
    set (a := fresh (dom (nodes m))) in *.
    assert (<[temp := built ++ [(a, ve)]]> σ !! other = Some co) as Ho1
      by (by rewrite lookup_insert_ne).
    rewrite Hstep in Hrun. unfold bind at 1 in Hrun.
    pose proof Hm1 as (_ & Hl1 & _).
    rewrite (iter_incr_cell _ _ _ _ _ _ (Hl1 _ _ Ho1) Hcj) in Hrun.
    eapply (IH m1 _ (built ++ [(a, ve)]) a (S j)); eauto.
    + apply lookup_insert_eq.
    + rewrite fmap_app, length_app. simpl.
      rewrite lookup_cons_ne_0 by lia.
      replace (Nat.pred (length built + 1)) with (length built.*1 + 0)%nat
        by (rewrite length_fmap; lia).
      by rewrite lookup_app_r, Nat.add_comm, Nat.add_sub by lia.
  - rewrite bool_decide_eq_true_2 in Hrun by done. simpl in Hrun.
    by injection Hrun as <-.
Qed.

Lemma Initialize_il_no_leak m σ l c elems m' :
  models m σ → no_leak m → σ !! l = Some c →
  Initialize_il l elems m = Ok tt m' → no_leak m'.
Proof using NDEBUG.
  intros Hm Hno Hc Hrun.
  destruct (ctor_default_spec _ _ Hm) as (m1 & Hctor & Hm1 & Hfresh & _).
  pose proof (ctor_default_no_leak _ _ _ _ Hm Hno Hctor) as Hno1.
  set (temp := fresh (dom (nodes m))) in *.
  assert (l ≠ temp) as Hne by congruence.
  destruct (Initialize_loop_il_spec temp elems m1 _ [] temp Hm1)
    as (m2 & new & Hloop & Hm2 & _).
  { apply lookup_insert_eq. }
  { done. }
  pose proof (Initialize_loop_il_no_leak temp elems m1 _ [] temp m2 Hm1 Hno1
                (lookup_insert_eq _ _ _) eq_refl Hloop) as Hno2.
  simpl in Hm2. rewrite insert_insert_eq in Hm2.
  unfold Initialize_il, bind in Hrun. rewrite Hctor, Hloop in Hrun.
  eapply (commit_temp_no_leak m2 _ l temp c new); eauto.
  - by rewrite lookup_insert_ne.
  - apply lookup_insert_eq.
Qed.

Lemma Initialize_copy_no_leak m σ l other c co m' :
  models m σ → no_leak m → σ !! l = Some c → σ !! other = Some co →
  Initialize_copy l other m = Ok tt m' → no_leak m'.
Proof.
  intros Hm Hno Hc Ho Hrun.
  destruct (ctor_default_spec _ _ Hm) as (m1 & Hctor & Hm1 & Hfresh & _).
  pose proof (ctor_default_no_leak _ _ _ _ Hm Hno Hctor) as Hno1.
  set (temp := fresh (dom (nodes m))) in *.
  assert (l ≠ temp) as Hne by congruence.
  assert (temp ≠ other) as Hne' by congruence.
  assert (<[temp := []]> σ !! other = Some co) as Ho1 by (by rewrite lookup_insert_ne).
  pose proof Hm1 as (_ & Hl1 & _).
  destruct (Initialize_loop_copy_spec temp other co (S (size (nodes m1))) m1 _ [] temp 0
              Hm1) as (m2 & new & Hloop & Hm2 & _); try done.
  { apply lookup_insert_eq. }
  { pose proof (is_list_length _ _ _ (Hl1 _ _ Ho1)). lia. }
  pose proof (Initialize_loop_copy_no_leak temp other co _ m1 _ [] temp 0 m2 Hm1 Hno1
                (lookup_insert_eq _ _ _) Ho1 Hne' eq_refl Hloop) as Hno2.
  simpl in Hm2. rewrite insert_insert_eq in Hm2.
  unfold Initialize_copy, bind in Hrun. rewrite Hctor in Hrun.
  rewrite (cbegin_list _ _ _ (Hl1 _ _ Ho1)), Hloop in Hrun.
  eapply (commit_temp_no_leak m2 _ l temp c new); eauto.
  - by rewrite lookup_insert_ne.
  - apply lookup_insert_eq.
Qed.

Lemma mutate_no_leak m σ l c mu m' :
  models m σ → no_leak m → σ !! l = Some c → valid_mutation m l mu →
  mutate l mu m = Ok tt m' → no_leak m'.
Proof.
  intros Hm Hno Hc Hvalid Hrun. pose proof Hm as (_ & Hl & _).
  destruct mu as [v|pos v| |pos| |pos v]; simpl in Hvalid, Hrun.
  - rewrite PushFront_as_InsertAfter in Hrun. unfold bind, before_begin in Hrun.
    destruct (InsertAfter_spec m σ l c 0 l v Hm Hc eq_refl) as (m1 & Hrun1 & _).
    rewrite Hrun1 in Hrun. injection Hrun as <-.
    by eapply (InsertAfter_no_leak m σ l c 0 l v).
  - destruct (position_index _ _ _ _ _ Hm Hc Hvalid) as (i & p & -> & Hi).
    unfold bind in Hrun.
    destruct (InsertAfter_spec m σ l c i p v Hm Hc Hi) as (m1 & Hrun1 & _).
    rewrite Hrun1 in Hrun. injection Hrun as <-.
    by eapply (InsertAfter_no_leak m σ l c i p v).
  - destruct c as [|[e ve] c].
    + destruct (Hl _ _ Hc) as [(hd & Hhd & Hseg) _]. simpl in Hseg.
      destruct NDEBUG eqn:E.
      * rewrite (PopFront_guard _ _ _ E Hhd Hseg) in Hrun. by injection Hrun as <-.
      * by rewrite (PopFront_assert _ _ _ E Hhd Hseg) in Hrun.
    + destruct (EraseAfter_spec m σ l ((e, ve) :: c) 0 l Hm Hc eq_refl)
        as (m1 & Hrun1 & _); [simpl; lia|].
      destruct (PopFront_spec m σ l (e, ve) c Hm Hc) as (m2 & Hrun2 & _).
      rewrite Hrun2 in Hrun. injection Hrun as <-.
      assert (m2 = m1) as ->.
      { pose proof (is_list_NoDup _ _ _ (Hl _ _ Hc)) as Hnd.
        destruct (Hl _ _ Hc) as [(hd & Hhd & Hseg) Hsz].
        simpl in Hseg. destruct Hseg as (Hnx & nx & He & _).
        assert (l ≠ e) as Hne.
        { intros ->. apply NoDup_cons in Hnd as [Hnd _]. apply Hnd. simpl. left. }
        rewrite (EraseAfter_exec _ _ _ _ _ _ _ Hhd Hnx He Hne Hsz) in Hrun1.
        rewrite (PopFront_exec _ _ _ _ _ _ Hhd Hnx He Hne Hsz) in Hrun2.
        injection Hrun1 as _ <-. by injection Hrun2 as <-. }
      eapply (EraseAfter_no_leak m σ l ((e, ve) :: c) 0 l); eauto. simpl. lia.
  - assert (∀ it, (EraseAfter l pos ;;; ret tt) m = Ok tt m' →
                  EraseAfter l pos m = Ok it m → m' = m) as Hnoop.
    { intros it H1 H2. unfold bind in H1. rewrite H2 in H1. by injection H1. }
    destruct Hvalid as [Hnull|Hvalid].
    + destruct pos as [q]. simpl in Hnull. subst q. destruct NDEBUG eqn:E.
      * by rewrite (Hnoop _ Hrun (EraseAfter_guard_null m l E)).
      * unfold bind in Hrun. by rewrite (EraseAfter_assert_null m l E) in Hrun.
    + destruct (position_index _ _ _ _ _ Hm Hc Hvalid) as (i & p & -> & Hi).
      destruct (decide (i < length c)%nat) as [Hlt|Hge].
      * destruct (EraseAfter_spec m σ l c i p Hm Hc Hi Hlt) as (m1 & Hrun1 & _).
        unfold bind in Hrun. rewrite Hrun1 in Hrun. injection Hrun as <-.
        by eapply (EraseAfter_no_leak m σ l c i p).
      * assert (i = length c) as ->.
        { apply lookup_lt_Some in Hi. simpl in Hi. rewrite length_fmap in Hi. lia. }
        destruct (is_list_last _ _ _ _ (Hl _ _ Hc) Hi) as [vp Hp].
        destruct NDEBUG eqn:E.
        -- by rewrite (Hnoop _ Hrun (EraseAfter_guard_last m l p _ E Hp eq_refl)).
        -- unfold bind in Hrun.
           by rewrite (EraseAfter_assert_last m l p _ E Hp eq_refl) in Hrun.
  - by eapply Clear_no_leak.
  - destruct Hvalid as (c' & p & Hlist & Hpos & Hin).
    rewrite (models_lookup _ _ _ _ Hm Hlist) in Hc. injection Hc as ->.
    destruct pos as [q]. simpl in Hpos. subst q.
    apply list_elem_of_lookup in Hin as [i Hi].
    destruct (lookup_fst_Some _ _ _ Hi) as [vp Hci].
    eapply (iter_assign_no_leak m σ l c i p vp v); eauto.
    by eapply models_lookup.
Qed.

Lemma run_no_leak m σ o m' :
  models m σ → no_leak m → enabled m o → run o m = Ok tt m' → no_leak m'.
Proof.
  intros Hm Hno Hen Hrun.
  destruct o as [|elems|other|other|this other|this other|this|this other|this mu];
    simpl in Hen, Hrun; unfold bind in Hrun.
  - destruct (ctor_default m) as [l m1| | |] eqn:Hctor; try done.
    injection Hrun as <-. by eapply ctor_default_no_leak.
  - destruct (ctor_default_spec _ _ Hm) as (m1 & Hctor & Hm1 & _).
    pose proof (ctor_default_no_leak _ _ _ _ Hm Hno Hctor) as Hno1.
    unfold ctor_il, bind in Hrun. rewrite Hctor in Hrun.
    destruct (Initialize_il _ elems m1) as [[] m2| | |] eqn:Hinit; try done.
    injection Hrun as <-.
    eapply (Initialize_il_no_leak m1 _ _ []); eauto. apply lookup_insert_eq.
  - destruct (live_lookup _ _ _ Hm Hen) as [co Ho].
    destruct (ctor_default_spec _ _ Hm) as (m1 & Hctor & Hm1 & Hfresh & _).
    pose proof (ctor_default_no_leak _ _ _ _ Hm Hno Hctor) as Hno1.
    unfold ctor_copy, bind in Hrun. rewrite Hctor in Hrun.
    destruct (Initialize_copy _ other m1) as [[] m2| | |] eqn:Hinit; try done.
    injection Hrun as <-.
    eapply (Initialize_copy_no_leak m1 _ _ other [] co); eauto.
    + apply lookup_insert_eq.
    + rewrite lookup_insert_ne; [done|]. congruence.
  - destruct (live_lookup _ _ _ Hm Hen) as [co Ho].
    destruct (ctor_default_spec _ _ Hm) as (m1 & Hctor & Hm1 & Hfresh & _).
    pose proof (ctor_default_no_leak _ _ _ _ Hm Hno Hctor) as Hno1.
    unfold ctor_move, bind in Hrun. rewrite Hctor in Hrun.
    destruct (swap _ other m1) as [[] m2| | |] eqn:Hswap; try done.
    injection Hrun as <-.
    eapply (swap_no_leak m1 _ _ other [] co); eauto.
    + apply lookup_insert_eq.
    + rewrite lookup_insert_ne; [done|]. congruence.
  - destruct Hen as [Hthis Hother].
    destruct (live_lookup _ _ _ Hm Hthis) as [c Hc].
    destruct (live_lookup _ _ _ Hm Hother) as [co Ho].
    unfold copy_assign, bind in Hrun. case_bool_decide as Hne.
    + destruct (Initialize_copy this other m) as [[] m2| | |] eqn:Hinit; try done.
      injection Hrun as <-. by eapply (Initialize_copy_no_leak m σ this other c co).
    + by injection Hrun as <-.
  - rewrite move_assign_exec in Hrun. by injection Hrun as <-.
  - destruct (live_lookup _ _ _ Hm Hen) as [c Hc]. by eapply dtor_no_leak.
  - destruct Hen as [Hthis Hother].
    destruct (live_lookup _ _ _ Hm Hthis) as [c Hc].
    destruct (live_lookup _ _ _ Hm Hother) as [co Ho].
    by eapply (swap_no_leak m σ this other c co).
  - destruct Hen as [Hthis Hvalid].
    destruct (live_lookup _ _ _ Hm Hthis) as [c Hc]. by eapply mutate_no_leak.
Qed.

(** X14.  No memory reachable through the public interface holds a node
    that no list owns: every node in memory is the sentinel of a live
    list or lies on the chain of exactly one live list.  Whatever was
    allocated is either still in a list or has been freed. *)
Theorem X14_no_leak m :
  reachable m →
  no_leak m
  ∧ (∀ a l1 l2 c1 c2, is_list m l1 c1 → is_list m l2 c2 →
       a ∈ c1.*1 → a ∈ c2.*1 → l1 = l2)
  ∧ (∀ a l c, is_list m l c → a ∈ c.*1 → ¬ live m a).
Proof.
  intros Hreach. split.
  - induction Hreach as [|m o m' Hreach IH Hen Hrun].
    + intros a [n Hn]. simpl in Hn. by rewrite lookup_empty in Hn.
    + destruct (reachable_wf m Hreach) as [σ Hm]. by eapply run_no_leak.
  - destruct (reachable_wf m Hreach) as [σ Hm].
    pose proof Hm as (Hd & _ & Hdisj & Hobj). split.
    + intros a l1 l2 c1 c2 H1 H2 Ha1 Ha2.
      eapply Hdisj; eauto using models_lookup.
    + intros a l c Hlist Ha Hlive.
      pose proof (Hobj _ _ _ (models_lookup _ _ _ _ Hm Hlist) Ha) as Hnone.
      apply elem_of_dom in Hlive. rewrite <- Hd in Hlive.
      apply elem_of_dom in Hlive as [? ?]. congruence.
Qed.

(** X15.  Copy assignment [B = A] to another list frees every node [B]
    held before, so each iterator into the old [B] is left dangling,
    while [A] and its nodes are untouched and the iterators into [A]
    read what they read before. *)
Theorem X15_copy_assign_frees_old m A B ca cb :
  wf m → is_list m A ca → is_list m B cb → B ≠ A →
  ∃ m',
    copy_assign B A m = Ok B m'
    ∧ (∀ b, b ∈ cb.*1 →
         nodes m' !! b = None ∧ iter_deref (mkIter (Some b)) m' = Undefined)
    ∧ is_list m' A ca
    ∧ (∀ e ve, (e, ve) ∈ ca → iter_deref (mkIter (Some e)) m' = Ok ve m').
Proof.
  intros [σ Hm] HA HB Hne.
  pose proof (models_lookup _ _ _ _ Hm HA) as HσA.
  pose proof (models_lookup _ _ _ _ Hm HB) as HσB.
  destruct (ctor_default_spec _ _ Hm) as (m1 & Hctor & Hm1 & Hfresh & _).
  set (temp := fresh (dom (nodes m))) in *.
  assert (B ≠ temp) as HneB by congruence.
  assert (temp ≠ A) as HneA by congruence.
  assert (<[temp := []]> σ !! A = Some ca) as HA1 by (by rewrite lookup_insert_ne).
  pose proof Hm1 as (_ & Hl1 & _).
  destruct (Initialize_loop_copy_spec temp A ca (S (size (nodes m1))) m1 _ [] temp 0
              Hm1) as (m2 & new & Hloop & Hm2 & _); try done.
  { apply lookup_insert_eq. }
  { pose proof (is_list_length _ _ _ (Hl1 _ _ HA1)). lia. }
  simpl in Hm2. rewrite insert_insert_eq in Hm2.
  destruct (commit_temp m2 _ B temp cb new Hm2) as (m3 & Hcommit & Hm3 & Hgone).
  { by rewrite lookup_insert_ne. }
  { apply lookup_insert_eq. }
  { done. }
  rewrite delete_insert_eq, delete_id in Hm3 by done.
  assert (copy_assign B A m = Ok B m3) as Hrun.
  { unfold copy_assign, bind. rewrite bool_decide_eq_true_2 by done.
    unfold Initialize_copy, bind. rewrite Hctor.
    rewrite (cbegin_list _ _ _ (Hl1 _ _ HA1)), Hloop.
    unfold bind in Hcommit. by rewrite Hcommit. }
  assert (is_list m3 A ca) as HA3.
  { eapply models_is_list; [exact Hm3|]. by rewrite lookup_insert_ne. }
  exists m3. split; [done|]. split; [|split; [done|]].
  - intros b Hb. assert (nodes m3 !! b = None) as Hfreed.
    { apply Hgone. by right. }
    split; [done|by apply iter_deref_freed].
  - intros e ve Hin. by eapply (iter_deref_in m3 A).
Qed.

Lemma seq_trichotomy xs ys :
  (∀ x y, ltT x y = true → ltT y x = false) →
  (∀ x y, eqT x y = true ↔ ltT x y = false ∧ ltT y x = false) →
  seq_equalb xs ys = negb (seq_lessb xs ys) && negb (seq_lessb ys xs)
  ∧ seq_lessb xs ys && seq_lessb ys xs = false.
Proof.
  intros Hasym Heq. revert ys.
  induction xs as [|x xs IH]; intros [|y ys]; simpl; try done.
  specialize (IH ys). pose proof (Hasym x y) as Hxy. pose proof (Hasym y x) as Hyx.
  pose proof (Heq x y) as He.
  destruct (ltT x y), (ltT y x), (eqT x y); simpl; try done;
    try (by specialize (Hxy eq_refl)).
  - destruct He as [He _]. by destruct (He eq_refl).
  - destruct He as [He _]. by destruct (He eq_refl).
  - destruct He as [_ He]. by specialize (He (conj eq_refl eq_refl)).
Qed.

(** X16.  For an element type whose [<] is asymmetric and whose [==]
    holds exactly when neither element is less than the other, the
    operators agree with one another: exactly one of [a < b], [a == b]
    and [a > b] holds, [a <= b] is [a < b || a == b], and [a >= b] is
    [a > b || a == b]. *)
Theorem X16_comparisons_agree m l r xs ys :
  is_list m l xs → is_list m r ys →
  (∀ x y, ltT x y = true → ltT y x = false) →
  (∀ x y, eqT x y = true ↔ ltT x y = false ∧ ltT y x = false) →
  ∃ beq blt bgt : bool,
    op_eq l r m = Ok beq m ∧ op_lt l r m = Ok blt m ∧ op_gt l r m = Ok bgt m
    ∧ beq = negb blt && negb bgt
    ∧ blt && bgt = false
    ∧ op_le l r m = Ok (blt || beq) m
    ∧ op_ge l r m = Ok (bgt || beq) m
    ∧ op_ne l r m = Ok (blt || bgt) m.
Proof.
  intros Hl Hr Hasym Heq.
  destruct (seq_trichotomy xs.*2 ys.*2 Hasym Heq) as [Htri Hexcl].
  assert (∀ x, eqT x x = true) as Hrefl.
  { intros x. apply Heq. destruct (ltT x x) eqn:E; [|done].
    by rewrite (Hasym x x E) in E. }
  exists (seq_equalb xs.*2 ys.*2), (seq_lessb xs.*2 ys.*2), (seq_lessb ys.*2 xs.*2).
  pose proof (op_eq_spec _ _ _ _ _ Hl Hr) as Hopeq.
  assert (op_eq l r m = Ok (seq_equalb xs.*2 ys.*2) m) as Heq'.
  { rewrite Hopeq. case_decide as E; [|done]. subst r.
    rewrite (is_list_det _ _ _ _ Hr Hl). by rewrite seq_equalb_refl. }
  pose proof (op_lt_spec _ _ _ _ _ Hl Hr) as Hlt.
  pose proof (op_lt_spec _ _ _ _ _ Hr Hl) as Hgt.
  split; [done|]. split; [done|]. split; [done|]. split; [done|].
  split; [done|].
  split; [|split].
  - unfold op_le, bind. rewrite Hgt. f_equal. rewrite Htri.
    by destruct (seq_lessb xs.*2 ys.*2), (seq_lessb ys.*2 xs.*2).
  - unfold op_ge, bind. rewrite Hlt. f_equal. rewrite Htri.
    by destruct (seq_lessb xs.*2 ys.*2), (seq_lessb ys.*2 xs.*2).
  - unfold op_ne, bind. rewrite Heq'. f_equal. rewrite Htri.
    by destruct (seq_lessb xs.*2 ys.*2), (seq_lessb ys.*2 xs.*2).
Qed.

(** X17.  Writing [*it = v] through an iterator that stands on an element
    changes the value of that element and nothing else: the chain, the
    size and the other values are as before, and [*it] then reads [v]. *)
Theorem X17_write_through_iterator m l c i p vp v :
  wf m → is_list m l c → c !! i = Some (p, vp) →
  ∃ m',
    iter_assign (mkIter (Some p)) v m = Ok tt m'
    ∧ wf m'
    ∧ is_list m' l (<[i := (p, v)]> c)
    ∧ iter_deref (mkIter (Some p)) m' = Ok v m'
    ∧ size_ m' = size_ m
    ∧ (∀ b, b ≠ p → nodes m' !! b = nodes m !! b)
    ∧ (∀ l2 c2, l2 ≠ l → is_list m l2 c2 → is_list m' l2 c2).
Proof.
  intros [σ Hm] Hlist Hi. pose proof (models_lookup _ _ _ _ Hm Hlist) as Hc.
  destruct (iter_assign_spec m σ l c i p vp v Hm Hc Hi) as (m' & Hrun & Hm').
  pose proof (models_is_list _ _ _ _ Hm' (lookup_insert_eq _ _ _)) as Hlist'.
  pose proof (is_list_cell _ _ _ _ _ _ Hlist Hi) as Hp.
  exists m'. split; [done|]. split; [by eexists|]. split; [done|]. split.
  { eapply (iter_deref_cell m' l _ i); [exact Hlist'|].
    apply list_lookup_insert_eq. by eapply lookup_lt_Some. }
  rewrite (iter_assign_exec _ _ _ _ Hp) in Hrun. injection Hrun as <-. simpl.
  split; [done|]. split.
  - intros b Hb. by rewrite lookup_insert_ne.
  - intros l2 c2 Hne H2. exact (models_other _ _ _ _ _ _ _ Hm Hm' Hne H2).
Qed.

Section Orders.

(** [<] on elements is a strict weak order. *)
Hypothesis lt_irrefl : ∀ x, ltT x x = false.
Hypothesis lt_trans : ∀ x y z, ltT x y = true → ltT y z = true → ltT x z = true.
Hypothesis lt_incomparable : ∀ x y z,
  ltT x y = false → ltT y x = false → ltT y z = false → ltT z y = false →
  ltT x z = false ∧ ltT z x = false.

Lemma lt_then_incomparable x y z :
  ltT x y = true → ltT y z = false → ltT z y = false → ltT x z = true.
Proof using lt_irrefl lt_trans lt_incomparable.
  intros Hxy Hyz Hzy. destruct (ltT x z) eqn:Hxz; [done|].
  destruct (ltT z x) eqn:Hzx.
  - by rewrite (lt_trans z x y Hzx Hxy) in Hzy.
  - destruct (lt_incomparable x z y Hxz Hzx Hzy Hyz) as [H _]. congruence.
Qed.

Lemma incomparable_then_lt x y z :
  ltT x y = false → ltT y x = false → ltT y z = true → ltT x z = true.
Proof using lt_irrefl lt_trans lt_incomparable.
  intros Hxy Hyx Hyz. destruct (ltT x z) eqn:Hxz; [done|].
  destruct (ltT z x) eqn:Hzx.
  - by rewrite (lt_trans y z x Hyz Hzx) in Hyx.
  - destruct (lt_incomparable y x z Hyx Hxy Hxz Hzx) as [H _]. congruence.
Qed.

Lemma seq_lessb_irrefl xs : seq_lessb xs xs = false.
Proof using lt_irrefl.
  induction xs as [|x xs IH]; simpl; [done|]. by rewrite lt_irrefl.
Qed.

Lemma seq_lessb_trans xs : ∀ ys zs,
  seq_lessb xs ys = true → seq_lessb ys zs = true → seq_lessb xs zs = true.
Proof using lt_irrefl lt_trans lt_incomparable.
  induction xs as [|x xs IH]; intros [|y ys] [|z zs]; simpl; try done.
  destruct (ltT x y) eqn:Hxy.
  - intros _. destruct (ltT y z) eqn:Hyz.
    + intros _. by rewrite (lt_trans x y z Hxy Hyz).
    + destruct (ltT z y) eqn:Hzy; [done|]. intros _.
      by rewrite (lt_then_incomparable x y z Hxy Hyz Hzy).
  - destruct (ltT y x) eqn:Hyx; [done|]. intros H1.
    destruct (ltT y z) eqn:Hyz.
    + intros _. by rewrite (incomparable_then_lt x y z Hxy Hyx Hyz).
    + destruct (ltT z y) eqn:Hzy; [done|]. intros H2.
      destruct (lt_incomparable x y z Hxy Hyx Hyz Hzy) as [-> ->]. eauto.
Qed.

(** X18.  When [<] on elements is a strict weak order, so is [<] on
    lists: no list is less than itself, and [a < b] and [b < c] give
    [a < c]. *)
Theorem X18_less_is_strict_order m a b c xs ys zs :
  is_list m a xs → is_list m b ys → is_list m c zs →
  op_lt a a m = Ok false m
  ∧ (op_lt a b m = Ok true m → op_lt b a m = Ok false m)
  ∧ (op_lt a b m = Ok true m → op_lt b c m = Ok true m →
     op_lt a c m = Ok true m).
Proof using lt_irrefl lt_trans lt_incomparable.
  intros Ha Hb Hc.
  rewrite (op_lt_spec _ _ _ _ _ Ha Ha), (op_lt_spec _ _ _ _ _ Ha Hb),
    (op_lt_spec _ _ _ _ _ Hb Ha), (op_lt_spec _ _ _ _ _ Hb Hc),
    (op_lt_spec _ _ _ _ _ Ha Hc).
  split; [by rewrite seq_lessb_irrefl|]. split.
  - intros [= H1]. destruct (seq_lessb ys.*2 xs.*2) eqn:H2; [|done].
    pose proof (seq_lessb_trans _ _ _ H1 H2) as H. by rewrite seq_lessb_irrefl in H.
  - intros [= H1] [= H2]. by rewrite (seq_lessb_trans _ _ _ H1 H2).
Qed.

End Orders.

Section Equivalence.

(** [==] on elements is an equivalence. *)
Hypothesis eq_refl_T : ∀ x, eqT x x = true.
Hypothesis eq_sym_T : ∀ x y, eqT x y = true → eqT y x = true.
Hypothesis eq_trans_T : ∀ x y z, eqT x y = true → eqT y z = true → eqT x z = true.

Lemma seq_equalb_sym xs : ∀ ys, seq_equalb xs ys = true → seq_equalb ys xs = true.
Proof using eq_sym_T.
  induction xs as [|x xs IH]; intros [|y ys]; simpl; try done.
  rewrite !andb_true_iff. intros [H1 H2]. eauto.
Qed.

Lemma seq_equalb_trans xs : ∀ ys zs,
  seq_equalb xs ys = true → seq_equalb ys zs = true → seq_equalb xs zs = true.
Proof using eq_trans_T.
  induction xs as [|x xs IH]; intros [|y ys] [|z zs]; simpl; try done.
  rewrite !andb_true_iff. intros [H1 H2] [H3 H4]. eauto.
Qed.

(** X19.  When [==] on elements is an equivalence, so is [==] on lists:
    every list equals itself and its copies, [a == b] gives [b == a],
    and [a == b] with [b == c] gives [a == c]. *)
Theorem X19_equal_is_equivalence m a b c xs ys zs :
  is_list m a xs → is_list m b ys → is_list m c zs →
  op_eq a a m = Ok true m
  ∧ (xs.*2 = ys.*2 → op_eq a b m = Ok true m)
  ∧ (op_eq a b m = Ok true m → op_eq b a m = Ok true m)
  ∧ (op_eq a b m = Ok true m → op_eq b c m = Ok true m →
     op_eq a c m = Ok true m).
Proof using eq_refl_T eq_sym_T eq_trans_T.
  intros Ha Hb Hc.
  assert (Heq : ∀ l r cl cr, is_list m l cl → is_list m r cr →
            op_eq l r m = Ok (seq_equalb cl.*2 cr.*2) m).
  { intros l r cl cr Hl Hr. rewrite (op_eq_spec _ _ _ _ _ Hl Hr).
    case_decide as E; [|done]. subst r.
    rewrite (is_list_det _ _ _ _ Hr Hl). by rewrite seq_equalb_refl. }
  rewrite (Heq _ _ _ _ Ha Ha), (Heq _ _ _ _ Ha Hb), (Heq _ _ _ _ Hb Ha),
    (Heq _ _ _ _ Hb Hc), (Heq _ _ _ _ Ha Hc).
  split; [by rewrite seq_equalb_refl|]. split; [|split].
  - intros ->. by rewrite seq_equalb_refl.
  - intros [= H1]. by rewrite (seq_equalb_sym _ _ H1).
  - intros [= H1] [= H2]. by rewrite (seq_equalb_trans _ _ _ H1 H2).
Qed.

End Equivalence.

Lemma to_size_t_succ_ne z : to_size_t (z + 1) ≠ to_size_t z.
Proof.
  unfold to_size_t, size_t_bits. intros H.
  assert ((z + 1 - z) mod 2 ^ 64 = 0) as H0.
  { rewrite Zminus_mod, H, Z.sub_diag. done. }
  replace (z + 1 - z) with 1 in H0 by lia. by vm_compute in H0.
Qed.

(** X20.  [InsertAfter] does not check that the iterator belongs to the
    list it is called on.  Given a position of another list [B], the call
    on [A] succeeds, links the new node into [B]'s chain and counts it in
    [A]: [A]'s chain is as before while its counter is one higher, [B]'s
    chain is one longer while its counter is as before, and memory is no
    longer well formed. *)
Theorem X20_InsertAfter_foreign_iterator m A B ca cb i p v :
  wf m → is_list m A ca → is_list m B cb → A ≠ B →
  (B :: cb.*1) !! i = Some p →
  ∃ a m',
    InsertAfter A (mkIter (Some p)) v m = Ok (mkIter (Some a)) m'
    ∧ (∃ hd, nodes m' !! A = Some hd ∧ lseg (nodes m') (next_node hd) ca None)
    ∧ size_ m' !! A = Some (to_size_t (Z.of_nat (length ca) + 1))
    ∧ (∃ hd, nodes m' !! B = Some hd
             ∧ lseg (nodes m') (next_node hd)
                 (take i cb ++ (a, v) :: drop i cb) None)
    ∧ size_ m' !! B = Some (to_size_t (Z.of_nat (length cb)))
    ∧ (∀ c, ¬ is_list m' A c)
    ∧ (∀ c, ¬ is_list m' B c)
    ∧ ¬ wf m'.
Proof.
  intros [σ Hm] HA HB Hne Hi.
  pose proof (models_lookup _ _ _ _ Hm HA) as HσA.
  pose proof (models_lookup _ _ _ _ Hm HB) as HσB.
  destruct (InsertAfter_spec m σ B cb i p v Hm HσB Hi) as (mB & HrunB & HmB).
  set (a := fresh (dom (nodes m))) in *.
  destruct (is_list_position _ _ _ _ _ HB Hi) as (v0 & vp & nx & _ & Hp & _).
  pose proof HA as [HchainA HszA]. pose proof HB as [_ HszB].
  rewrite (InsertAfter_exec _ _ _ _ _ _ Hp HszB) in HrunB. fold a in HrunB.
  injection HrunB as HmemB.
  pose proof (InsertAfter_exec m A p _ v _ Hp HszA) as HrunA. fold a in HrunA.
  simpl in HrunA.
  set (m' := Mem (<[p := mkNode vp (Some a)]> (<[a := mkNode v nx]> (nodes m)))
                 (<[A := to_size_t (to_size_t (Z.of_nat (length ca)) + 1)]> (size_ m)))
    in *.
  assert (nodes mB = nodes m') as Hnodes by (by rewrite <- HmemB).
  assert (is_list mB A ca) as HA'.
  { eapply models_is_list; [exact HmB|]. by rewrite lookup_insert_ne. }
  assert (is_list mB B (take i cb ++ (a, v) :: drop i cb)) as HB'.
  { eapply models_is_list; [exact HmB|]. apply lookup_insert_eq. }
  assert (HchA : ∃ hd, nodes m' !! A = Some hd
                       ∧ lseg (nodes m') (next_node hd) ca None).
  { rewrite <- Hnodes. by destruct HA'. }
  assert (HchB : ∃ hd, nodes m' !! B = Some hd
                       ∧ lseg (nodes m') (next_node hd)
                           (take i cb ++ (a, v) :: drop i cb) None).
  { rewrite <- Hnodes. by destruct HB'. }
  assert (HsA : size_ m' !! A = Some (to_size_t (Z.of_nat (length ca) + 1))).
  { simpl. by rewrite lookup_insert_eq, to_size_t_succ. }
  assert (HsB : size_ m' !! B = Some (to_size_t (Z.of_nat (length cb)))).
  { simpl. by rewrite lookup_insert_ne. }
  assert (HnoA : ∀ c, ¬ is_list m' A c).
  { intros c [Hch Hsz]. destruct HchA as (hd & Hhd & Hseg).
    destruct Hch as (hd' & Hhd' & Hseg'). rewrite Hhd in Hhd'.
    injection Hhd' as <-. rewrite (lseg_det _ _ _ _ Hseg' Hseg) in Hsz.
    rewrite HsA in Hsz. injection Hsz as Hsz.
    by apply to_size_t_succ_ne in Hsz. }
  assert (HnoB : ∀ c, ¬ is_list m' B c).
  { intros c [Hch Hsz]. destruct HchB as (hd & Hhd & Hseg).
    destruct Hch as (hd' & Hhd' & Hseg'). rewrite Hhd in Hhd'.
    injection Hhd' as <-. rewrite (lseg_det _ _ _ _ Hseg' Hseg) in Hsz.
    rewrite HsB, length_insert_middle in Hsz. injection Hsz as Hsz.
    symmetry in Hsz. rewrite Nat2Z.inj_succ, <- Z.add_1_r in Hsz.
    by apply to_size_t_succ_ne in Hsz. }
  exists a, m'. split; [exact HrunA|]. split; [done|]. split; [done|].
  split; [done|]. split; [done|]. split; [done|]. split; [done|].
  intros Hwf. destruct (wf_live_list m' A Hwf) as [c Hc].
  - unfold live. rewrite HsA. eauto.
  - by apply (HnoA c).
Qed.

End Model.

Arguments Ok {T A} a m.
Arguments AssertFail {T A}.
Arguments Undefined {T A}.
Arguments OutOfFuel {T A}.

Notation "x <- c ;; k" := (bind c (λ x, k))
  (at level 100, c at next level, right associativity,
   format "'[v' x  <-  c  ;;  '/' k ']'").
Notation "c ;;; k" := (bind c (λ _, k))
  (at level 100, right associativity).

(** * Properties stated on lists of integers *)

(** C1.  The move assignment as written: with [A = {1}] and [B = {}],
    [B = std::move(A)] leaves both lists as they were.  [B] is still
    empty and [A] still holds its element, where the specification has [B] take
    over [A]'s elements and [A] end up empty. *)
Theorem C1_move_assign_moves_nothing :
  ∃ m,
    (A <- ctor_il 0 [1] ;; B <- ctor_default 0 ;; ret (A, B)) empty_mem
      = Ok (1%positive, 4%positive) m
    ∧ move_assign 4%positive 1%positive m = Ok 1%positive m
    ∧ traverse true 4%positive m = Ok [] m
    ∧ GetSize 4%positive m = Ok 0 m
    ∧ IsEmpty 1%positive m = Ok false m
    ∧ GetSize 1%positive m = Ok 1 m.
Proof.
  eexists. split; [vm_compute; reflexivity|].
  split; [reflexivity|]. repeat split; vm_compute; reflexivity.
Qed.

(** C7.  On two lists, [==] is true exactly when they have the same
    length and equal elements position by position, [<] is the
    lexicographic order of the element sequences, [!=] negates [==],
    [>] is [<] with the operands exchanged, [<=] negates [>] and [>=]
    negates [<].  On integers: [[] < [1]], [[1,2] < [1,2,3]],
    [[1,2,3] < [1,2,4]] and [[1,2,3] == [1,2,3]]. *)
Theorem C7_comparisons {T} (eqT ltT : T → T → bool) (NDEBUG : bool)
    (m : mem) (l r : loc) (xs ys : list (loc * T)) :
  is_list m l xs → is_list m r ys →
  (∃ beq blt bgt : bool,
     op_eq eqT NDEBUG l r m = Ok beq m
     ∧ op_ne eqT NDEBUG l r m = Ok (negb beq) m
     ∧ op_lt ltT NDEBUG l r m = Ok blt m
     ∧ op_ge ltT NDEBUG l r m = Ok (negb blt) m
     ∧ op_gt ltT NDEBUG l r m = Ok bgt m
     ∧ op_le ltT NDEBUG l r m = Ok (negb bgt) m
     ∧ ((l ≠ r ∨ ∀ x, eqT x x = true) →
        (beq = true ↔ seq_equal eqT xs.*2 ys.*2))
     ∧ (l = r → beq = true)
     ∧ (blt = true ↔ seq_less ltT xs.*2 ys.*2)
     ∧ (bgt = true ↔ seq_less ltT ys.*2 xs.*2))
  ∧ returns (a <- ctor_il 0 [] ;; b <- ctor_il 0 [1] ;;
             op_lt Z.ltb NDEBUG a b) empty_mem true
  ∧ returns (a <- ctor_il 0 [1; 2] ;; b <- ctor_il 0 [1; 2; 3] ;;
             op_lt Z.ltb NDEBUG a b) empty_mem true
  ∧ returns (a <- ctor_il 0 [1; 2; 3] ;; b <- ctor_il 0 [1; 2; 4] ;;
             op_lt Z.ltb NDEBUG a b) empty_mem true
  ∧ returns (a <- ctor_il 0 [1; 2; 3] ;; b <- ctor_il 0 [1; 2; 3] ;;
             op_eq Z.eqb NDEBUG a b) empty_mem true.
Proof.
  intros Hl Hr. split; [by apply comparisons_spec|].
  destruct NDEBUG; repeat split; eexists; vm_compute; reflexivity.
Qed.

(** * The theorems at work on concrete lists

    [{1, 2, 3}] built in empty memory is the list object at address 1 with
    nodes at 3, 4 and 5. *)

Lemma reachable_123 :
  reachable 0 true (mem_after (ctor_il 0 [1; 2; 3]) empty_mem).
Proof.
  apply (reachable_step 0 true empty_mem (OpInitList [1; 2; 3]));
    [apply reachable_empty | exact I | vm_compute; reflexivity].
Qed.

Lemma is_list_123 :
  is_list (mem_after (ctor_il 0 [1; 2; 3]) empty_mem) 1%positive
    [(3%positive, 1); (4%positive, 2); (5%positive, 3)].
Proof.
  split; [|vm_compute; reflexivity].
  eexists. split; [vm_compute; reflexivity|].
  repeat (split; [reflexivity|]; eexists; split; [vm_compute; reflexivity|]).
  reflexivity.
Qed.

Lemma C2_witness :
  let m := mem_after (ctor_il 0 [1; 2; 3]) empty_mem in
  ∃ cells,
    traverse true 1%positive m = Ok cells m
    ∧ (1%positive ∉ cells.*1)
    ∧ size_ m !! 1%positive = Some (to_size_t (Z.of_nat (length cells)))
    ∧ GetSize 1%positive m = Ok (to_int (to_size_t (Z.of_nat (length cells)))) m
    ∧ (Z.of_nat (length cells) ≤ INT_MAX →
       GetSize 1%positive m = Ok (Z.of_nat (length cells)) m).
Proof.
  apply (C2_size_matches_traversal 0 true).
  - exact reachable_123.
  - eexists. vm_compute. reflexivity.
Defined.

(** After [2 ^ 31] calls of [PushFront] on a new list, walking the list
    counts [2 ^ 31] nodes, and [GetSize()] returns [- 2 ^ 31]. *)
Lemma C2_counterexample :
  ∃ l m cells,
    (l <- ctor_default 0 ;;
     PushFront_times (Z.to_nat 2147483648) l 0 ;;; ret l) empty_mem = Ok l m
    ∧ reachable 0 true m
    ∧ traverse true l m = Ok cells m
    ∧ Z.of_nat (length cells) = 2147483648
    ∧ GetSize l m = Ok (-2147483648) m
    ∧ ¬ (GetSize l m = Ok (Z.of_nat (length cells)) m).
Proof.
  destruct (long_list 0 true 0 (Z.to_nat 2147483648))
    as (l & m & cells & Hrun & Hreach & Hlist & Hlen).
  assert (Z.of_nat (length cells) = 2147483648) as Hz.
  { rewrite Hlen. apply Z2Nat.id. by vm_compute. }
  exists l, m, cells. split; [exact Hrun|]. split; [exact Hreach|].
  split; [by apply traverse_spec|]. split; [exact Hz|].
  rewrite (GetSize_spec _ _ _ Hlist), Hz.
  split; [by vm_compute|]. by vm_compute.
Qed.

Lemma wf_123 : wf (mem_after (ctor_il 0 [1; 2; 3]) empty_mem).
Proof. exact (reachable_wf 0 true _ reachable_123). Qed.

Lemma C3_witness :
  let m := mem_after (a <- ctor_il 0 [1; 2; 3] ;; ctor_default 0) empty_mem in
  (PopFront true 6%positive m = Ok tt m
   ∧ EraseAfter true 1%positive end_ m = Ok end_ m
   ∧ EraseAfter true 1%positive (mkIter (Some 5%positive)) m = Ok end_ m
   ∧ EraseAfter true 6%positive (mkIter (Some 6%positive)) m = Ok end_ m)
  ∧ (PopFront false 6%positive m = AssertFail
     ∧ EraseAfter false 1%positive end_ m = AssertFail
     ∧ EraseAfter false 1%positive (mkIter (Some 5%positive)) m = AssertFail
     ∧ EraseAfter false 6%positive (mkIter (Some 6%positive)) m = AssertFail).
Proof.
  intros m.
  assert (is_list m 1%positive [(3%positive, 1); (4%positive, 2); (5%positive, 3)])
    as Hfull.
  { split; [|vm_compute; reflexivity].
    eexists. split; [vm_compute; reflexivity|].
    repeat (split; [reflexivity|]; eexists; split; [vm_compute; reflexivity|]).
    reflexivity. }
  assert (is_list m 6%positive []) as Hempty.
  { split; [|vm_compute; reflexivity].
    eexists. split; [vm_compute; reflexivity|]. reflexivity. }
  split.
  - destruct (proj1 (C3_guards true m) eq_refl) as (_ & Hpop & Hend & _ & Hlast).
    split; [exact (Hpop _ Hempty)|]. split; [exact (Hend _)|].
    split; [exact (Hlast _ _ _ Hfull eq_refl)|exact (Hlast _ _ _ Hempty eq_refl)].
  - destruct (proj2 (C3_guards false m) eq_refl)
      as (_ & Hpop & Hend & _ & Hlast).
    split; [exact (Hpop _ Hempty)|]. split; [exact (Hend _)|].
    split; [exact (Hlast _ _ _ Hfull eq_refl)|exact (Hlast _ _ _ Hempty eq_refl)].
Defined.

Lemma C4_witness :
  ∃ l m' cells,
    ctor_il 0 [1; 2; 3] empty_mem = Ok l m'
    ∧ wf m'
    ∧ traverse true l m' = Ok cells m'
    ∧ cells.*2 = [1; 2; 3]
    ∧ length cells = 3%nat
    ∧ size_ m' !! l = Some (to_size_t 3)
    ∧ (3 < 2 ^ size_t_bits → size_ m' !! l = Some 3)
    ∧ (3 ≤ INT_MAX → GetSize l m' = Ok 3 m').
Proof.
  apply (C4_initializer_list 0 true empty_mem [1; 2; 3]).
  exists ∅. apply models_empty.
Defined.

Lemma C5_witness :
  let m := mem_after (ctor_il 0 [1; 2; 3]) empty_mem in
  let ca := [(3%positive, 1); (4%positive, 2); (5%positive, 3)] in
  ∃ B m',
    ctor_copy 0 true 1%positive m = Ok B m' ∧ B ≠ 1%positive ∧ wf m'
    ∧ deep_copy true m' 1%positive B ca
    ∧ ((∀ x, Z.eqb x x = true) →
       op_eq Z.eqb true 1%positive B m' = Ok true m'
       ∧ op_eq Z.eqb true B 1%positive m' = Ok true m').
Proof.
  intros m ca.
  exact (proj1 (C5_copy_is_deep 0 Z.eqb true m 1%positive ca wf_123 is_list_123)).
Defined.

Lemma C6_witness :
  let m := mem_after (ctor_il 0 [1; 2; 3]) empty_mem in
  ∃ m' it,
    EraseAfter true 1%positive (mkIter (Some 3%positive)) m = Ok it m'
    ∧ wf m'
    ∧ is_list m' 1%positive [(3%positive, 1); (5%positive, 3)]
    ∧ size_ m' !! 1%positive = Some (to_size_t (3 - 1))
    ∧ (3 < 2 ^ size_t_bits →
       size_ m !! 1%positive = Some 3 ∧ size_ m' !! 1%positive = Some (3 - 1))
    ∧ node_ it = Some 5%positive
    ∧ node_ it = Some 5%positive
    ∧ get_next 3%positive m' = Ok (node_ it) m'
    ∧ (2%nat = 3%nat → it = end_).
Proof.
  intros m.
  apply (C6_EraseAfter true m 1%positive
           [(3%positive, 1); (4%positive, 2); (5%positive, 3)] 1 3%positive).
  - exact wf_123.
  - exact is_list_123.
  - reflexivity.
  - simpl. lia.
Defined.

Lemma C7_witness :
  let m := mem_after (a <- ctor_il 0 [1; 2; 3] ;; ctor_il 0 [1; 2; 4]) empty_mem in
  ∃ beq blt bgt : bool,
    op_eq Z.eqb true 1%positive 6%positive m = Ok beq m
    ∧ op_ne Z.eqb true 1%positive 6%positive m = Ok (negb beq) m
    ∧ op_lt Z.ltb true 1%positive 6%positive m = Ok blt m
    ∧ op_ge Z.ltb true 1%positive 6%positive m = Ok (negb blt) m
    ∧ op_gt Z.ltb true 1%positive 6%positive m = Ok bgt m
    ∧ op_le Z.ltb true 1%positive 6%positive m = Ok (negb bgt) m
    ∧ ((1%positive ≠ 6%positive ∨ ∀ x, Z.eqb x x = true) →
       (beq = true ↔ seq_equal Z.eqb [1; 2; 3] [1; 2; 4]))
    ∧ (1%positive = 6%positive → beq = true)
    ∧ (blt = true ↔ seq_less Z.ltb [1; 2; 3] [1; 2; 4])
    ∧ (bgt = true ↔ seq_less Z.ltb [1; 2; 4] [1; 2; 3]).
Proof.
  intros m.
  refine (proj1 (C7_comparisons Z.eqb Z.ltb true m 1%positive 6%positive
            [(3%positive, 1); (4%positive, 2); (5%positive, 3)]
            [(8%positive, 1); (9%positive, 2); (10%positive, 4)] _ _)).
  - split; [|vm_compute; reflexivity].
    eexists. split; [vm_compute; reflexivity|].
    repeat (split; [reflexivity|]; eexists; split; [vm_compute; reflexivity|]).
    reflexivity.
  - split; [|vm_compute; reflexivity].
    eexists. split; [vm_compute; reflexivity|].
    repeat (split; [reflexivity|]; eexists; split; [vm_compute; reflexivity|]).
    reflexivity.
Defined.

Lemma C8_witness :
  let m := mem_after (ctor_il 0 [1; 2; 3]) empty_mem in
  ∃ a m',
    PushFront 1%positive 0 m = Ok tt m'
    ∧ InsertAfter true 1%positive (before_begin 1%positive) 0 m
      = Ok (mkIter (Some a)) m'
    ∧ wf m'
    ∧ is_list m' 1%positive
        ((a, 0) :: [(3%positive, 1); (4%positive, 2); (5%positive, 3)])
    ∧ begin 1%positive m' = Ok (mkIter (Some a)) m'
    ∧ iter_deref true (mkIter (Some a)) m' = Ok 0 m'.
Proof.
  intros m.
  exact (C8_InsertAfter_before_begin true m 1%positive _ 0 wf_123 is_list_123).
Defined.

Lemma C9_witness :
  let m := mem_after (ctor_il 0 [1; 2; 3]) empty_mem in
  let ca := [(3%positive, 1); (4%positive, 2); (5%positive, 3)] in
  ∃ B m',
    ctor_move 0 1%positive m = Ok B m'
    ∧ ctor_move 0 1%positive m
      = (this <- ctor_default 0 ;; swap this 1%positive ;;; ret this) m
    ∧ B ≠ 1%positive ∧ wf m'
    ∧ is_list m' B ca
    ∧ traverse true B m' = Ok ca m'
    ∧ size_ m' !! B = size_ m !! 1%positive
    ∧ is_list m' 1%positive []
    ∧ GetSize 1%positive m' = Ok 0 m'
    ∧ begin 1%positive m' = Ok end_ m'
    ∧ IsEmpty 1%positive m' = Ok true m'.
Proof.
  intros m ca.
  exact (C9_move_construction 0 true m 1%positive ca wf_123 is_list_123).
Defined.

(** * The further properties at work on concrete lists

    [{1, 2, 3}] and then [{1, 2, 4}] built in empty memory are the list
    objects at addresses 1 and 6, the second with nodes at 8, 9 and 10. *)

Lemma reachable_two :
  reachable 0 true
    (mem_after (a <- ctor_il 0 [1; 2; 3] ;; ctor_il 0 [1; 2; 4]) empty_mem).
Proof.
  apply (reachable_step 0 true _ (OpInitList [1; 2; 4]) _ reachable_123);
    [exact I | vm_compute; reflexivity].
Qed.

Lemma wf_two :
  wf (mem_after (a <- ctor_il 0 [1; 2; 3] ;; ctor_il 0 [1; 2; 4]) empty_mem).
Proof. exact (reachable_wf 0 true _ reachable_two). Qed.

Lemma is_list_two_left :
  is_list (mem_after (a <- ctor_il 0 [1; 2; 3] ;; ctor_il 0 [1; 2; 4]) empty_mem)
    1%positive [(3%positive, 1); (4%positive, 2); (5%positive, 3)].
Proof.
  split; [|vm_compute; reflexivity].
  eexists. split; [vm_compute; reflexivity|].
  repeat (split; [reflexivity|]; eexists; split; [vm_compute; reflexivity|]).
  reflexivity.
Qed.

Lemma is_list_two_right :
  is_list (mem_after (a <- ctor_il 0 [1; 2; 3] ;; ctor_il 0 [1; 2; 4]) empty_mem)
    6%positive [(8%positive, 1); (9%positive, 2); (10%positive, 4)].
Proof.
  split; [|vm_compute; reflexivity].
  eexists. split; [vm_compute; reflexivity|].
  repeat (split; [reflexivity|]; eexists; split; [vm_compute; reflexivity|]).
  reflexivity.
Qed.

Lemma Z_ltb_asymmetric x y : (x <? y) = true → (y <? x) = false.
Proof. rewrite Z.ltb_lt, Z.ltb_ge. lia. Qed.

Lemma Z_eqb_neither_less x y :
  (x =? y) = true ↔ (x <? y) = false ∧ (y <? x) = false.
Proof. rewrite Z.eqb_eq, !Z.ltb_ge. lia. Qed.

Lemma X1_witness :
  let m := mem_after (ctor_il 0 [1; 2; 3]) empty_mem in
  ∃ m', Clear 1%positive m = Ok tt m'
        ∧ is_list m' 1%positive []
        ∧ nodes m' !! 4%positive = None
        ∧ Clear 1%positive m' = Ok tt m'.
Proof.
  intros m.
  destruct (X1_Clear_empties m 1%positive _ wf_123 is_list_123)
    as (m' & Hrun & _ & Hlist & _ & _ & Hgone & _ & Hagain).
  exists m'. split; [exact Hrun|]. split; [exact Hlist|]. split; [|exact Hagain].
  apply Hgone. right. left.
Defined.

Lemma X2_witness :
  let m := mem_after (ctor_il 0 [1; 2; 3]) empty_mem in
  ∃ it, begin 1%positive m = Ok it m
        ∧ IsEmpty 1%positive m = Ok (iter_eq it end_) m
        ∧ iter_eq it end_ = false.
Proof.
  intros m.
  destruct (X2_IsEmpty_iff_begin_is_end m 1%positive _ is_list_123)
    as (it & Hbegin & Hempty & Hiff & _).
  exists it. split; [exact Hbegin|]. split; [exact Hempty|].
  destruct (iter_eq it end_); [|reflexivity].
  destruct Hiff as [Hiff _]. discriminate (Hiff eq_refl).
Defined.

Lemma X3_witness :
  let m := mem_after (ctor_il 0 [1; 2; 3]) empty_mem in
  ∃ a m',
    InsertAfter true 1%positive (mkIter (Some 4%positive)) 7 m
      = Ok (mkIter (Some a)) m'
    ∧ is_list m' 1%positive
        [(3%positive, 1); (4%positive, 2); (a, 7); (5%positive, 3)]
    ∧ iter_deref true (mkIter (Some 5%positive)) m' = Ok 3 m'.
Proof.
  intros m.
  destruct (X3_InsertAfter true m 1%positive _ 2 4%positive 7 wf_123 is_list_123
              eq_refl)
    as (a & m' & Hrun & _ & _ & Hlist & _ & _ & _ & Hvalid & _).
  exists a, m'. split; [exact Hrun|]. split; [exact Hlist|].
  apply Hvalid. right. right. left.
Defined.

Lemma X5_witness :
  let m := mem_after (ctor_il 0 [1; 2; 3]) empty_mem in
  ∃ m', PopFront true 1%positive m = Ok tt m'
        ∧ is_list m' 1%positive [(4%positive, 2); (5%positive, 3)]
        ∧ iter_deref true (mkIter (Some 3%positive)) m' = Undefined.
Proof.
  intros m.
  destruct (X5_PopFront true m 1%positive 3%positive 1 _ wf_123 is_list_123)
    as (m' & Hrun & _ & Hlist & _ & _ & Hstale & _).
  exists m'. split; [exact Hrun|]. split; [exact Hlist|exact Hstale].
Defined.

Lemma X6_witness :
  let m := mem_after (ctor_il 0 [1; 2; 3]) empty_mem in
  ∃ m' it,
    EraseAfter true 1%positive (mkIter (Some 3%positive)) m = Ok it m'
    ∧ iter_deref true (mkIter (Some 4%positive)) m' = Undefined
    ∧ iter_deref true (mkIter (Some 5%positive)) m' = Ok 3 m'.
Proof.
  intros m.
  destruct (X6_EraseAfter_invalidates_one true m 1%positive _ 1 3%positive
              4%positive 2 wf_123 is_list_123 eq_refl eq_refl)
    as (m' & it & Hrun & _ & Hstale & Hvalid & _).
  exists m', it. split; [exact Hrun|]. split; [exact Hstale|].
  apply (Hvalid 5%positive 3); [right; right; left|discriminate].
Defined.

Lemma X7_witness :
  let m := mem_after (ctor_il 0 [1; 2; 3]) empty_mem in
  (InsertAfter true 1%positive (mkIter (Some 4%positive)) 7 ;;;
   EraseAfter true 1%positive (mkIter (Some 4%positive))) m
  = Ok (mkIter (Some 5%positive)) m.
Proof.
  intros m.
  exact (X7_InsertAfter_EraseAfter true m 1%positive _ 2 4%positive 7
           is_list_123 eq_refl).
Defined.

Lemma X8_witness :
  let m := mem_after (ctor_il 0 [1; 2; 3]) empty_mem in
  (PushFront 1%positive 0 ;;; PopFront true 1%positive) m = Ok tt m.
Proof.
  intros m. exact (X8_PushFront_PopFront true m 1%positive _ 0 is_list_123).
Defined.

Lemma X9_witness :
  let m := mem_after (a <- ctor_il 0 [1; 2; 3] ;; ctor_il 0 [1; 2; 4]) empty_mem in
  ∃ m',
    free_swap 1%positive 6%positive m = Ok tt m'
    ∧ is_list m' 1%positive [(8%positive, 1); (9%positive, 2); (10%positive, 4)]
    ∧ is_list m' 6%positive [(3%positive, 1); (4%positive, 2); (5%positive, 3)]
    ∧ nodes m' !! 9%positive = nodes m !! 9%positive.
Proof.
  intros m.
  destruct (X9_swap_exchanges m 1%positive 6%positive _ _ wf_two
              is_list_two_left is_list_two_right)
    as (m' & _ & Hrun & _ & HA & HB & _ & _ & Hsame & _).
  exists m'. split; [exact Hrun|]. split; [exact HA|]. split; [exact HB|].
  apply Hsame; discriminate.
Defined.

Lemma X10_witness :
  let m := mem_after (a <- ctor_il 0 [1; 2; 3] ;; ctor_il 0 [1; 2; 4]) empty_mem in
  (swap 1%positive 6%positive ;;; swap 1%positive 6%positive) m = Ok tt m
  ∧ swap 1%positive 1%positive m = Ok tt m.
Proof.
  intros m.
  exact (X10_swap_twice m 1%positive 6%positive _ _
           is_list_two_left is_list_two_right).
Defined.

Lemma X11_witness :
  let m := mem_after (ctor_il 0 [1; 2; 3]) empty_mem in
  (b <- begin 1%positive ;; iter_advance true 2 b) m
    = Ok (mkIter (Some 5%positive)) m
  ∧ iter_deref true (mkIter (Some 5%positive)) m = Ok 3 m
  ∧ (b <- begin 1%positive ;; iter_advance true 3 b) m = Ok end_ m.
Proof.
  intros m.
  destruct (X11_iterator_walk true m 1%positive _ is_list_123)
    as (_ & Hwalk & Hend & _).
  destruct (Hwalk 2%nat 5%positive 3 eq_refl) as (Hadv & _ & Hread & _).
  split; [exact Hadv|]. split; [exact Hread|exact Hend].
Defined.

Lemma X12_witness :
  let m := mem_after (ctor_il 0 [1; 2; 3]) empty_mem in
  ∃ m' cells,
    PushFront_all 1%positive [7; 8; 9] m = Ok tt m'
    ∧ traverse true 1%positive m' = Ok cells m'
    ∧ cells.*2 = [9; 8; 7; 1; 2; 3].
Proof.
  intros m.
  destruct (X12_PushFront_reverses true m 1%positive _ [7; 8; 9] wf_123 is_list_123)
    as (m' & cells & Hrun & _ & Hwalk & Hvals & _).
  exists m', cells. split; [exact Hrun|]. split; [exact Hwalk|exact Hvals].
Defined.


Lemma X14_witness :
  no_leak (mem_after (a <- ctor_il 0 [1; 2; 3] ;; ctor_il 0 [1; 2; 4]) empty_mem).
Proof. exact (proj1 (X14_no_leak 0 true _ reachable_two)). Defined.

Lemma X15_witness :
  let m := mem_after (a <- ctor_il 0 [1; 2; 3] ;; ctor_il 0 [1; 2; 4]) empty_mem in
  ∃ m',
    copy_assign 0 true 6%positive 1%positive m = Ok 6%positive m'
    ∧ iter_deref true (mkIter (Some 9%positive)) m' = Undefined
    ∧ iter_deref true (mkIter (Some 4%positive)) m' = Ok 2 m'.
Proof.
  intros m.
  destruct (X15_copy_assign_frees_old 0 true m 1%positive 6%positive _ _ wf_two
              is_list_two_left is_list_two_right)
    as (m' & Hrun & Hold & _ & Hsrc); [discriminate|].
  exists m'. split; [exact Hrun|]. split.
  - apply (Hold 9%positive). right. left.
  - apply Hsrc. right. left.
Defined.

Lemma X16_witness :
  let m := mem_after (a <- ctor_il 0 [1; 2; 3] ;; ctor_il 0 [1; 2; 4]) empty_mem in
  ∃ beq blt bgt : bool,
    op_eq Z.eqb true 1%positive 6%positive m = Ok beq m
    ∧ op_lt Z.ltb true 1%positive 6%positive m = Ok blt m
    ∧ op_gt Z.ltb true 1%positive 6%positive m = Ok bgt m
    ∧ beq = negb blt && negb bgt
    ∧ blt && bgt = false
    ∧ op_le Z.ltb true 1%positive 6%positive m = Ok (blt || beq) m
    ∧ op_ge Z.ltb true 1%positive 6%positive m = Ok (bgt || beq) m
    ∧ op_ne Z.eqb true 1%positive 6%positive m = Ok (blt || bgt) m.
Proof.
  intros m.
  exact (X16_comparisons_agree Z.eqb Z.ltb true m 1%positive 6%positive _ _
           is_list_two_left is_list_two_right Z_ltb_asymmetric Z_eqb_neither_less).
Defined.

Lemma X17_witness :
  let m := mem_after (ctor_il 0 [1; 2; 3]) empty_mem in
  ∃ m',
    iter_assign true (mkIter (Some 4%positive)) 7 m = Ok tt m'
    ∧ is_list m' 1%positive [(3%positive, 1); (4%positive, 7); (5%positive, 3)]
    ∧ iter_deref true (mkIter (Some 4%positive)) m' = Ok 7 m'.
Proof.
  intros m.
  destruct (X17_write_through_iterator true m 1%positive _ 1 4%positive 2 7
              wf_123 is_list_123 eq_refl)
    as (m' & Hrun & _ & Hlist & Hread & _).
  exists m'. split; [exact Hrun|]. split; [exact Hlist|exact Hread].
Defined.

Lemma is_list_three :
  let m := mem_after (a <- ctor_il 0 [1; 2; 3] ;; b <- ctor_il 0 [1; 2; 4] ;;
                      ctor_il 0 [2]) empty_mem in
  is_list m 1%positive [(3%positive, 1); (4%positive, 2); (5%positive, 3)]
  ∧ is_list m 6%positive [(8%positive, 1); (9%positive, 2); (10%positive, 4)]
  ∧ is_list m 11%positive [(13%positive, 2)].
Proof.
  intros m. repeat split; try (vm_compute; reflexivity);
    (eexists; split; [vm_compute; reflexivity|];
     repeat (split; [reflexivity|]; eexists; split; [vm_compute; reflexivity|]);
     reflexivity).
Qed.

Lemma is_list_twins :
  let m := mem_after (a <- ctor_il 0 [1; 2; 3] ;; ctor_il 0 [1; 2; 3]) empty_mem in
  is_list m 1%positive [(3%positive, 1); (4%positive, 2); (5%positive, 3)]
  ∧ is_list m 6%positive [(8%positive, 1); (9%positive, 2); (10%positive, 3)].
Proof.
  intros m. repeat split; try (vm_compute; reflexivity);
    (eexists; split; [vm_compute; reflexivity|];
     repeat (split; [reflexivity|]; eexists; split; [vm_compute; reflexivity|]);
     reflexivity).
Qed.

Lemma Z_ltb_trans x y z : (x <? y) = true → (y <? z) = true → (x <? z) = true.
Proof. rewrite !Z.ltb_lt. lia. Qed.

Lemma Z_ltb_incomparable x y z :
  (x <? y) = false → (y <? x) = false → (y <? z) = false → (z <? y) = false →
  (x <? z) = false ∧ (z <? x) = false.
Proof. rewrite !Z.ltb_ge. lia. Qed.

Lemma Z_eqb_sym x y : (x =? y) = true → (y =? x) = true.
Proof. rewrite !Z.eqb_eq. lia. Qed.

Lemma Z_eqb_trans x y z : (x =? y) = true → (y =? z) = true → (x =? z) = true.
Proof. rewrite !Z.eqb_eq. lia. Qed.

Lemma X18_witness :
  let m := mem_after (a <- ctor_il 0 [1; 2; 3] ;; b <- ctor_il 0 [1; 2; 4] ;;
                      ctor_il 0 [2]) empty_mem in
  op_lt Z.ltb true 1%positive 1%positive m = Ok false m
  ∧ op_lt Z.ltb true 6%positive 1%positive m = Ok false m
  ∧ op_lt Z.ltb true 1%positive 11%positive m = Ok true m.
Proof.
  intros m. destruct is_list_three as (Ha & Hb & Hc).
  destruct (X18_less_is_strict_order Z.ltb true Z.ltb_irrefl Z_ltb_trans
              Z_ltb_incomparable m 1%positive 6%positive 11%positive _ _ _ Ha Hb Hc)
    as (Hirr & Hasym & Htrans).
  split; [exact Hirr|]. split.
  - apply Hasym. vm_compute. reflexivity.
  - apply Htrans; vm_compute; reflexivity.
Defined.

Lemma X19_witness :
  let m := mem_after (a <- ctor_il 0 [1; 2; 3] ;; ctor_il 0 [1; 2; 3]) empty_mem in
  op_eq Z.eqb true 1%positive 1%positive m = Ok true m
  ∧ op_eq Z.eqb true 1%positive 6%positive m = Ok true m
  ∧ op_eq Z.eqb true 6%positive 1%positive m = Ok true m.
Proof.
  intros m. destruct is_list_twins as (Ha & Hb).
  destruct (X19_equal_is_equivalence Z.eqb true Z.eqb_refl Z_eqb_sym Z_eqb_trans
              m 1%positive 6%positive 1%positive _ _ _ Ha Hb Ha)
    as (Hrefl & Hcopy & Hsym & _).
  split; [exact Hrefl|]. split; [exact (Hcopy eq_refl)|].
  apply Hsym. exact (Hcopy eq_refl).
Defined.

Lemma X20_witness :
  let m := mem_after (a <- ctor_il 0 [1; 2; 3] ;; ctor_il 0 [1; 2; 4]) empty_mem in
  ∃ a m',
    InsertAfter true 1%positive (mkIter (Some 8%positive)) 7 m
      = Ok (mkIter (Some a)) m'
    ∧ size_ m' !! 1%positive = Some (to_size_t (3 + 1))
    ∧ size_ m' !! 6%positive = Some (to_size_t 3)
    ∧ ¬ wf m'.
Proof.
  intros m.
  destruct (X20_InsertAfter_foreign_iterator true m 1%positive 6%positive _ _
              1 8%positive 7 wf_two is_list_two_left is_list_two_right)
    as (a & m' & Hrun & _ & HsA & _ & HsB & _ & _ & Hbad);
    [discriminate|reflexivity|].
  exists a, m'. split; [exact Hrun|]. split; [exact HsA|]. split; [exact HsB|exact Hbad].
Defined.
